(** * VocabApp: the SM-2 review scheduler and the review session

    A shallow embedding of

    - [src/lib/spaced-repetition/sm2.ts]  (the scheduler, [sm2]),
    - [src/lib/services/words.ts]         ([getDueWords], [updateWord]),
    - [src/app/review/page.tsx]           ([loadDueWords], [handleReview]),

    followed by the properties the specification states about them; and of
    the code around them,

    - [src/lib/services/words.ts]         ([getAllWords], [createWord],
                                           [deleteWord]),
    - [src/lib/services/books.ts], [src/lib/services/storage.ts],
    - [src/components/pdf/WordPopup.tsx]  ([saveWord]),
    - [src/components/pdf/PdfViewer.tsx]  ([changePage]),
    - the review, vocabulary, bookshelf and reading pages,

    with the properties that code shows.

    JavaScript numbers are IEEE-754 binary64 values; they are modelled by
    Rocq's primitive floats, whose operations are specified by [SpecFloat]
    (round to nearest, ties to even), so [+], [*], [/], [<] and [===] below
    are the ones the source executes. *)

From Stdlib Require Import ZArith Lia Bool List String.
From Stdlib Require Import Floats Uint63 Reals Lra.
From Stdlib Require Import Sorting.Permutation Sorting.Sorted.
From Stdlib Require Import DecimalString.
Import ListNotations.

Set Warnings "-inexact-float".

(** ** The JavaScript runtime: numbers, [Math], [Date] *)

Module JS.

Local Open Scope float_scope.

Definition number := float.

(** Errors a call can raise (a rejected promise, for an async function). *)
Inductive error : Type :=
| RangeError                      (* "Invalid time value", from Date.prototype.toISOString *)
| PostgrestError (code : string). (* the [error] member of a Supabase response *)

Inductive result (A : Type) : Type :=
| Ok (a : A)
| Throw (e : error).
Arguments Ok {A} a.
Arguments Throw {A} e.

(** A non-negative integer below 2^63 as a number (exact below 2^53). *)
Definition of_nonneg (n : Z) : number := of_uint63 (Uint63.of_Z n).

(** [Math.ceil] (ECMA-262 21.3.2.10): NaN, zeros and infinities are returned
    unchanged; a value in (-1, 0) gives -0; otherwise the smallest integral
    number not below the argument.  A finite number is [m * 2^e]; with
    [0 <= e] it is already integral. *)
Definition Math_ceil (x : number) : number :=
  match Prim2SF x with
  | S754_finite s m e =>
      if (0 <=? e)%Z then x
      else
        let i := Z.shiftr (Zpos m) (- e) in
        let integral := (Z.shiftl i (- e) =? Zpos m)%Z in
        if s then - of_nonneg i
        else of_nonneg (if integral then i else i + 1)
  | _ => x
  end.

(** [Math.round] (ECMA-262 21.3.2.28): the nearest integral number, a tie
    going towards +infinity; a value in [-0.5, 0) gives -0 and a value in
    (0, 0.5) gives +0. *)
Definition Math_round (x : number) : number :=
  match Prim2SF x with
  | S754_finite s m e =>
      if (0 <=? e)%Z then x
      else
        let k := (- e)%Z in
        let i := Z.shiftr (Zpos m) k in
        let twice_frac := (2 * (Zpos m - Z.shiftl i k))%Z in
        if s then - of_nonneg (if (2 ^ k <? twice_frac)%Z then i + 1 else i)
        else of_nonneg (if (2 ^ k <=? twice_frac)%Z then i + 1 else i)
  | _ => x
  end.

(** [Number.isInteger]. *)
Definition Number_isInteger (x : number) : bool :=
  match Prim2SF x with
  | S754_zero _ => true
  | S754_finite _ m e =>
      if (0 <=? e)%Z then true
      else (Z.shiftl (Z.shiftr (Zpos m) (- e)) (- e) =? Zpos m)%Z
  | _ => false
  end.

(** The integral part of a finite number (ToIntegerOrInfinity); [None] for
    NaN and the infinities. *)
Definition truncate (x : number) : option Z :=
  match Prim2SF x with
  | S754_zero _ => Some 0%Z
  | S754_finite s m e =>
      let a := if (0 <=? e)%Z then (Zpos m * 2 ^ e)%Z else Z.shiftr (Zpos m) (- e) in
      Some (if s then (- a)%Z else a)
  | _ => None
  end.

(** *** Dates

    A [Date] holds a time value: milliseconds since the epoch, an integer of
    magnitude at most 8.64e15, or NaN (an invalid date, [None] here).  An
    instant is carried through the program as its ISO-8601 string
    ([toISOString]); the string and the time value determine each other, so
    the model keeps the time value. *)

Definition msPerDay : Z := 86400000.
Definition maxTimeValue : Z := 8640000000000000.

Definition Timestamp := Z.
Definition Date := option Z.

(** TimeClip (ECMA-262 21.4.1.31). *)
Definition TimeClip (t : Z) : Date :=
  if (Z.abs t <=? maxTimeValue)%Z then Some t else None.

(** [d.setDate(d.getDate() + days)] on a valid date with time value [t].
    MakeDay moves the day number by the integral part of the argument and
    keeps the time within the day, so in a zone with a fixed UTC offset the
    time value moves by whole days; a non-finite argument, or a result out of
    range, leaves an invalid date.  ([sm2] passes an integral or non-finite
    day count only.) *)
Definition Date_addDays (t : Z) (days : number) : Date :=
  match truncate days with
  | Some n => TimeClip (t + n * msPerDay)
  | None => None
  end.

(** [toISOString] raises RangeError on an invalid date. *)
Definition toISOString (d : Date) : result Timestamp :=
  match d with
  | Some t => Ok t
  | None => Throw RangeError
  end.

End JS.

(** ** [src/lib/spaced-repetition/sm2.ts] *)

Module SM2.
Import JS.
Local Open Scope float_scope.

Record SM2State : Type := {
  repetitions : number;
  easeFactor : number;
  intervalDays : number;
  nextReviewAt : Timestamp
}.

(** Lines 17-27: the new [repetitions] and [intervalDays]. *)
Definition schedule (quality : number) (state : SM2State) : number * number :=
  if 3 <=? quality then
    (repetitions state + 1,
     if repetitions state =? 0 then 1
     else if repetitions state =? 1 then 6
     else Math_ceil (intervalDays state * easeFactor state))
  else
    (0, 1).

(** Lines 30-32: the ease factor after the update and the clamp. *)
Definition updateEase (quality : number) (easeFactor : number) : number :=
  let easeFactor :=
    easeFactor + (0.1 - (5 - quality) * (0.08 + (5 - quality) * 0.02)) in
  if easeFactor <? 1.3 then 1.3 else easeFactor.

(** [sm2 (quality, state)].  The function reads the clock itself
    ([new Date ()], line 34); [now] is that reading. *)
Definition sm2 (now : Timestamp) (quality : number) (state : SM2State)
  : result SM2State :=
  let '(repetitions, intervalDays) := schedule quality state in
  let easeFactor := updateEase quality (easeFactor state) in
  let nextDate := Date_addDays now intervalDays in
  match toISOString nextDate with
  | Throw e => Throw e
  | Ok iso =>
      Ok {| repetitions := repetitions;
            easeFactor := Math_round (easeFactor * 100) / 100;
            intervalDays := intervalDays;
            nextReviewAt := iso |}
  end.

End SM2.

(** ** [src/lib/services/words.ts] *)

Module Words.
Import JS.

Record VocabWord : Type := {
  id : string;
  word : string;
  translation : string;
  definition : string;
  example : string;
  audio_url : option string;
  category : string;
  repetitions : number;
  ease_factor : number;
  interval_days : number;
  next_review_at : Timestamp;
  created_at : Timestamp
}.

(** [Partial<Omit<VocabWord, "id" | "created_at">>]: the columns an update
    may set. *)
Record WordUpdate : Type := {
  set_word : option string;
  set_translation : option string;
  set_definition : option string;
  set_example : option string;
  set_audio_url : option (option string);
  set_category : option string;
  set_repetitions : option number;
  set_ease_factor : option number;
  set_interval_days : option number;
  set_next_review_at : option Timestamp
}.

Definition assign {A : Type} (new : option A) (old : A) : A :=
  match new with
  | Some v => v
  | None => old
  end.

Definition applyUpdate (u : WordUpdate) (w : VocabWord) : VocabWord :=
  {| id := id w;
     word := assign (set_word u) (word w);
     translation := assign (set_translation u) (translation w);
     definition := assign (set_definition u) (definition w);
     example := assign (set_example u) (example w);
     audio_url := assign (set_audio_url u) (audio_url w);
     category := assign (set_category u) (category w);
     repetitions := assign (set_repetitions u) (repetitions w);
     ease_factor := assign (set_ease_factor u) (ease_factor w);
     interval_days := assign (set_interval_days u) (interval_days w);
     next_review_at := assign (set_next_review_at u) (next_review_at w);
     created_at := created_at w |}.

(** The [words] table as the signed-in user sees it (row level security
    shows a user their own rows only), and a fault the service may answer
    every request with (unreachable, permission denied, ...). *)
Record Store : Type := {
  rows : list VocabWord;
  fault : option error
}.

(** [.order ("next_review_at", { ascending: true })]: the rows sorted by
    the column, smallest first. *)
Fixpoint insert_by (key : VocabWord -> Z) (w : VocabWord) (l : list VocabWord)
  : list VocabWord :=
  match l with
  | [] => [w]
  | v :: l' => if (key w <=? key v)%Z then w :: l else v :: insert_by key w l'
  end.

Fixpoint order (key : VocabWord -> Z) (l : list VocabWord) : list VocabWord :=
  match l with
  | [] => []
  | w :: l' => insert_by key w (order key l')
  end.

(** [.lte ("next_review_at", v)]. *)
Definition lte (key : VocabWord -> Z) (v : Z) (l : list VocabWord)
  : list VocabWord :=
  filter (fun w => (key w <=? v)%Z) l.

(** [getDueWords ()]; [now] is the clock reading [new Date ()]. *)
Definition getDueWords (db : Store) (now : Timestamp)
  : result (list VocabWord) :=
  match fault db with
  | Some e => Throw e
  | None => Ok (order next_review_at (lte next_review_at now (rows db)))
  end.

(** [.update (updates).eq ("id", id).select ().single ()]: the matching row
    is updated and returned; [single] fails (PGRST116) unless exactly one
    row comes back.  [id] is the primary key. *)
Fixpoint updateRow (i : string) (u : WordUpdate) (l : list VocabWord)
  : option (VocabWord * list VocabWord) :=
  match l with
  | [] => None
  | w :: l' =>
      if String.eqb (id w) i then Some (applyUpdate u w, applyUpdate u w :: l')
      else
        match updateRow i u l' with
        | Some (r, l'') => Some (r, w :: l'')
        | None => None
        end
  end.

(** [updateWord (id, updates)]. *)
Definition updateWord (db : Store) (i : string) (u : WordUpdate)
  : result VocabWord * Store :=
  match fault db with
  | Some e => (Throw e, db)
  | None =>
      match updateRow i u (rows db) with
      | Some (r, l) => (Ok r, {| rows := l; fault := None |})
      | None => (Throw (PostgrestError "PGRST116"), db)
      end
  end.

End Words.

(** ** [src/app/review/page.tsx] *)

Module Review.
Import JS Words.

(** The component state of [ReviewPage]. *)
Record ReviewPage : Type := {
  dueWords : list VocabWord;
  currentIndex : nat;
  revealed : bool;
  sessionComplete : bool;
  reviewed : nat;
  loading : bool
}.

(** [const currentWord = dueWords[currentIndex]]. *)
Definition currentWord (p : ReviewPage) : option VocabWord :=
  nth_error (dueWords p) (currentIndex p).

(** What a handler does besides changing the component state: it calls the
    word store and waits for the answer, writes to the console, returns, or
    lets an exception escape to its caller. *)
Inductive Eff (A : Type) : Type :=
| Return (a : A)
| Raise (e : error)
| CallUpdateWord (i : string) (u : WordUpdate) (k : result VocabWord -> Eff A)
| ConsoleError (msg : string) (e : error) (k : Eff A).
Arguments Return {A} a.
Arguments Raise {A} e.
Arguments CallUpdateWord {A} i u k.
Arguments ConsoleError {A} msg e k.

(** Line 58. *)
Definition categoryOf (quality : number) : string :=
  if PrimFloat.eqb quality 5 then "learned"
  else if PrimFloat.eqb quality 1 then "difficult"
  else "learning".

(** Lines 62-68: the argument of [updateWord]. *)
Definition reviewUpdate (newState : SM2.SM2State) (category : string)
  : WordUpdate :=
  {| set_word := None;
     set_translation := None;
     set_definition := None;
     set_example := None;
     set_audio_url := None;
     set_category := Some category;
     set_repetitions := Some (SM2.repetitions newState);
     set_ease_factor := Some (SM2.easeFactor newState);
     set_interval_days := Some (SM2.intervalDays newState);
     set_next_review_at := Some (SM2.nextReviewAt newState) |}.

(** Lines 70-77: the state changes after a successful update. *)
Definition advance (p : ReviewPage) : ReviewPage :=
  if currentIndex p + 1 <? List.length (dueWords p) then
    {| dueWords := dueWords p;
       currentIndex := currentIndex p + 1;
       revealed := false;
       sessionComplete := sessionComplete p;
       reviewed := reviewed p + 1;
       loading := loading p |}
  else
    {| dueWords := dueWords p;
       currentIndex := currentIndex p;
       revealed := false;
       sessionComplete := true;
       reviewed := reviewed p + 1;
       loading := loading p |}.

(** [handleReview (quality)], run from the rendered state [p]; [now] is the
    clock reading taken inside [sm2].  The call of [sm2] is outside the
    [try], the call of [updateWord] inside. *)
Definition handleReview (now : Timestamp) (p : ReviewPage) (quality : number)
  : Eff ReviewPage :=
  match currentWord p with
  | None => Return p
  | Some w =>
      match SM2.sm2 now quality
              {| SM2.repetitions := repetitions w;
                 SM2.easeFactor := ease_factor w;
                 SM2.intervalDays := interval_days w;
                 SM2.nextReviewAt := next_review_at w |} with
      | Throw e => Raise e
      | Ok newState =>
          let category := categoryOf quality in
          CallUpdateWord (id w) (reviewUpdate newState category)
            (fun answer =>
               match answer with
               | Ok _ => Return (advance p)
               | Throw e => ConsoleError "Failed to update word:" e (Return p)
               end)
      end
  end.

(** [loadDueWords ()], from the state [p].  A failure of the query is only
    written to the console and leaves the list as it was. *)
Definition loadDueWords (db : Store) (now : Timestamp) (p : ReviewPage)
  : ReviewPage :=
  match getDueWords db now with
  | Ok due =>
      {| dueWords := due;
         currentIndex := currentIndex p;
         revealed := revealed p;
         sessionComplete :=
           if List.length due =? 0 then true else sessionComplete p;
         reviewed := reviewed p;
         loading := false |}
  | Throw _ =>
      {| dueWords := dueWords p;
         currentIndex := currentIndex p;
         revealed := revealed p;
         sessionComplete := sessionComplete p;
         reviewed := reviewed p;
         loading := false |}
  end.

(** The state a freshly mounted page starts from (the [useState] defaults). *)
Definition initialPage : ReviewPage :=
  {| dueWords := [];
     currentIndex := 0;
     revealed := false;
     sessionComplete := false;
     reviewed := 0;
     loading := true |}.

(** What a run of a handler leaves behind: how it ended, the store, and the
    lines written to the console. *)
Inductive outcome (A : Type) : Type :=
| Returned (a : A)
| Raised (e : error).
Arguments Returned {A} a.
Arguments Raised {A} e.

(** Running a handler against the word store; the requests it sent are
    collected in order. *)
Fixpoint run {A : Type} (h : Eff A) (db : Store)
  : outcome A * Store * list (string * WordUpdate) * list (string * error) :=
  match h with
  | Return a => (Returned a, db, [], [])
  | Raise e => (Raised e, db, [], [])
  | CallUpdateWord i u k =>
      let '(answer, db1) := updateWord db i u in
      let '(o, db2, reqs, logs) := run (k answer) db1 in
      (o, db2, (i, u) :: reqs, logs)
  | ConsoleError msg e k =>
      let '(o, db1, reqs, logs) := run k db in
      (o, db1, reqs, (msg, e) :: logs)
  end.

End Review.

(** ** Binary64 numbers as real numbers

    What the proofs below need to speak about the value of a number: the
    real number a mantissa and an exponent stand for, the numbers of the
    format, and bounds on a number in the extended reals. *)

Module Binary64.
Local Open Scope Z_scope.

Definition bpow (e : Z) : R := powerRZ 2 e.

(** The real number [m * 2^e]. *)
Definition F2R (m e : Z) : R := (IZR m * bpow e)%R.

(** The value of a finite number; 0 for the others. *)
Definition SF2R (x : spec_float) : R :=
  match x with
  | S754_finite s m e => F2R (SpecFloat.cond_Zopp s (Zpos m)) e
  | _ => 0%R
  end.

(** A positive number of the format, not necessarily in canonical form: at
    most 53 bits of mantissa, exponent not below the smallest one. *)
Definition repr (M E : Z) : Prop := 0 < M < 2 ^ 53 /\ -1074 <= E.

(** The real number [v] that is being rounded lies at [m * 2^e] or strictly
    between it and the next multiple, as the location says. *)
Definition inbetween (m e : Z) (l : location) (v : R) : Prop :=
  match l with
  | loc_Exact => v = F2R m e
  | loc_Inexact _ => (F2R m e < v < F2R (m + 1) e)%R
  end.

(** Bits were shifted out, or the value was inexact already. *)
Definition inex (mrs : shr_record) : bool := shr_r mrs || shr_s mrs.

Definition sign_is (s : bool) (r : spec_float) : Prop :=
  match r with
  | S754_zero s' | S754_infinity s' | S754_finite s' _ _ => s' = s
  | S754_nan => False
  end.

(** The magnitude of [r] is at least, at most, [x]. *)
Definition mag_ge (r : spec_float) (x : R) : Prop :=
  match r with
  | S754_infinity _ => True
  | S754_finite _ m e => (x <= F2R (Zpos m) e)%R
  | _ => False
  end.

Definition mag_le (r : spec_float) (x : R) : Prop :=
  match r with
  | S754_zero _ => True
  | S754_finite _ m e => (F2R (Zpos m) e <= x)%R
  | _ => False
  end.

Definition finite_or_zero (x : spec_float) : Prop :=
  match x with
  | S754_zero _ | S754_finite _ _ _ => True
  | _ => False
  end.

(** [v <= x] and [x <= v] in the extended reals; false of NaN. *)
Definition SFlb (v : R) (x : spec_float) : Prop :=
  match x with
  | S754_infinity s => s = false
  | S754_nan => False
  | _ => (v <= SF2R x)%R
  end.

Definition SFub (v : R) (x : spec_float) : Prop :=
  match x with
  | S754_infinity s => s = true
  | S754_nan => False
  | _ => (SF2R x <= v)%R
  end.

(** What a comparison says about the values compared. *)
Definition cmp_spec (c : option comparison) (a b : R) : Prop :=
  match c with
  | Some Lt => (a < b)%R
  | Some Eq => a = b
  | Some Gt => (b < a)%R
  | None => False
  end.

(** The same for JavaScript numbers. *)
Definition val (x : float) : R := SF2R (Prim2SF x).
Definition lb (v : R) (x : float) : Prop := SFlb v (Prim2SF x).
Definition ub (v : R) (x : float) : Prop := SFub v (Prim2SF x).

(** A test for [m1 * 2^e1 <= m2 * 2^e2]. *)
Definition F2R_leb (m1 e1 m2 e2 : Z) : bool :=
  m1 * 2 ^ (e1 - Z.min e1 e2) <=? m2 * 2 ^ (e2 - Z.min e1 e2).

End Binary64.

(** ** The ease update and repeated reviews, in the specification's words *)

Module Schedule.
Import JS SM2 Binary64.
Local Open Scope float_scope.

(** The SM-2 change of the ease factor for a rating. *)
Definition easeDelta (quality : number) : number :=
  0.1 - (5 - quality) * (0.08 + (5 - quality) * 0.02).

(** "Clamp: if the ease factor is below 1.3, set it to 1.3." *)
Definition clampEase (e : number) : number := if e <? 1.3 then 1.3 else e.

(** "Round to two decimal places": the hundredths, rounded to an integer,
    over 100. *)
Definition roundTwoPlaces (e : number) : number := Math_round (e * 100) / 100.

(** [n] successive reviews with the same rating, starting from [state];
    [clock k] is the clock reading at review number [k]. *)
Fixpoint reviews (clock : nat -> Timestamp) (quality : number) (n : nat)
  (state : SM2State) : result SM2State :=
  match n with
  | O => Ok state
  | S k =>
      match reviews clock quality k state with
      | Ok s => sm2 (clock k) quality s
      | Throw e => Throw e
      end
  end.

(** What holds of the state after one Easy review of a new word, and after
    two or more. *)
Definition after_first (s : SM2State) : Prop :=
  repetitions s = 1 /\ intervalDays s = 1 /\ (1.3 <=? easeFactor s) = true.

Definition after_more (s : SM2State) : Prop :=
  lb 2 (repetitions s) /\ lb 1 (intervalDays s) /\ (1.3 <=? easeFactor s) = true.

(** The state a word is saved with ([WordPopup.tsx], the column defaults). *)
Definition freshState : SM2State :=
  {| repetitions := 0; easeFactor := 2.5; intervalDays := 0; nextReviewAt := 0%Z |}.

End Schedule.

(** ** A store with four saved words, and a session on them *)

Module Scenario.
Import JS Words Review.

(** The scheduling state [handleReview] passes to [sm2] (lines 49-54). *)
Definition stateOf (w : VocabWord) : SM2.SM2State :=
  {| SM2.repetitions := repetitions w;
     SM2.easeFactor := ease_factor w;
     SM2.intervalDays := interval_days w;
     SM2.nextReviewAt := next_review_at w |}.

Definition byReviewTime (a b : VocabWord) : Prop :=
  (next_review_at a <= next_review_at b)%Z.

Definition savedWord (i : string) (t : Timestamp) : VocabWord :=
  {| id := i; word := i; translation := EmptyString; definition := EmptyString;
     example := EmptyString; audio_url := None; category := "learning";
     repetitions := 0%float; ease_factor := 2.5%float; interval_days := 0%float;
     next_review_at := t; created_at := 0%Z |}.

Definition day : Z := msPerDay.
Definition today : Timestamp := (10 * day)%Z.

Definition wordA : VocabWord := savedWord "a" (today - 3 * day)%Z.
Definition wordB : VocabWord := savedWord "b" (today - 1 * day)%Z.
Definition wordC : VocabWord := savedWord "c" (today - 5 * day)%Z.
Definition wordD : VocabWord := savedWord "d" (today + 1 * day)%Z.

Definition scenarioD : Store :=
  {| rows := [wordA; wordB; wordC; wordD]; fault := None |}.

Definition unreachable : Store :=
  {| rows := [wordA; wordB; wordC; wordD];
     fault := Some (PostgrestError "503") |}.

Definition sessionD : ReviewPage :=
  {| dueWords := [wordC; wordA; wordB]; currentIndex := 0; revealed := true;
     sessionComplete := false; reviewed := 0; loading := false |}.

End Scenario.

(** ** The rest of [src/lib/services/words.ts] *)

Module WordsCrud.
Import JS Words.

(** What a service function throws: the [error] member of a response
    ([throw error]), or a new [Error] with a message. *)
Inductive thrown : Type :=
| Response (e : error)
| NewError (message : string).

Inductive attempt (A : Type) : Type :=
| Fulfilled (a : A)
| Rejected (x : thrown).
Arguments Fulfilled {A} a.
Arguments Rejected {A} x.

(** [error.code]. *)
Definition code (e : error) : option string :=
  match e with
  | PostgrestError c => Some c
  | RangeError => None
  end.

Definition hasCode (e : error) (c : string) : bool :=
  match code e with
  | Some c' => String.eqb c' c
  | None => false
  end.

(** [getAllWords ()]: every row, [.order ("created_at", { ascending:
    false })], that is smallest first by the negated column. *)
Definition getAllWords (db : Store) : result (list VocabWord) :=
  match fault db with
  | Some e => Throw e
  | None => Ok (order (fun w => (- created_at w)%Z) (rows db))
  end.

(** The argument of [createWord]: a word without [id] and [created_at]. *)
Record NewWord : Type := {
  new_word : string;
  new_translation : string;
  new_definition : string;
  new_example : string;
  new_audio_url : option string;
  new_category : string;
  new_repetitions : number;
  new_ease_factor : number;
  new_interval_days : number;
  new_next_review_at : Timestamp
}.

(** The row an insert stores: [id] and [created_at] are column defaults
    ([uuid_generate_v4 ()] and [NOW ()]), drawn by the database. *)
Definition newRow (newId : string) (createdAt : Timestamp) (w : NewWord)
  : VocabWord :=
  {| id := newId;
     word := new_word w;
     translation := new_translation w;
     definition := new_definition w;
     example := new_example w;
     audio_url := new_audio_url w;
     category := new_category w;
     repetitions := new_repetitions w;
     ease_factor := new_ease_factor w;
     interval_days := new_interval_days w;
     next_review_at := new_next_review_at w;
     created_at := createdAt |}.

(** [.insert ({ user_id, ...word }).select ().single ()].  The table has
    the primary key [id] and [UNIQUE (user_id, word)]; a row that breaks
    either is refused with SQLSTATE 23505.  The rows are the signed-in
    user's, so the second constraint is on [word] alone. *)
Definition insertWord (db : Store) (newId : string) (createdAt : Timestamp)
  (w : NewWord) : result VocabWord * Store :=
  match fault db with
  | Some e => (Throw e, db)
  | None =>
      if existsb (fun r => String.eqb (id r) newId
                           || String.eqb (word r) (new_word w)) (rows db)
      then (Throw (PostgrestError "23505"), db)
      else (Ok (newRow newId createdAt w),
            {| rows := rows db ++ [newRow newId createdAt w]; fault := None |})
  end.

(** [createWord (word)]; [user] is the answer of [supabase.auth.getUser ()]. *)
Definition createWord (user : option string) (db : Store) (newId : string)
  (createdAt : Timestamp) (w : NewWord) : attempt VocabWord * Store :=
  match user with
  | None => (Rejected (NewError "Not authenticated"), db)
  | Some _ =>
      match insertWord db newId createdAt w with
      | (Throw e, db') =>
          if hasCode e "23505"
          then (Rejected (NewError "Word already exists in your vocabulary"), db')
          else (Rejected (Response e), db')
      | (Ok r, db') => (Fulfilled r, db')
      end
  end.

(** [deleteWord (id)]: [.delete ().eq ("id", id)].  Without [.single ()]
    a request that matches no row is no error. *)
Definition deleteWord (db : Store) (i : string) : result unit * Store :=
  match fault db with
  | Some e => (Throw e, db)
  | None =>
      (Ok tt,
       {| rows := filter (fun w => negb (String.eqb (id w) i)) (rows db);
          fault := None |})
  end.

End WordsCrud.

(** ** [src/components/pdf/WordPopup.tsx]: saving a word *)

Module Popup.
Import JS WordsCrud.

Record WordData : Type := {
  word : string;
  translation : string;
  definition : string;
  example : string;
  audioUrl : option string
}.

(** The component state of [WordPopup]. *)
Record WordPopup : Type := {
  data : option WordData;
  loading : bool;
  saved : bool;
  saving : bool
}.

(** [s.includes (sub)]. *)
Fixpoint includes (s sub : string) : bool :=
  String.prefix sub s
  || match s with
     | EmptyString => false
     | String _ s' => includes s' sub
     end.

(** Lines 84-95: the word as [saveWord] hands it to [createWord]; [now] is
    the browser's clock reading [new Date ()]. *)
Definition wordToSave (d : WordData) (now : Timestamp) : NewWord :=
  {| new_word := word d;
     new_translation := translation d;
     new_definition := definition d;
     new_example := example d;
     new_audio_url := audioUrl d;
     new_category := "learning";
     new_repetitions := 0%float;
     new_ease_factor := 2.5%float;
     new_interval_days := 0%float;
     new_next_review_at := now |}.

(** [error instanceof Error ? error.message] or else the empty string;
    [describe] gives that string for the error of a response. *)
Definition messageOf (describe : error -> string) (x : thrown) : string :=
  match x with
  | NewError m => m
  | Response e => describe e
  end.

(** [saveWord ()], from the state [p]: the new state, the store, and the
    lines written to the console. *)
Definition saveWord (describe : error -> string) (user : option string)
  (db : Words.Store) (newId : string) (createdAt now : Timestamp)
  (p : WordPopup) : WordPopup * Words.Store * list (string * thrown) :=
  match data p with
  | None => (p, db, [])
  | Some d =>
      if saving p then (p, db, [])
      else
        let '(answer, db') := createWord user db newId createdAt (wordToSave d now) in
        let done (s : bool) :=
          {| data := data p; loading := loading p; saved := s; saving := false |} in
        match answer with
        | Fulfilled _ => (done true, db', [])
        | Rejected x =>
            if includes (messageOf describe x) "already exists"
            then (done true, db', [])
            else (done (saved p), db', [("Failed to save word:"%string, x)])
        end
  end.

End Popup.

(** ** [src/app/review/page.tsx]: what the page shows, and its buttons *)

Module ReviewView.
Import JS Words Review.

(** What [ReviewPage] renders (lines 83-182). *)
Inductive View : Type :=
| Spinner
| Complete (headline detail : string)
| Nothing
| Card (w : VocabWord) (position total : nat) (answerShown : bool).

Definition decimal (n : nat) : string := NilZero.string_of_uint (Nat.to_uint n).

Definition render (p : ReviewPage) : View :=
  if loading p then Spinner
  else if sessionComplete p then
    if 0 <? reviewed p then
      Complete "Session complete!"
        ("You reviewed " ++ decimal (reviewed p) ++ " word"
         ++ (if (reviewed p =? 1)%nat then EmptyString else "s"))%string
    else
      Complete "No words to review"
        "Save some words while reading to start reviewing"
  else
    match currentWord p with
    | None => Nothing
    | Some w => Card w (currentIndex p + 1) (List.length (dueWords p)) (revealed p)
    end.

(** The three rating buttons, and what they pass to [handleReview]. *)
Inductive Rating : Type := Hard | Neutral | Easy.

Definition qualityOf (r : Rating) : number :=
  match r with
  | Hard => 1%float
  | Neutral => 3%float
  | Easy => 5%float
  end.

(** What the user can do on the page: tap the card, or press a rating
    button at the clock reading [now]. *)
Inductive Event : Type :=
| TapCard
| Press (r : Rating) (now : Timestamp).

(** One event on the rendered page.  The card and the buttons exist only
    in the [Card] view, the buttons only once the answer is shown.  An
    exception that escapes [handleReview] leaves the state as it was. *)
Definition dispatch (p : ReviewPage) (db : Store) (ev : Event)
  : ReviewPage * Store :=
  match render p with
  | Card _ _ _ shown =>
      match ev with
      | TapCard =>
          (if revealed p then p
           else {| dueWords := dueWords p;
                   currentIndex := currentIndex p;
                   revealed := true;
                   sessionComplete := sessionComplete p;
                   reviewed := reviewed p;
                   loading := loading p |},
           db)
      | Press r now =>
          if shown then
            let '(o, db', _, _) := run (handleReview now p (qualityOf r)) db in
            match o with
            | Returned p' => (p', db')
            | Raised _ => (p, db')
            end
          else (p, db)
      end
  | _ => (p, db)
  end.

(** A sequence of events. *)
Fixpoint session (p : ReviewPage) (db : Store) (evs : list Event)
  : ReviewPage * Store :=
  match evs with
  | [] => (p, db)
  | ev :: evs' => let '(p', db') := dispatch p db ev in session p' db' evs'
  end.

End ReviewView.

(** ** [src/app/vocab/page.tsx]: the list of saved words *)

Module Vocab.
Import JS Words WordsCrud.

(** The component state of [VocabPage]. *)
Record VocabPage : Type := {
  words : list VocabWord;
  search : string;
  filter : string;
  loading : bool
}.

(** [handleDelete (id)]. *)
Definition handleDelete (db : Store) (p : VocabPage) (i : string)
  : VocabPage * Store * list (string * error) :=
  match deleteWord db i with
  | (Ok _, db') =>
      ({| words := List.filter (fun w => negb (String.eqb (id w) i)) (words p);
          search := search p; filter := filter p; loading := loading p |},
       db', [])
  | (Throw e, db') => (p, db', [("Failed to delete word:"%string, e)])
  end.



End Vocab.

(** ** More of the scenario: a word looked up, signed in and signed out *)

Module Lookup.
Import JS Words WordsCrud Popup.

(** What the popup has found for a word. *)
Definition entry (w : string) : WordData :=
  {| word := w; translation := EmptyString; definition := EmptyString;
     example := EmptyString; audioUrl := None |}.

Definition signedIn : option string := Some "user"%string.

(** The popup once the look-up has finished. *)
Definition popup (w : string) : WordPopup :=
  {| data := Some (entry w); loading := false; saved := false; saving := false |}.

End Lookup.


(** ** [src/lib/services/books.ts] *)

Module Books.
Import JS WordsCrud.

(** An [id] is the text of a UUID; the database refuses any other text
    before it looks for a row, and the model has no such texts. *)
Record Book : Type := {
  id : string;
  title : string;
  current_page : number;
  total_pages : number;
  last_read_at : option Timestamp;
  pdf_storage_path : string;
  created_at : Timestamp
}.

(** The [books] table as the signed-in user sees it, and a fault the
    service may answer every request with. *)
Record Table : Type := {
  books : list Book;
  fault : option error
}.

(** [.order ("last_read_at", { ascending: false, nullsFirst: false })]:
    the latest date first, the books without a date last.  [readBefore a b]
    says that [a] may stand before [b]. *)
Definition readBefore (a b : Book) : bool :=
  match last_read_at a, last_read_at b with
  | Some x, Some y => (y <=? x)%Z
  | Some _, None => true
  | None, Some _ => false
  | None, None => true
  end.

(** [a] has been read at least as recently as [b], or [b] never. *)
Definition notAfter (a b : Book) : Prop :=
  match last_read_at a, last_read_at b with
  | Some x, Some y => (y <= x)%Z
  | Some _, None => True
  | None, Some _ => False
  | None, None => True
  end.

Fixpoint insertBook (b : Book) (l : list Book) : list Book :=
  match l with
  | [] => [b]
  | v :: l' => if readBefore b v then b :: l else v :: insertBook b l'
  end.

Fixpoint orderBooks (l : list Book) : list Book :=
  match l with
  | [] => []
  | b :: l' => insertBook b (orderBooks l')
  end.

(** [getAllBooks ()]. *)
Definition getAllBooks (db : Table) : result (list Book) :=
  match fault db with
  | Some e => Throw e
  | None => Ok (orderBooks (books db))
  end.

(** [getBook (id)]: [.select ("*").eq ("id", id).single ()].  [single]
    answers with the error PGRST116 unless exactly one row matches, and
    [getBook] turns that error into [null]. *)
Definition getBook (db : Table) (i : string) : result (option Book) :=
  match fault db with
  | Some e => if hasCode e "PGRST116" then Ok None else Throw e
  | None =>
      match filter (fun b => String.eqb (id b) i) (books db) with
      | [b] => Ok (Some b)
      | _ => Ok None
      end
  end.

(** The row [createBook] inserts: page 1, no pages counted, never read. *)
Definition newBook (newId : string) (createdAt : Timestamp)
  (title path : string) : Book :=
  {| id := newId;
     title := title;
     current_page := 1%float;
     total_pages := 0%float;
     last_read_at := None;
     pdf_storage_path := path;
     created_at := createdAt |}.

(** [createBook ({ title, pdf_storage_path })]; [newId] and [createdAt]
    are the column defaults the database draws. *)
Definition createBook (user : option string) (db : Table) (newId : string)
  (createdAt : Timestamp) (title path : string) : attempt Book * Table :=
  match user with
  | None => (Rejected (NewError "Not authenticated"), db)
  | Some _ =>
      match fault db with
      | Some e => (Rejected (Response e), db)
      | None =>
          if existsb (fun b => String.eqb (id b) newId) (books db)
          then (Rejected (Response (PostgrestError "23505")), db)
          else (Fulfilled (newBook newId createdAt title path),
                {| books := books db ++ [newBook newId createdAt title path];
                   fault := None |})
      end
  end.

(** What an INTEGER NOT NULL column makes of a number sent as JSON.  NaN
    and the infinities travel as [null] (SQLSTATE 23502); a fraction, and
    a number of 10^21 or more, which JSON writes with an exponent, is no
    integer literal (22P02); and an integer must fit 32 bits (22003). *)
Definition integerColumn (x : number) : option error :=
  match truncate x with
  | None => Some (PostgrestError "23502")
  | Some n =>
      if negb (Number_isInteger x) || (10 ^ 21 <=? Z.abs n)%Z
      then Some (PostgrestError "22P02")
      else if ((- 2 ^ 31 <=? n) && (n <? 2 ^ 31))%Z then None
      else Some (PostgrestError "22003")
  end.

(** [updateReadingProgress (id, currentPage)]; [now] is the clock reading
    [new Date ()].  Without [.single ()], an id no row has is no error. *)
Definition updateReadingProgress (db : Table) (i : string)
  (currentPage : number) (now : Timestamp) : result unit * Table :=
  match fault db with
  | Some e => (Throw e, db)
  | None =>
      match integerColumn currentPage with
      | Some e => (Throw e, db)
      | None =>
          (Ok tt,
           {| books :=
                map (fun b =>
                       if String.eqb (id b) i
                       then {| id := id b;
                               title := title b;
                               current_page := currentPage;
                               total_pages := total_pages b;
                               last_read_at := Some now;
                               pdf_storage_path := pdf_storage_path b;
                               created_at := created_at b |}
                       else b)
                    (books db);
              fault := None |})
      end
  end.

(** [deleteBook (id)]. *)
Definition deleteBook (db : Table) (i : string) : result unit * Table :=
  match fault db with
  | Some e => (Throw e, db)
  | None =>
      (Ok tt,
       {| books := filter (fun b => negb (String.eqb (id b) i)) (books db);
          fault := None |})
  end.

End Books.

(** ** [src/components/pdf/PdfViewer.tsx]: turning pages *)

Module Viewer.
Import JS Books.
Local Open Scope float_scope.

Definition isNaN (x : number) : bool :=
  match Prim2SF x with
  | S754_nan => true
  | _ => false
  end.

Definition isZero (sign : bool) (x : number) : bool :=
  match Prim2SF x with
  | S754_zero s => Bool.eqb s sign
  | _ => false
  end.

(** [Math.max] and [Math.min] of two numbers (ECMA-262 21.3.2.24, 25):
    NaN if either is; otherwise the larger, the smaller, where +0 is
    larger than -0. *)
Definition Math_max (a b : number) : number :=
  if isNaN a || isNaN b then nan
  else if (a <? b) || (isZero true a && isZero false b) then b
  else a.

Definition Math_min (a b : number) : number :=
  if isNaN a || isNaN b then nan
  else if (b <? a) || (isZero false a && isZero true b) then b
  else a.

(** The state of [PdfViewer] that page turning touches. *)
Record PdfViewer : Type := {
  numPages : number;
  pageNumber : number
}.

(** [changePage (newPage)]: the page is clamped, shown, and sent to
    [updateReadingProgress]; a failure of that call is only written to the
    console. *)
Definition changePage (v : PdfViewer) (db : Table) (bookId : string)
  (now : Timestamp) (newPage : number)
  : PdfViewer * Table * list (string * error) :=
  let clamped := Math_max 1 (Math_min (numPages v) newPage) in
  let v' := {| numPages := numPages v; pageNumber := clamped |} in
  match updateReadingProgress db bookId clamped now with
  | (Ok _, db') => (v', db', [])
  | (Throw e, db') => (v', db', [("Failed to save progress:"%string, e)])
  end.

End Viewer.

(** ** [src/lib/services/storage.ts] *)

Module Storage.
Import JS WordsCrud.

(** What the storage service answers a request with when it fails. *)
Inductive StorageError : Type :=
| AlreadyExists          (* upload without upsert, on a path in use *)
| ObjectNotFound         (* a signed URL for a path not in use *)
| Unavailable.           (* the service cannot be reached, or refuses *)

(** The bucket [pdfs] as the signed-in user sees it: the objects by path;
    [url] is the signed URL the service makes for a path. *)
Record Bucket : Type := {
  objects : list (string * string);
  url : string -> string;
  down : bool
}.

Definition stored (s : Bucket) (path : string) : bool :=
  existsb (fun o => String.eqb (fst o) path) (objects s).

(** [uploadPDF (file, userId, bookId)]: the path is
    [`${userId}/${bookId}.pdf`], and [upsert: false] refuses a path in use. *)
Definition uploadPDF (s : Bucket) (file userId bookId : string)
  : (StorageError + string) * Bucket :=
  let path := (userId ++ "/" ++ bookId ++ ".pdf")%string in
  if down s then (inl Unavailable, s)
  else if stored s path then (inl AlreadyExists, s)
  else (inr path,
        {| objects := objects s ++ [(path, file)]; url := url s; down := false |}).

(** [getPDFSignedUrl (path)]. *)
Definition getPDFSignedUrl (s : Bucket) (path : string) : StorageError + string :=
  if down s then inl Unavailable
  else if stored s path then inr (url s path)
  else inl ObjectNotFound.

(** [deletePDF (path)]: [.remove ([path])]; a path not in use is no error. *)
Definition deletePDF (s : Bucket) (path : string) : (StorageError + unit) * Bucket :=
  if down s then (inl Unavailable, s)
  else (inr tt,
        {| objects := filter (fun o => negb (String.eqb (fst o) path)) (objects s);
           url := url s; down := false |}).

(** What a page that uses the table and the bucket can catch. *)
Inductive Caught : Type :=
| FromTable (x : thrown)
| FromStorage (e : StorageError).

End Storage.

(** ** [src/app/read/[bookId]/page.tsx]: opening a book *)

Module Reading.
Import JS WordsCrud Books Storage Viewer.
Local Open Scope float_scope.

(** The component state of [ReadBookPage]. *)
Record ReadBookPage : Type := {
  fileUrl : option string;
  initialPage : number;
  title : string
}.

(** [book.current_page || 1]: 0 and NaN count as no page. *)
Definition orOne (x : number) : number :=
  if (x =? 0) || isNaN x then 1 else x.

(** [loadBook ()], from the state [p]: the new state, where the router is
    sent if anywhere, and the lines written to the console. *)
Definition loadBook (db : Table) (s : Bucket) (bookId : string) (p : ReadBookPage)
  : ReadBookPage * option string * list (string * Caught) :=
  match getBook db bookId with
  | Ok None => (p, Some "/bookshelf"%string, [])
  | Ok (Some book) =>
      match getPDFSignedUrl s (pdf_storage_path book) with
      | inr u =>
          ({| fileUrl := Some u;
              initialPage := orOne (current_page book);
              title := Books.title book |},
           None, [])
      | inl e =>
          (p, Some "/bookshelf"%string,
           [("Failed to load book:"%string, FromStorage e)])
      end
  | Throw e =>
      (p, Some "/bookshelf"%string, [("Failed to load book:"%string, FromTable (Response e))])
  end.

(** The state the page starts from (the [useState] defaults). *)
Definition emptyPage : ReadBookPage :=
  {| fileUrl := None; initialPage := 1; title := EmptyString |}.

End Reading.

(** ** [src/app/bookshelf/page.tsx] *)

Module Bookshelf.
Import JS WordsCrud Books Storage.

(** The component state of [BookshelfPage]. *)
Record BookshelfPage : Type := {
  shelf : list Book;
  loading : bool;
  uploading : bool
}.

(** The file picked in the file input. *)
Record File : Type := {
  name : string;
  type : string;
  content : string
}.

(** [name.replace] as [handleFileUpload] uses it: the first occurrence of
    [sub] in [s] is removed. *)
Fixpoint dropChars (n : nat) (s : string) : string :=
  match n, s with
  | S k, String _ s' => dropChars k s'
  | _, _ => s
  end.

Fixpoint removeFirst (sub s : string) : string :=
  if String.prefix sub s then dropChars (String.length sub) s
  else match s with
       | EmptyString => EmptyString
       | String c s' => String c (removeFirst sub s')
       end.

(** [handleFileUpload (e)]; [bookId] is the [crypto.randomUUID ()] drawn in
    the browser, [newId] and [createdAt] the column defaults drawn by the
    database.  The result: the page, the table, the bucket, and what was
    written to the console (and answered with an alert). *)
Definition handleFileUpload (user : option (string)) (db : Table) (s : Bucket)
  (bookId newId : string) (createdAt : Timestamp) (file : option File)
  (p : BookshelfPage)
  : BookshelfPage * Table * Bucket * list (string * Caught) :=
  let done (l : list Book) :=
    {| shelf := l; loading := loading p; uploading := false |} in
  match file with
  | None => (p, db, s, [])
  | Some f =>
      if negb (String.eqb (type f) "application/pdf") then (p, db, s, [])
      else
        match user with
        | None =>
            (done (shelf p), db, s,
             [("Failed to upload PDF:"%string,
               FromTable (NewError "Not authenticated"))])
        | Some uid =>
            match uploadPDF s (content f) uid bookId with
            | (inl e, s') =>
                (done (shelf p), db, s',
                 [("Failed to upload PDF:"%string, FromStorage e)])
            | (inr storagePath, s') =>
                match createBook user db newId createdAt
                        (removeFirst ".pdf" (name f)) storagePath with
                | (Fulfilled newBook, db') =>
                    (done (newBook :: shelf p), db', s', [])
                | (Rejected x, db') =>
                    (done (shelf p), db', s',
                     [("Failed to upload PDF:"%string, FromTable x)])
                end
            end
        end
  end.

(** [handleDelete (book)]: the file first, then the row. *)
Definition handleDelete (db : Table) (s : Bucket) (book : Book) (p : BookshelfPage)
  : BookshelfPage * Table * Bucket * list (string * Caught) :=
  match deletePDF s (pdf_storage_path book) with
  | (inl e, s') => (p, db, s', [("Failed to delete book:"%string, FromStorage e)])
  | (inr _, s') =>
      match deleteBook db (id book) with
      | (Throw e, db') =>
          (p, db', s', [("Failed to delete book:"%string, FromTable (Response e))])
      | (Ok _, db') =>
          ({| shelf := filter (fun b => negb (String.eqb (id b) (id book))) (shelf p);
              loading := loading p; uploading := uploading p |},
           db', s', [])
      end
  end.

End Bookshelf.

(** ** A shelf with three books *)

Module Library.
Import JS Books Storage Viewer.
Local Open Scope float_scope.

Definition book (i : string) (page : number) (read : option Timestamp) : Book :=
  {| id := i; title := i; current_page := page; total_pages := 0;
     last_read_at := read; pdf_storage_path := ("user/" ++ i ++ ".pdf")%string;
     created_at := 0%Z |}.

Definition novel : Book := book "novel" 12 (Some 500%Z).
Definition essay : Book := book "essay" 3 (Some 900%Z).
Definition atlas : Book := book "atlas" 1 None.

Definition shelved : Table := {| books := [novel; atlas; essay]; fault := None |}.

Definition bucket : Bucket :=
  {| objects := [("user/novel.pdf", "novel"); ("user/atlas.pdf", "atlas");
                 ("user/essay.pdf", "essay")]%string;
     url := fun path => ("https://storage/" ++ path)%string;
     down := false |}.

(** The novel, open at page 12 of 20. *)
Definition reader : PdfViewer := {| numPages := 20; pageNumber := 12 |}.

End Library.


(** * Properties *)

(** ** Rounding to binary64

    [SpecFloat] defines the operations; nothing is proved about them in the
    standard library.  The facts needed here are bounds: the result of an
    operation lies on the same side of every number of the format as the
    exact result does. *)

Module Binary64Facts.
Import Binary64.
Local Open Scope Z_scope.

(** *** iter_pos *)

Lemma iter_pos_nat {A} (f : A -> A) p x :
  SpecFloat.iter_pos f p x = Nat.iter (Pos.to_nat p) f x.
Proof.
  revert x; induction p as [p IH|p IH|]; intros x.
  - change (SpecFloat.iter_pos f p~1 x) with
      (SpecFloat.iter_pos f p (SpecFloat.iter_pos f p (f x))).
    rewrite !IH, Pos2Nat.inj_xI.
    replace (S (2 * Pos.to_nat p))%nat with (Pos.to_nat p + (Pos.to_nat p + 1))%nat by lia.
    rewrite !Nat.iter_add. reflexivity.
  - change (SpecFloat.iter_pos f p~0 x) with
      (SpecFloat.iter_pos f p (SpecFloat.iter_pos f p x)).
    rewrite !IH, Pos2Nat.inj_xO.
    replace (2 * Pos.to_nat p)%nat with (Pos.to_nat p + Pos.to_nat p)%nat by lia.
    rewrite Nat.iter_add. reflexivity.
  - reflexivity.
Qed.

(** *** digits *)

Lemma digits2_size p : digits2_pos p = Pos.size p.
Proof. induction p; simpl; congruence. Qed.

Lemma digits2_bounds p :
  2 ^ (Zpos (digits2_pos p) - 1) <= Zpos p < 2 ^ Zpos (digits2_pos p).
Proof.
  rewrite digits2_size. split.
  - pose proof (Pos.size_le p) as H.
    assert (Hz : 2 ^ Zpos (Pos.size p) <= 2 * Zpos p).
    { change (2 * Zpos p) with (Zpos p~0). rewrite <- Pos2Z.inj_pow. apply Pos2Z.pos_le_pos, H. }
    replace (Zpos (Pos.size p)) with (Zpos (Pos.size p) - 1 + 1) in Hz by lia.
    rewrite Z.pow_add_r in Hz by lia. lia.
  - pose proof (Pos.size_gt p) as H.
    rewrite <- Pos2Z.inj_pow. apply Pos2Z.pos_lt_pos, H.
Qed.

Lemma digits2_unique p d :
  2 ^ (d - 1) <= Zpos p < 2 ^ d -> Zpos (digits2_pos p) = d.
Proof.
  intros [H1 H2]. pose proof (digits2_bounds p) as [H3 H4].
  assert (0 < d).
  { destruct (Z.lt_trichotomy d 0) as [L|[L|L]]; auto.
    - rewrite (Z.pow_neg_r 2 d) in H2 by lia. lia.
    - subst d. change (2 ^ 0) with 1 in H2. lia. }
  destruct (Z.lt_trichotomy (Zpos (digits2_pos p)) d) as [L|[L|L]]; auto.
  - assert (2 ^ Zpos (digits2_pos p) <= 2 ^ (d - 1)) by (apply Z.pow_le_mono_r; lia). lia.
  - assert (2 ^ d <= 2 ^ (Zpos (digits2_pos p) - 1)) by (apply Z.pow_le_mono_r; lia). lia.
Qed.

(** *** shifting right *)

Lemma shr_1_spec mrs :
  0 <= shr_m mrs ->
  shr_m (shr_1 mrs) = shr_m mrs / 2 /\
  inex (shr_1 mrs) = inex mrs || negb (shr_m mrs mod 2 =? 0).
Proof.
  destruct mrs as [m r s]; unfold inex; simpl; intros Hm.
  destruct m as [|[p|p|]|p]; simpl; try lia.
  - split; [reflexivity|]. destruct r, s; reflexivity.
  - split.
    + rewrite Pos2Z.inj_xI. apply Z.div_unique with 1; lia.
    + rewrite Pos2Z.inj_xI.
      replace ((2 * Z.pos p + 1) mod 2) with 1
        by (apply Z.mod_unique with (Z.pos p); lia).
      destruct r, s; reflexivity.
  - split.
    + rewrite Pos2Z.inj_xO. apply Z.div_unique with 0; lia.
    + rewrite Pos2Z.inj_xO.
      replace ((2 * Z.pos p) mod 2) with 0
        by (apply Z.mod_unique with (Z.pos p); lia).
      destruct r, s; reflexivity.
  - split; [reflexivity|]. destruct r, s; reflexivity.
Qed.

Lemma mod_pow2_succ m n :
  0 <= n ->
  (m mod 2 ^ (n + 1) =? 0) = (m mod 2 ^ n =? 0) && ((m / 2 ^ n) mod 2 =? 0).
Proof.
  intros Hn.
  assert (H2 : 0 < 2 ^ n) by (apply Z.pow_pos_nonneg; lia).
  rewrite Z.pow_add_r, Z.pow_1_r by lia.
  rewrite Z.rem_mul_r by lia.
  pose proof (Z.mod_pos_bound m (2 ^ n) H2).
  pose proof (Z.mod_pos_bound (m / 2 ^ n) 2 ltac:(lia)).
  destruct (Z.eqb_spec (m mod 2 ^ n) 0), (Z.eqb_spec ((m / 2 ^ n) mod 2) 0);
    simpl; apply Z.eqb_neq || apply Z.eqb_eq; nia.
Qed.

Lemma shr_iter_spec n mrs :
  0 <= shr_m mrs ->
  shr_m (Nat.iter n shr_1 mrs) = shr_m mrs / 2 ^ Z.of_nat n /\
  inex (Nat.iter n shr_1 mrs)
  = inex mrs || negb (shr_m mrs mod 2 ^ Z.of_nat n =? 0).
Proof.
  intros Hm. induction n as [|n [IHm IHi]].
  - simpl. rewrite Z.div_1_r, Z.mod_1_r. simpl. rewrite orb_false_r. auto.
  - cbn [Nat.iter nat_rect].
    assert (H0 : 0 <= shr_m (Nat.iter n shr_1 mrs)).
    { rewrite IHm. apply Z.div_pos; [lia|]. apply Z.pow_pos_nonneg; lia. }
    destruct (shr_1_spec _ H0) as [Em Ei].
    unfold Nat.iter in *. rewrite Em, Ei, IHm, IHi.
    rewrite Nat2Z.inj_succ, <- Z.add_1_r.
    split.
    + assert (0 < 2 ^ Z.of_nat n) by (apply Z.pow_pos_nonneg; lia).
      rewrite Z.div_div, Z.pow_add_r, Z.pow_1_r; lia.
    + rewrite mod_pow2_succ by lia. rewrite negb_andb, orb_assoc. reflexivity.
Qed.

Lemma shr_spec mrs e n :
  0 <= shr_m mrs -> 0 <= n ->
  snd (shr mrs e n) = e + n /\
  shr_m (fst (shr mrs e n)) = shr_m mrs / 2 ^ n /\
  inex (fst (shr mrs e n)) = inex mrs || negb (shr_m mrs mod 2 ^ n =? 0).
Proof.
  intros Hm Hn. destruct n as [|q|q]; try lia; simpl.
  - rewrite Z.div_1_r, Z.mod_1_r, Z.add_0_r. simpl. rewrite orb_false_r. auto.
  - rewrite iter_pos_nat.
    destruct (shr_iter_spec (Pos.to_nat q) mrs Hm) as [A B].
    rewrite positive_nat_Z in A, B. auto.
Qed.

Lemma shr_nop mrs e n : n <= 0 -> shr mrs e n = (mrs, e).
Proof. destruct n; simpl; auto; lia. Qed.

Lemma inex_of_loc m l :
  inex (shr_record_of_loc m l) = match l with loc_Exact => false | _ => true end.
Proof. destruct l as [|[]]; reflexivity. Qed.

Lemma shr_m_of_loc m l : shr_m (shr_record_of_loc m l) = m.
Proof. destruct l as [|[]]; reflexivity. Qed.

Lemma round_nearest_even_spec mrs :
  let m' := round_nearest_even (shr_m mrs) (loc_of_shr_record mrs) in
  shr_m mrs <= m' <= shr_m mrs + 1 /\ (inex mrs = false -> m' = shr_m mrs).
Proof.
  destruct mrs as [m [|] [|]]; unfold inex; simpl; try (split; [lia|congruence]).
  destruct (Z.even m); split; try lia; congruence.
Qed.

(** *** real values *)

Lemma bpow_pos e : (0 < bpow e)%R.
Proof. apply powerRZ_lt; lra. Qed.

Lemma bpow_add a b : bpow (a + b) = (bpow a * bpow b)%R.
Proof. apply powerRZ_add; lra. Qed.

Lemma bpow_Z k : 0 <= k -> IZR (2 ^ k) = bpow k.
Proof.
  intros Hk. unfold bpow.
  rewrite <- (Z2Nat.id k Hk) at 1 2.
  rewrite <- pow_IZR, pow_powerRZ. reflexivity.
Qed.

Lemma bpow_le a b : a <= b -> (bpow a <= bpow b)%R.
Proof.
  intros H. replace b with (a + (b - a)) by lia.
  rewrite bpow_add, <- (bpow_Z (b - a)) by lia.
  assert (1 <= 2 ^ (b - a)) by (apply Z.lt_succ_r, Z.lt_pred_lt_succ; simpl;
    apply Z.pow_pos_nonneg; lia).
  apply IZR_le in H0. pose proof (bpow_pos a). nra.
Qed.

Lemma bpow_lt a b : a < b -> (bpow a < bpow b)%R.
Proof.
  intros H. replace b with (a + (b - a)) by lia.
  rewrite bpow_add, <- (bpow_Z (b - a)) by lia.
  assert (2 <= 2 ^ (b - a)).
  { change 2 with (2 ^ 1) at 1. apply Z.pow_le_mono_r; lia. }
  apply IZR_le in H0. pose proof (bpow_pos a). nra.
Qed.

Lemma bpow_lt_inv a b : (bpow a < bpow b)%R -> a < b.
Proof.
  intros H. destruct (Z.lt_ge_cases a b) as [L|L]; auto.
  apply bpow_le in L. lra.
Qed.

Lemma F2R_shift m e k : 0 <= k -> F2R (m * 2 ^ k) e = F2R m (e + k).
Proof.
  intros Hk. unfold F2R. rewrite mult_IZR, bpow_Z, bpow_add by lia. ring.
Qed.

Lemma F2R_le m1 m2 e : (F2R m1 e <= F2R m2 e)%R <-> m1 <= m2.
Proof.
  unfold F2R. pose proof (bpow_pos e). split; intros L.
  - apply le_IZR. nra.
  - apply IZR_le in L. nra.
Qed.

Lemma F2R_lt m1 m2 e : (F2R m1 e < F2R m2 e)%R <-> m1 < m2.
Proof.
  unfold F2R. pose proof (bpow_pos e). split; intros L.
  - apply lt_IZR. nra.
  - apply IZR_lt in L. nra.
Qed.

Lemma F2R_pow d m e :
  2 ^ (d - 1) <= m < 2 ^ d -> 0 < d ->
  (bpow (d - 1 + e) <= F2R m e < bpow (d + e))%R.
Proof.
  intros [L U] Hd. unfold F2R.
  rewrite !bpow_add, <- (bpow_Z (d - 1)), <- (bpow_Z d) by lia.
  apply IZR_le in L. apply IZR_lt in U. pose proof (bpow_pos e). nra.
Qed.

Lemma F2R_digits p e :
  (bpow (Zpos (digits2_pos p) - 1 + e) <= F2R (Zpos p) e
   < bpow (Zpos (digits2_pos p) + e))%R.
Proof. apply F2R_pow; [apply digits2_bounds|lia]. Qed.

Lemma F2R_pos p e : (0 < F2R (Zpos p) e)%R.
Proof.
  unfold F2R. pose proof (bpow_pos e).
  assert (0 < IZR (Zpos p))%R by (apply IZR_lt; lia). nra.
Qed.

(** *** the exponent function of binary64 *)

Lemma fexp64 x : fexp prec emax x = Z.max (x - 53) (-1074).
Proof. reflexivity. Qed.

Lemma div_pow2_bounds m d k :
  0 <= k -> k < d -> 2 ^ (d - 1) <= m < 2 ^ d ->
  2 ^ (d - k - 1) <= m / 2 ^ k < 2 ^ (d - k).
Proof.
  intros Hk Hd [L U].
  assert (P : 0 < 2 ^ k) by (apply Z.pow_pos_nonneg; lia).
  split.
  - apply Z.div_le_lower_bound; [lia|].
    rewrite <- Z.pow_add_r by lia. replace (k + (d - k - 1)) with (d - 1) by lia. lia.
  - apply Z.div_lt_upper_bound; [lia|].
    rewrite <- Z.pow_add_r by lia. replace (k + (d - k)) with d by lia. lia.
Qed.

Lemma first_shift p e l v :
  let m := Zpos p in
  let d := Zpos (digits2_pos p) in
  let e1 := fexp prec emax (d + e) in
  inbetween m e l v -> e <= e1 ->
  let mrs := fst (shr_fexp prec emax m e l) in
  let m1 := shr_m mrs in
  snd (shr_fexp prec emax m e l) = e1 /\
  (F2R m1 e1 <= v < F2R (m1 + 1) e1)%R /\
  (inex mrs = false -> v = F2R m1 e1) /\
  (inex mrs = true -> (F2R m1 e1 < v)%R) /\
  (exists D, 0 <= D /\ 2 ^ (D - 1) <= m1 < 2 ^ D /\ fexp prec emax (D + e1) = e1
             /\ (-1074 < e1 -> D = 53)).
Proof.
  intros m d e1 Hv He mrs m1.
  set (k := e1 - e).
  assert (Hk : 0 <= k) by (unfold k; lia).
  assert (Hsh : shr_fexp prec emax m e l = shr (shr_record_of_loc m l) e k)
    by reflexivity.
  destruct (shr_spec (shr_record_of_loc m l) e k) as (Ee & Em & Ei).
  { rewrite shr_m_of_loc. unfold m; lia. }
  { exact Hk. }
  rewrite shr_m_of_loc in Em, Ei. rewrite inex_of_loc in Ei.
  rewrite <- Hsh in Ee, Em, Ei. fold mrs in Em, Ei. fold m1 in Em.
  replace (e + k) with e1 in Ee by (unfold k; lia).
  assert (P : 0 < 2 ^ k) by (apply Z.pow_pos_nonneg; lia).
  assert (Hdiv : m1 * 2 ^ k <= m < (m1 + 1) * 2 ^ k).
  { rewrite Em. pose proof (Z.mul_div_le m (2 ^ k) P).
    pose proof (Z.mul_succ_div_gt m (2 ^ k) P). lia. }
  assert (Hmod : (m mod 2 ^ k =? 0) = (m =? m1 * 2 ^ k)).
  { rewrite Em. pose proof (Z.div_mod m (2 ^ k) ltac:(lia)).
    destruct (Z.eqb_spec (m mod 2 ^ k) 0), (Z.eqb_spec m (m / 2 ^ k * 2 ^ k)); lia. }
  assert (S1 : forall x, F2R (x * 2 ^ k) e = F2R x e1).
  { intros x. rewrite F2R_shift by lia. f_equal. unfold k; lia. }
  assert (Hlo : (F2R (m1 * 2 ^ k) e <= F2R m e)%R) by (apply F2R_le; lia).
  assert (Hhi : (F2R (m + 1) e <= F2R ((m1 + 1) * 2 ^ k) e)%R) by (apply F2R_le; lia).
  rewrite S1 in Hlo, Hhi.
  assert (Hmm : (F2R m e < F2R (m + 1) e)%R) by (apply F2R_lt; lia).
  split; [exact Ee|].
  split; [|split; [|split]].
  - destruct l; unfold inbetween in Hv; [subst v|]; lra.
  - intros Hi. rewrite Hi in Ei. symmetry in Ei. apply orb_false_elim in Ei.
    destruct Ei as [El Ez]. destruct l; [|discriminate].
    unfold inbetween in Hv. subst v. apply negb_false_iff in Ez. rewrite Hmod in Ez.
    apply Z.eqb_eq in Ez. rewrite Ez at 1. apply S1.
  - intros Hi. rewrite Hi in Ei. symmetry in Ei. apply orb_true_iff in Ei.
    destruct Ei as [El|Ez].
    + destruct l; [discriminate|]. unfold inbetween in Hv. lra.
    + apply negb_true_iff in Ez. rewrite Hmod in Ez. apply Z.eqb_neq in Ez.
      assert (Hs : (F2R (m1 * 2 ^ k) e < F2R m e)%R) by (apply F2R_lt; lia).
      rewrite S1 in Hs. destruct l; unfold inbetween in Hv; [subst v|]; lra.
  - pose proof (digits2_bounds p) as Hd. fold d m in Hd.
    assert (Hd0 : 0 < d) by (unfold d; lia).
    destruct (Z.lt_ge_cases k d) as [Lk|Lk].
    + exists (d - k). rewrite Em.
      pose proof (div_pow2_bounds m d k Hk Lk Hd).
      replace (d - k + e1) with (d + e) by (unfold k; lia).
      repeat split; try lia.
      intros Hn. unfold k, e1 in *. rewrite fexp64 in *. clear - Hn. lia.
    + exists 0. rewrite Em.
      assert (m / 2 ^ k = 0).
      { apply Z.div_small. split; [unfold m; lia|].
        assert (2 ^ d <= 2 ^ k) by (apply Z.pow_le_mono_r; lia). lia. }
      rewrite H. simpl.
      unfold k, e1 in *. rewrite !fexp64 in *.
      repeat split; try lia.
Qed.

Lemma second_shift q e1 D :
  0 <= D -> 2 ^ (D - 1) <= Zpos q <= 2 ^ D ->
  fexp prec emax (D + e1) = e1 -> (-1074 < e1 -> D = 53) ->
  let r := shr_fexp prec emax (Zpos q) e1 loc_Exact in
  exists m3, shr_m (fst r) = Zpos m3 /\
             F2R (Zpos m3) (snd r) = F2R (Zpos q) e1 /\
             (-1074 < snd r -> 2 ^ 52 <= Zpos m3).
Proof.
  intros HD [L U] He1 Hn. unfold shr_fexp.
  change (Zdigits2 (Zpos q)) with (Zpos (digits2_pos q)).
  set (d2 := Zpos (digits2_pos q)).
  pose proof (digits2_bounds q) as Hd2. fold d2 in Hd2.
  rewrite fexp64 in He1. rewrite fexp64.
  change (shr_record_of_loc (Zpos q) loc_Exact)
    with (Build_shr_record (Zpos q) false false).
  destruct (Z.eq_dec (Zpos q) (2 ^ D)) as [E|NE].
  - assert (Ed : d2 = D + 1).
    { apply digits2_unique. replace (D + 1 - 1) with D by lia.
      rewrite Z.pow_add_r, Z.pow_1_r by lia. lia. }
    rewrite Ed.
    destruct (Z.eq_dec (Z.max (D + 1 + e1 - 53) (-1074) - e1) 1) as [K|K].
    + rewrite K. assert (D = 53) by lia. subst D.
      assert (Eq : q = (2 ^ 53)%positive) by (apply Pos2Z.inj; exact E).
      subst q. simpl. exists (2 ^ 52)%positive. repeat split; try lia.
      unfold F2R. change (Z.pos (2 ^ 52)) with (2 ^ 52). change (Z.pos (2 ^ 53)) with (2 ^ 52 * 2).
      rewrite mult_IZR, bpow_add. unfold bpow at 2. simpl. ring.
    + rewrite shr_nop by lia. simpl. exists q. repeat split; auto.
      intros Hn'. specialize (Hn Hn'). subst D. exfalso. clear - K Hn'. lia.
  - assert (Hle : d2 <= D).
    { assert (Zpos q < 2 ^ D) by lia.
      destruct (Z.lt_ge_cases D d2) as [G|G]; auto.
      assert (2 ^ D <= 2 ^ (d2 - 1)) by (apply Z.pow_le_mono_r; lia). lia. }
    rewrite shr_nop by lia. simpl. exists q. repeat split; auto.
    intros Hn'. specialize (Hn Hn'). subst D. lia.
Qed.

(** *** the result of rounding, bracketed by representable numbers *)

Lemma repr_lt_bpow M E : repr M E -> (0 < F2R M E < bpow (53 + E))%R.
Proof.
  intros [[H0 H1] _]. unfold F2R. rewrite bpow_add, <- (bpow_Z 53) by lia.
  apply IZR_lt in H0, H1. pose proof (bpow_pos E). nra.
Qed.

Lemma normal_ge_bpow m e : 2 ^ 52 <= m -> (bpow (52 + e) <= F2R m e)%R.
Proof.
  intros H. unfold F2R. rewrite bpow_add, <- (bpow_Z 52) by lia.
  apply IZR_le in H. pose proof (bpow_pos e). nra.
Qed.

Lemma below_floor M E m1 e1 v :
  repr M E -> (F2R M E <= v)%R -> (v < F2R (m1 + 1) e1)%R ->
  (-1074 < e1 -> 2 ^ 52 <= m1) ->
  (F2R M E <= F2R m1 e1)%R.
Proof.
  intros HR Hv Hu Hn. destruct (Z.le_gt_cases e1 E) as [G|G].
  - replace E with (e1 + (E - e1)) in * by lia.
    rewrite <- F2R_shift in * by lia.
    apply F2R_le. assert (M * 2 ^ (E - e1) < m1 + 1); [|lia].
    apply (F2R_lt _ _ e1). lra.
  - destruct HR as [HM HE]. pose proof (repr_lt_bpow M E (conj HM HE)).
    pose proof (normal_ge_bpow m1 e1 ltac:(apply Hn; lia)).
    pose proof (bpow_le (53 + E) (52 + e1) ltac:(lia)). lra.
Qed.

Lemma above_rounded M E m1 m2 e1 v (strict : bool) :
  repr M E -> (v <= F2R M E)%R -> (F2R m1 e1 <= v)%R ->
  (strict = true -> (F2R m1 e1 < v)%R) ->
  (strict = false -> m2 = m1) -> m2 <= m1 + 1 ->
  (-1074 < e1 -> 2 ^ 52 <= m1) ->
  (F2R m2 e1 <= F2R M E)%R.
Proof.
  intros HR Hv Hl Hs He Hm Hn. destruct (Z.le_gt_cases e1 E) as [G|G].
  - replace E with (e1 + (E - e1)) in * by lia.
    rewrite <- F2R_shift in * by lia.
    apply F2R_le. destruct strict.
    + assert (m1 < M * 2 ^ (E - e1)); [|lia].
      apply (F2R_lt _ _ e1). specialize (Hs eq_refl). lra.
    + rewrite (He eq_refl). apply (F2R_le _ _ e1). lra.
  - exfalso. destruct HR as [HM HE]. pose proof (repr_lt_bpow M E (conj HM HE)).
    pose proof (normal_ge_bpow m1 e1 ltac:(apply Hn; lia)).
    pose proof (bpow_le (53 + E) (52 + e1) ltac:(lia)). lra.
Qed.

Theorem binary_round_aux_bounds s p e l v :
  inbetween (Zpos p) e l v ->
  e <= fexp prec emax (Zpos (digits2_pos p) + e) ->
  let r := binary_round_aux prec emax s (Zpos p) e l in
  sign_is s r /\
  (forall M E, repr M E -> (F2R M E <= v)%R -> mag_ge r (F2R M E)) /\
  (forall M E, repr M E -> E <= 971 -> (v <= F2R M E)%R -> mag_le r (F2R M E)).
Proof.
  intros Hv He.
  destruct (first_shift p e l v Hv He) as (Ee & Hb & Hex & Hin & D & HD & HmD & HfD & HnD).
  unfold binary_round_aux.
  destruct (shr_fexp prec emax (Zpos p) e l) as [mrs e1'] eqn:Esh.
  cbn [fst snd] in Ee, Hb, Hex, Hin, HmD. subst e1'.
  set (e1 := fexp prec emax (Zpos (digits2_pos p) + e)) in *.
  set (m1 := shr_m mrs) in *.
  destruct (round_nearest_even_spec mrs) as [Hr Hre].
  fold m1 in Hr, Hre.
  set (m2 := round_nearest_even m1 (loc_of_shr_record mrs)) in *.
  assert (Hn1 : -1074 < e1 -> 2 ^ 52 <= m1).
  { intros Hn. rewrite (HnD Hn) in HmD. lia. }
  assert (Hlow : forall M E, repr M E -> (F2R M E <= v)%R -> (F2R M E <= F2R m2 e1)%R).
  { intros M E HR HMv.
    pose proof (below_floor M E m1 e1 v HR HMv (proj2 Hb) Hn1).
    assert (F2R m1 e1 <= F2R m2 e1)%R by (apply F2R_le; lia). lra. }
  assert (Hupp : forall M E, repr M E -> (v <= F2R M E)%R -> (F2R m2 e1 <= F2R M E)%R).
  { intros M E HR HMv.
    apply (above_rounded M E m1 m2 e1 v (inex mrs)); auto; try lia.
    apply Hb. }
  destruct (Z.eq_dec m2 0) as [Z2|NZ2].
  - (* rounded to zero *)
    rewrite Z2. unfold shr_fexp. simpl Zdigits2.
    rewrite shr_nop by (rewrite fexp64; unfold e1; rewrite fexp64; lia).
    simpl. split; [reflexivity|]. split; [|auto].
    intros M E HR HMv. specialize (Hlow M E HR HMv). rewrite Z2 in Hlow.
    pose proof (repr_lt_bpow M E HR). unfold F2R in Hlow at 2. simpl in Hlow. lra.
  - assert (P2 : 0 < m2) by lia.
    destruct m2 as [|q|q] eqn:Em2; try lia.
    destruct (second_shift q e1 D HD ltac:(lia) HfD HnD) as (m3 & E3 & V3 & N3).
    destruct (shr_fexp prec emax (Zpos q) e1 loc_Exact) as [mrs3 e3].
    cbn [fst snd] in E3, V3, N3. rewrite E3.
    destruct (Z.leb_spec e3 (emax - prec)) as [Le|Gt].
    + simpl. split; [reflexivity|]. split.
      * intros M E HR HMv. rewrite V3. auto.
      * intros M E HR HE HMv. rewrite V3. auto.
    + simpl. split; [reflexivity|]. split; [auto|].
      intros M E HR HE HMv. specialize (Hupp M E HR HMv). rewrite <- V3 in Hupp.
      change (emax - prec) with 971 in Gt.
      pose proof (repr_lt_bpow M E HR).
      pose proof (normal_ge_bpow (Zpos m3) e3 ltac:(apply N3; lia)).
      pose proof (bpow_le (53 + E) (52 + e3) ltac:(lia)). lra.
Qed.

(** *** valid binary64 numbers *)

Lemma bounded_canonical m e :
  SpecFloat.bounded prec emax m e = true ->
  e = fexp prec emax (Zpos (digits2_pos m) + e) /\ e <= 971.
Proof.
  unfold SpecFloat.bounded, canonical_mantissa. intros H. apply andb_true_iff in H.
  destruct H as [H1 H2]. apply Z.eqb_eq in H1. apply Z.leb_le in H2.
  split; [symmetry; exact H1|exact H2].
Qed.

Lemma bounded_repr m e : SpecFloat.bounded prec emax m e = true -> repr (Zpos m) e.
Proof.
  intros H. destruct (bounded_canonical m e H) as [Hc _]. rewrite fexp64 in Hc.
  pose proof (digits2_bounds m) as [_ Hd].
  assert (2 ^ Zpos (digits2_pos m) <= 2 ^ 53) by (apply Z.pow_le_mono_r; lia).
  unfold repr. lia.
Qed.

Lemma digits_mul_ge p q :
  Zpos (digits2_pos p) + Zpos (digits2_pos q) - 1 <= Zpos (digits2_pos (p * q)).
Proof.
  pose proof (digits2_bounds p) as [Lp _]. pose proof (digits2_bounds q) as [Lq _].
  pose proof (digits2_bounds (p * q)) as [_ U]. rewrite Pos2Z.inj_mul in U.
  set (dp := Zpos (digits2_pos p)) in *. set (dq := Zpos (digits2_pos q)) in *.
  set (d := Zpos (digits2_pos (p * q))) in *.
  destruct (Z.lt_ge_cases d (dp + dq - 1)) as [L|L]; [|lia].
  assert (2 ^ d <= 2 ^ (dp - 1 + (dq - 1))) by (apply Z.pow_le_mono_r; lia).
  rewrite Z.pow_add_r in H by (unfold dp, dq; lia).
  assert (0 < 2 ^ (dp - 1)) by (apply Z.pow_pos_nonneg; unfold dp; lia).
  assert (0 < 2 ^ (dq - 1)) by (apply Z.pow_pos_nonneg; unfold dq; lia).
  nia.
Qed.

Lemma F2R_mul m1 e1 m2 e2 : (F2R m1 e1 * F2R m2 e2)%R = F2R (m1 * m2) (e1 + e2).
Proof. unfold F2R. rewrite mult_IZR, bpow_add. ring. Qed.

Theorem SFmul_bounds sx mx ex sy my ey :
  SpecFloat.bounded prec emax mx ex = true -> SpecFloat.bounded prec emax my ey = true ->
  let r := SFmul prec emax (S754_finite sx mx ex) (S754_finite sy my ey) in
  let v := (F2R (Zpos mx) ex * F2R (Zpos my) ey)%R in
  sign_is (xorb sx sy) r /\
  (forall M E, repr M E -> (F2R M E <= v)%R -> mag_ge r (F2R M E)) /\
  (forall M E, repr M E -> E <= 971 -> (v <= F2R M E)%R -> mag_le r (F2R M E)).
Proof.
  intros Hx Hy r v. unfold r, v, SFmul. rewrite F2R_mul.
  change (Zpos mx * Zpos my) with (Zpos (mx * my)).
  apply binary_round_aux_bounds; [reflexivity|].
  destruct (bounded_canonical _ _ Hx) as [Cx _].
  destruct (bounded_canonical _ _ Hy) as [Cy _].
  pose proof (digits_mul_ge mx my).
  rewrite fexp64 in *. lia.
Qed.

(** *** binary_round, binary_normalize *)

Lemma iter_xO_spec p d : Zpos (Pos.iter xO p d) = Zpos p * 2 ^ Zpos d.
Proof.
  change (Pos.iter xO p d) with (shift_pos d p).
  rewrite shift_pos_correct. rewrite Zpower_pos_is_exp_pos || idtac.
  change (Zpower_pos 2 d) with (2 ^ Zpos d). lia.
Qed.

Lemma digits_shift p k :
  0 <= k -> forall q, Zpos q = Zpos p * 2 ^ k ->
  Zpos (digits2_pos q) = Zpos (digits2_pos p) + k.
Proof.
  intros Hk q Hq. apply digits2_unique. rewrite Hq.
  pose proof (digits2_bounds p) as [L U].
  assert (0 < 2 ^ k) by (apply Z.pow_pos_nonneg; lia).
  replace (Zpos (digits2_pos p) + k - 1) with (Zpos (digits2_pos p) - 1 + k) by lia.
  rewrite !Z.pow_add_r by lia. nia.
Qed.

Lemma shl_align_spec mx ex ex' :
  let mz := fst (shl_align mx ex ex') in
  let ez := snd (shl_align mx ex ex') in
  ez = Z.min ex ex' /\ Zpos mz = Zpos mx * 2 ^ (ex - ez).
Proof.
  unfold shl_align. destruct (ex' - ex) as [|d|d] eqn:E; simpl.
  - rewrite Z.sub_diag. simpl. lia.
  - rewrite Z.sub_diag. simpl. lia.
  - rewrite iter_xO_spec. replace (ex - ex') with (Zpos d) by lia.
    split; [lia|reflexivity].
Qed.

Theorem binary_round_bounds s mx ex :
  let r := binary_round prec emax s mx ex in
  let v := F2R (Zpos mx) ex in
  sign_is s r /\
  (forall M E, repr M E -> (F2R M E <= v)%R -> mag_ge r (F2R M E)) /\
  (forall M E, repr M E -> E <= 971 -> (v <= F2R M E)%R -> mag_le r (F2R M E)).
Proof.
  intros r v. unfold r, binary_round.
  set (e' := fexp prec emax (Zpos (digits2_pos mx) + ex)).
  destruct (shl_align_spec mx ex e') as [Ez Mz].
  destruct (shl_align mx ex e') as [mz ez]. cbn [fst snd] in Ez, Mz.
  assert (Hk : 0 <= ex - ez) by lia.
  assert (Ev : F2R (Zpos mz) ez = v).
  { rewrite Mz, F2R_shift by lia. unfold v. f_equal. lia. }
  rewrite <- Ev.
  apply binary_round_aux_bounds; [reflexivity|].
  rewrite (digits_shift mx (ex - ez) Hk mz Mz).
  replace (Zpos (digits2_pos mx) + (ex - ez) + ez) with (Zpos (digits2_pos mx) + ex) by lia.
  fold e'. lia.
Qed.

Lemma F2R_opp m e : F2R (- m) e = (- F2R m e)%R.
Proof. unfold F2R. rewrite opp_IZR. ring. Qed.

Lemma F2R_add m1 m2 e : F2R (m1 + m2) e = (F2R m1 e + F2R m2 e)%R.
Proof. unfold F2R. rewrite plus_IZR. ring. Qed.

Lemma F2R_cond_Zopp s m e :
  F2R (SpecFloat.cond_Zopp s m) e = (if s then - F2R m e else F2R m e)%R.
Proof. destruct s; simpl; [apply F2R_opp|reflexivity]. Qed.

Lemma SFadd_finite sx mx ex sy my ey :
  exists z ez,
    SFadd prec emax (S754_finite sx mx ex) (S754_finite sy my ey)
    = binary_normalize prec emax z ez false /\
    F2R z ez = (SF2R (S754_finite sx mx ex) + SF2R (S754_finite sy my ey))%R.
Proof.
  unfold SFadd. set (ez := Z.min ex ey).
  destruct (shl_align_spec mx ex ez) as [Ex Mx].
  destruct (shl_align_spec my ey ez) as [Ey My].
  set (mx' := fst (shl_align mx ex ez)) in *.
  set (my' := fst (shl_align my ey ez)) in *.
  eexists _, ez. split; [reflexivity|].
  rewrite F2R_add, !F2R_cond_Zopp. unfold SF2R. rewrite !F2R_cond_Zopp.
  rewrite Mx, My, Ex, Ey.
  replace (Z.min ex ez) with ez by lia. replace (Z.min ey ez) with ez by lia.
  rewrite !F2R_shift by lia.
  replace (ez + (ex - ez)) with ex by lia. replace (ez + (ey - ez)) with ey by lia.
  reflexivity.
Qed.

Lemma binary_normalize_pos p e sz :
  binary_normalize prec emax (Zpos p) e sz = binary_round prec emax false p e.
Proof. reflexivity. Qed.

Lemma binary_normalize_neg p e sz :
  binary_normalize prec emax (Zneg p) e sz = binary_round prec emax true p e.
Proof. reflexivity. Qed.

(** *** bounds on a number, in the extended reals *)

Lemma SFlb_weaken v v' x : SFlb v x -> (v' <= v)%R -> SFlb v' x.
Proof. destruct x; simpl; auto; intros; lra. Qed.

Lemma SFub_weaken v v' x : SFub v x -> (v <= v')%R -> SFub v' x.
Proof. destruct x; simpl; auto; intros; lra. Qed.

Lemma SFlb_of_mag r x : sign_is false r -> mag_ge r x -> SFlb x r.
Proof. destruct r; simpl; auto; try tauto. intros ->. auto. Qed.

Lemma SFub_of_mag r x : sign_is false r -> mag_le r x -> (0 <= x)%R -> SFub x r.
Proof. destruct r; simpl; auto; try tauto. intros ->. auto. Qed.

Lemma SFub_of_neg r x : sign_is true r -> (0 <= x)%R -> SFub x r.
Proof.
  destruct r; simpl; auto. intros -> Hx. rewrite F2R_opp.
  pose proof (F2R_pos m e). lra.
Qed.

Lemma SFlb_pos v x :
  (0 < v)%R -> SFlb v x ->
  x = S754_infinity false \/
  exists m e, x = S754_finite false m e /\ (v <= F2R (Zpos m) e)%R.
Proof.
  intros Hv. destruct x as [s|s| |s m e]; simpl; intros H; try tauto; try lra.
  - left. congruence.
  - right. destruct s.
    + rewrite F2R_opp in H. pose proof (F2R_pos m e). lra.
    + eauto.
Qed.

Lemma repr_pos M E : repr M E -> (0 < F2R M E)%R.
Proof. intros H. apply repr_lt_bpow in H. lra. Qed.

Theorem SFmul_lb x y vx vy M E :
  valid_binary x = true -> valid_binary y = true ->
  (0 < vx)%R -> (0 < vy)%R -> SFlb vx x -> SFlb vy y ->
  repr M E -> (F2R M E <= vx * vy)%R ->
  SFlb (F2R M E) (SFmul prec emax x y).
Proof.
  intros Vx Vy Hvx Hvy Lx Ly HR Hv.
  destruct (SFlb_pos vx x Hvx Lx) as [->|(mx & ex & -> & Bx)];
    destruct (SFlb_pos vy y Hvy Ly) as [->|(my & ey & -> & By)];
    try reflexivity.
  destruct (SFmul_bounds false mx ex false my ey Vx Vy) as (S & L & _).
  apply SFlb_of_mag; [exact S|]. apply L; [exact HR|]. nra.
Qed.

Theorem SFmul_ub mx ex my ey vx vy M E :
  SpecFloat.bounded prec emax mx ex = true ->
  SpecFloat.bounded prec emax my ey = true ->
  (F2R (Zpos mx) ex <= vx)%R -> (F2R (Zpos my) ey <= vy)%R ->
  repr M E -> E <= 971 -> (vx * vy <= F2R M E)%R ->
  SFub (F2R M E)
    (SFmul prec emax (S754_finite false mx ex) (S754_finite false my ey)).
Proof.
  intros Vx Vy Bx By HR HE Hv.
  destruct (SFmul_bounds false mx ex false my ey Vx Vy) as (S & _ & U).
  pose proof (F2R_pos mx ex). pose proof (F2R_pos my ey). pose proof (repr_pos M E HR).
  apply SFub_of_mag; [exact S| |lra]. apply U; auto. nra.
Qed.

Lemma binary_normalize_bounds z e :
  let r := binary_normalize prec emax z e false in
  let v := F2R z e in
  r <> S754_nan /\
  (forall M E, repr M E -> (F2R M E <= v)%R -> SFlb (F2R M E) r) /\
  (forall M E, repr M E -> E <= 971 -> (v <= F2R M E)%R -> SFub (F2R M E) r) /\
  ((v <= 0)%R -> SFub 0 r).
Proof.
  intros r v. unfold r, v. destruct z as [|p|p].
  - simpl. unfold F2R. simpl. rewrite Rmult_0_l.
    split; [discriminate|].
    split; [|split]; intros; try (pose proof (repr_pos M E ltac:(assumption))); lra.
  - rewrite binary_normalize_pos.
    destruct (binary_round_bounds false p e) as (S & L & U).
    split; [intros E0; rewrite E0 in S; exact S|].
    split; [|split].
    + intros M E HR Hv. apply SFlb_of_mag; auto.
    + intros M E HR HE Hv. pose proof (repr_pos M E HR). apply SFub_of_mag; auto. lra.
    + intros Hv. pose proof (F2R_pos p e). lra.
  - rewrite binary_normalize_neg.
    destruct (binary_round_bounds true p e) as (S & L & U).
    change (Zneg p) with (- Zpos p). rewrite F2R_opp. pose proof (F2R_pos p e).
    split; [intros E0; rewrite E0 in S; exact S|].
    split; [|split].
    + intros M E HR Hv. pose proof (repr_pos M E HR). lra.
    + intros M E HR HE Hv. pose proof (repr_pos M E HR). apply SFub_of_neg; auto. lra.
    + intros Hv. apply SFub_of_neg; auto. lra.
Qed.

Theorem SFadd_not_nan x y :
  x <> S754_nan -> finite_or_zero y -> SFadd prec emax x y <> S754_nan.
Proof.
  intros Hx Hy. destruct x as [sx|sx| |sx mx ex]; try congruence;
    destruct y as [sy|sy| |sy my ey]; simpl in Hy; try tauto; try discriminate.
  - simpl. destruct sx, sy; discriminate.
  - destruct (SFadd_finite sx mx ex sy my ey) as (z & ez & -> & _).
    apply binary_normalize_bounds.
Qed.

Theorem SFadd_lb x y vx M E :
  SFlb vx x -> finite_or_zero y -> repr M E ->
  (F2R M E <= vx + SF2R y)%R ->
  SFlb (F2R M E) (SFadd prec emax x y).
Proof.
  intros Lx Hy HR Hv. pose proof (repr_pos M E HR) as HP.
  destruct x as [sx|sx| |sx mx ex]; simpl in Lx; try tauto;
    destruct y as [sy|sy| |sy my ey]; simpl in Hy; try tauto.
  - simpl in Hv. lra.
  - simpl SFadd. simpl in *. lra.
  - simpl SFadd. simpl in *. lra.
  - destruct (SFadd_finite sx mx ex sy my ey) as (z & ez & -> & Ez).
    apply binary_normalize_bounds; auto. rewrite Ez. simpl in *. lra.
Qed.

Theorem SFadd_ub x y M E :
  finite_or_zero x -> finite_or_zero y -> repr M E -> E <= 971 ->
  (SF2R x + SF2R y <= F2R M E)%R ->
  SFub (F2R M E) (SFadd prec emax x y).
Proof.
  intros Hx Hy HR HE Hv. pose proof (repr_pos M E HR) as HP.
  destruct x as [sx|sx| |sx mx ex]; simpl in Hx; try tauto;
    destruct y as [sy|sy| |sy my ey]; simpl in Hy; try tauto.
  - simpl. destruct sx, sy; simpl; lra.
  - simpl SFadd. simpl in *. lra.
  - simpl SFadd. simpl in *. lra.
  - destruct (SFadd_finite sx mx ex sy my ey) as (z & ez & -> & Ez).
    apply binary_normalize_bounds; auto. rewrite Ez. exact Hv.
Qed.

Theorem SFadd_nonpos x y :
  finite_or_zero x -> finite_or_zero y ->
  (SF2R x + SF2R y <= 0)%R ->
  SFub 0 (SFadd prec emax x y).
Proof.
  intros Hx Hy Hv.
  destruct x as [sx|sx| |sx mx ex]; simpl in Hx; try tauto;
    destruct y as [sy|sy| |sy my ey]; simpl in Hy; try tauto.
  - simpl. destruct sx, sy; simpl; lra.
  - simpl SFadd. simpl in *. lra.
  - simpl SFadd. simpl in *. lra.
  - destruct (SFadd_finite sx mx ex sy my ey) as (z & ez & -> & Ez).
    apply binary_normalize_bounds; auto. rewrite Ez. exact Hv.
Qed.

(** *** comparisons *)

Lemma canonical_lt m1 e1 m2 e2 :
  SpecFloat.bounded prec emax m1 e1 = true ->
  SpecFloat.bounded prec emax m2 e2 = true ->
  e1 < e2 -> (F2R (Zpos m1) e1 < F2R (Zpos m2) e2)%R.
Proof.
  intros V1 V2 L.
  destruct (bounded_canonical _ _ V1) as [C1 _].
  destruct (bounded_canonical _ _ V2) as [C2 _].
  rewrite fexp64 in C1, C2.
  pose proof (F2R_digits m1 e1) as [_ U1]. pose proof (F2R_digits m2 e2) as [L2 _].
  pose proof (bpow_le (Zpos (digits2_pos m1) + e1) (Zpos (digits2_pos m2) - 1 + e2)
                ltac:(lia)).
  lra.
Qed.

Lemma SFcompare_pos m1 e1 m2 e2 :
  SpecFloat.bounded prec emax m1 e1 = true ->
  SpecFloat.bounded prec emax m2 e2 = true ->
  cmp_spec (SFcompare (S754_finite false m1 e1) (S754_finite false m2 e2))
    (F2R (Zpos m1) e1) (F2R (Zpos m2) e2).
Proof.
  intros V1 V2. simpl. destruct (Z.compare_spec e1 e2) as [E|L|G].
  - subst e2. rewrite Pos.compare_cont_spec. simpl.
    destruct (Pos.compare_spec m1 m2) as [E|L|G]; simpl.
    + subst; reflexivity.
    + apply F2R_lt. lia.
    + apply F2R_lt. lia.
  - apply canonical_lt; auto.
  - apply canonical_lt; auto.
Qed.

Lemma SFcompare_neg m1 e1 m2 e2 :
  SpecFloat.bounded prec emax m1 e1 = true ->
  SpecFloat.bounded prec emax m2 e2 = true ->
  cmp_spec (SFcompare (S754_finite true m1 e1) (S754_finite true m2 e2))
    (- F2R (Zpos m1) e1) (- F2R (Zpos m2) e2).
Proof.
  intros V1 V2. simpl. destruct (Z.compare_spec e1 e2) as [E|L|G].
  - subst e2. rewrite Pos.compare_cont_spec. simpl.
    destruct (Pos.compare_spec m1 m2) as [E|L|G]; simpl.
    + subst; reflexivity.
    + apply Ropp_lt_contravar, F2R_lt. lia.
    + apply Ropp_lt_contravar, F2R_lt. lia.
  - simpl. apply Ropp_lt_contravar, canonical_lt; auto.
  - simpl. apply Ropp_lt_contravar, canonical_lt; auto.
Qed.

Theorem SFcompare_spec x y :
  valid_binary x = true -> valid_binary y = true ->
  finite_or_zero x -> finite_or_zero y ->
  cmp_spec (SFcompare x y) (SF2R x) (SF2R y).
Proof.
  intros Vx Vy Fx Fy.
  destruct x as [sx|sx| |sx mx ex]; simpl in Fx; try tauto;
    destruct y as [sy|sy| |sy my ey]; simpl in Fy; try tauto.
  - reflexivity.
  - simpl. rewrite F2R_cond_Zopp. pose proof (F2R_pos my ey). destruct sy; simpl; lra.
  - simpl. rewrite F2R_cond_Zopp. pose proof (F2R_pos mx ex). destruct sx; simpl; lra.
  - unfold SF2R. rewrite !F2R_cond_Zopp.
    pose proof (F2R_pos mx ex). pose proof (F2R_pos my ey).
    destruct sx, sy.
    + apply SFcompare_neg; auto.
    + simpl. lra.
    + simpl. lra.
    + apply SFcompare_pos; auto.
Qed.

Theorem SFleb_lb c x :
  valid_binary c = true -> valid_binary x = true -> finite_or_zero c ->
  (SFleb c x = true <-> SFlb (SF2R c) x).
Proof.
  intros Vc Vx Fc. unfold SFleb.
  destruct x as [sx|sx| |sx mx ex].
  - pose proof (SFcompare_spec c (S754_zero sx) Vc Vx Fc I) as H.
    simpl SFlb. destruct (SFcompare c (S754_zero sx)) as [[| |]|]; simpl in H;
      split; intros; try discriminate; try reflexivity; try lra; tauto.
  - destruct c as [sc|sc| |sc mc ec]; simpl in Fc; try tauto;
      destruct sx; simpl; split; congruence.
  - destruct c; simpl; split; intros; try discriminate; tauto.
  - pose proof (SFcompare_spec c (S754_finite sx mx ex) Vc Vx Fc I) as H.
    simpl SFlb. destruct (SFcompare c (S754_finite sx mx ex)) as [[| |]|];
      simpl in H; split; intros; try discriminate; try reflexivity; try lra; tauto.
Qed.

Theorem SFltb_ub x c v :
  valid_binary c = true -> valid_binary x = true -> finite_or_zero c ->
  SFub v x -> (v < SF2R c)%R -> SFltb x c = true.
Proof.
  intros Vc Vx Fc Ux Hv. unfold SFltb.
  destruct x as [sx|sx| |sx mx ex]; simpl in Ux; try tauto.
  - pose proof (SFcompare_spec (S754_zero sx) c Vx Vc I Fc) as H.
    destruct (SFcompare (S754_zero sx) c) as [[| |]|]; simpl in H;
      try reflexivity; try lra; tauto.
  - subst sx. destruct c; simpl in Fc; try tauto; reflexivity.
  - pose proof (SFcompare_spec (S754_finite sx mx ex) c Vx Vc I Fc) as H.
    destruct (SFcompare (S754_finite sx mx ex) c) as [[| |]|]; simpl in H;
      try reflexivity; try lra; try tauto.
Qed.

Lemma SFcompare_swap x y :
  SFcompare y x = option_map CompOpp (SFcompare x y).
Proof.
  destruct x as [sx|sx| |sx mx ex], y as [sy|sy| |sy my ey]; simpl;
    try reflexivity; try (destruct sx; reflexivity); try (destruct sy; reflexivity);
    try (destruct sx, sy; reflexivity).
  destruct sx, sy; simpl; try reflexivity; f_equal;
    rewrite (Z.compare_antisym ex ey);
    change Eq with (CompOpp Eq) at 1;
    rewrite <- (Pos.compare_cont_antisym mx my Eq);
    destruct (ex ?= ey); simpl; try reflexivity;
    destruct (Pos.compare_cont Eq mx my); reflexivity.
Qed.

Theorem SFleb_of_not_ltb x c :
  x <> S754_nan -> c <> S754_nan -> SFltb x c = false -> SFleb c x = true.
Proof.
  intros Hx Hc. unfold SFltb, SFleb. rewrite (SFcompare_swap x c).
  destruct (SFcompare x c) as [[| |]|] eqn:E; simpl; try congruence.
  destruct x, c; simpl in E; try congruence.
Qed.

(** *** division *)

Lemma new_location_exact k r :
  new_location k r = loc_Exact <-> r = 0.
Proof.
  unfold new_location, new_location_even, new_location_odd.
  destruct (Z.even k); destruct (Z.eqb_spec r 0); split; intros; try discriminate;
    try reflexivity; tauto.
Qed.

Lemma F2R_mag_le p1 e1 p2 e2 :
  (F2R (Zpos p1) e1 <= F2R (Zpos p2) e2)%R ->
  Zpos (digits2_pos p1) + e1 <= Zpos (digits2_pos p2) + e2.
Proof.
  intros H. pose proof (F2R_digits p1 e1) as [L1 _].
  pose proof (F2R_digits p2 e2) as [_ U2].
  assert (bpow (Zpos (digits2_pos p1) - 1 + e1) < bpow (Zpos (digits2_pos p2) + e2))%R by lra.
  apply bpow_lt_inv in H0. lia.
Qed.

Lemma SFdiv_core_spec m1 e1 m2 e2 :
  (F2R (Zpos m2) e2 <= F2R (Zpos m1) e1)%R ->
  exists q e' l,
    SFdiv_core_binary prec emax (Zpos m1) e1 (Zpos m2) e2 = (Zpos q, e', l) /\
    inbetween (Zpos q) e' l (F2R (Zpos m1) e1 / F2R (Zpos m2) e2) /\
    e' <= fexp prec emax (Zpos (digits2_pos q) + e').
Proof.
  intros Hge. unfold SFdiv_core_binary.
  change (Zdigits2 (Zpos m1)) with (Zpos (digits2_pos m1)).
  change (Zdigits2 (Zpos m2)) with (Zpos (digits2_pos m2)).
  set (d1 := Zpos (digits2_pos m1)). set (d2 := Zpos (digits2_pos m2)).
  pose proof (F2R_mag_le m2 e2 m1 e1 Hge) as Hmag. fold d1 d2 in Hmag.
  set (e' := Z.min (fexp prec emax (d1 + e1 - (d2 + e2))) (e1 - e2)).
  set (s := e1 - e2 - e').
  assert (He' : e' <= d1 + e1 - (d2 + e2) - 53 /\ e' <= e1 - e2 /\
                (e' = d1 + e1 - (d2 + e2) - 53 \/ e' = e1 - e2)).
  { unfold e'. rewrite fexp64. lia. }
  assert (Hs : 0 <= s) by (unfold s; lia).
  assert (Em' : match s with Zpos _ => Z.shiftl (Zpos m1) s | Z0 => Zpos m1 | Zneg _ => 0 end
                = Zpos m1 * 2 ^ s).
  { destruct s eqn:Es; [simpl; lia| |lia].
    rewrite Z.shiftl_mul_pow2 by lia. reflexivity. }
  rewrite Em'. set (m' := Zpos m1 * 2 ^ s).
  pose proof (Z_div_mod m' (Zpos m2) ltac:(lia)) as Hdm.
  destruct (Z.div_eucl m' (Zpos m2)) as [q r]. destruct Hdm as [Eq Hr].
  pose proof (digits2_bounds m1) as [L1 _]. pose proof (digits2_bounds m2) as [_ U2].
  fold d1 in L1. fold d2 in U2.
  assert (P : 0 < 2 ^ s) by (apply Z.pow_pos_nonneg; lia).
  assert (Hq : 2 ^ (d1 + s - d2 - 1) <= q).
  { assert (Hd : 53 <= d1 + s - d2) by (unfold s; lia).
    assert (Zpos m2 * 2 ^ (d1 + s - d2 - 1) < Zpos m2 * (q + 1)); [|nia].
    assert (2 ^ d2 * 2 ^ (d1 + s - d2 - 1) <= m').
    { rewrite <- Z.pow_add_r by (unfold d2; lia).
      replace (d2 + (d1 + s - d2 - 1)) with (d1 - 1 + s) by lia.
      rewrite Z.pow_add_r by (unfold d1; lia). unfold m'. nia. }
    assert (0 < 2 ^ (d1 + s - d2 - 1)) by (apply Z.pow_pos_nonneg; lia).
    nia. }
  assert (Hq0 : 0 < q).
  { assert (0 < 2 ^ (d1 + s - d2 - 1)) by (apply Z.pow_pos_nonneg; unfold s; lia). lia. }
  destruct q as [|q|q]; try lia.
  exists q, e', (new_location (Zpos m2) r). split; [reflexivity|].
  assert (Pm2 : (0 < F2R (Zpos m2) e2)%R) by apply F2R_pos.
  assert (Ev : forall x, (F2R x e' * F2R (Zpos m2) e2)%R = F2R (x * Zpos m2) (e' + e2)).
  { intros x. apply F2R_mul. }
  assert (Em1 : F2R (Zpos m1) e1 = F2R m' (e' + e2)).
  { unfold m'. rewrite F2R_shift by lia. f_equal. unfold s. lia. }
  split.
  - unfold inbetween.
    assert (Hlo : (F2R (Zpos q) e' * F2R (Zpos m2) e2 <= F2R (Zpos m1) e1)%R).
    { rewrite Ev, Em1. apply F2R_le. lia. }
    assert (Hhi : (F2R (Zpos m1) e1 < F2R (Zpos q + 1) e' * F2R (Zpos m2) e2)%R).
    { rewrite Ev, Em1. apply F2R_lt. lia. }
    destruct (new_location (Zpos m2) r) eqn:El.
    + apply new_location_exact in El. subst r.
      apply Rmult_eq_reg_r with (F2R (Zpos m2) e2); [|lra].
      unfold Rdiv. rewrite Rmult_assoc, Rinv_l, Rmult_1_r by lra.
      rewrite Ev, Em1. f_equal. lia.
    + assert (r <> 0).
      { intros E0. apply (new_location_exact (Zpos m2)) in E0. congruence. }
      assert (Hlo' : (F2R (Zpos q) e' * F2R (Zpos m2) e2 < F2R (Zpos m1) e1)%R).
      { rewrite Ev, Em1. apply F2R_lt. lia. }
      split.
      * apply Rmult_lt_reg_r with (F2R (Zpos m2) e2); [lra|].
        unfold Rdiv. rewrite Rmult_assoc, Rinv_l, Rmult_1_r by lra. exact Hlo'.
      * apply Rmult_lt_reg_r with (F2R (Zpos m2) e2); [lra|].
        unfold Rdiv. rewrite Rmult_assoc, Rinv_l, Rmult_1_r by lra. exact Hhi.
  - pose proof (digits2_bounds q) as [_ Uq].
    assert (Hdq : d1 + s - d2 <= Zpos (digits2_pos q)).
    { destruct (Z.lt_ge_cases (Zpos (digits2_pos q)) (d1 + s - d2)) as [L|L]; [|lia].
      assert (2 ^ Zpos (digits2_pos q) <= 2 ^ (d1 + s - d2 - 1))
        by (apply Z.pow_le_mono_r; lia). lia. }
    rewrite fexp64. unfold s in Hdq. lia.
Qed.

Theorem SFdiv_bounds mx ex my ey :
  (F2R (Zpos my) ey <= F2R (Zpos mx) ex)%R ->
  let r := SFdiv prec emax (S754_finite false mx ex) (S754_finite false my ey) in
  let v := (F2R (Zpos mx) ex / F2R (Zpos my) ey)%R in
  sign_is false r /\
  (forall M E, repr M E -> (F2R M E <= v)%R -> mag_ge r (F2R M E)) /\
  (forall M E, repr M E -> E <= 971 -> (v <= F2R M E)%R -> mag_le r (F2R M E)).
Proof.
  intros Hge r v. unfold r, SFdiv.
  destruct (SFdiv_core_spec mx ex my ey Hge) as (q & e' & l & -> & Hin & Hpre).
  simpl xorb. apply binary_round_aux_bounds; assumption.
Qed.

Theorem SFdiv_lb x my ey vx M E :
  SFlb vx x -> (F2R (Zpos my) ey <= vx)%R ->
  repr M E -> (F2R M E * F2R (Zpos my) ey <= vx)%R ->
  SFlb (F2R M E) (SFdiv prec emax x (S754_finite false my ey)).
Proof.
  intros Lx Hge HR Hv. pose proof (F2R_pos my ey) as Py.
  destruct (SFlb_pos vx x ltac:(lra) Lx) as [->|(mx & ex & -> & Bx)];
    [reflexivity|].
  destruct (SFdiv_bounds mx ex my ey ltac:(lra)) as (S & L & _).
  apply SFlb_of_mag; [exact S|]. apply L; [exact HR|].
  apply Rmult_le_reg_r with (F2R (Zpos my) ey); [lra|].
  unfold Rdiv. rewrite Rmult_assoc, Rinv_l, Rmult_1_r by lra. lra.
Qed.

Theorem SFdiv_ub mx ex my ey M E :
  (F2R (Zpos my) ey <= F2R (Zpos mx) ex)%R ->
  repr M E -> E <= 971 -> (F2R (Zpos mx) ex <= F2R M E * F2R (Zpos my) ey)%R ->
  SFub (F2R M E) (SFdiv prec emax (S754_finite false mx ex) (S754_finite false my ey)).
Proof.
  intros Hge HR HE Hv. pose proof (F2R_pos my ey) as Py.
  destruct (SFdiv_bounds mx ex my ey Hge) as (S & _ & U).
  pose proof (repr_pos M E HR).
  apply SFub_of_mag; [exact S| |lra]. apply U; auto.
  apply Rmult_le_reg_r with (F2R (Zpos my) ey); [lra|].
  unfold Rdiv. rewrite Rmult_assoc, Rinv_l, Rmult_1_r by lra. lra.
Qed.

End Binary64Facts.

(** ** JavaScript numbers: [Math.ceil], [Math.round] and the arithmetic *)

Module NumberFacts.
Import JS Binary64 Binary64Facts.
Local Open Scope Z_scope.

Lemma F2R_0 m : F2R m 0 = IZR m.
Proof. unfold F2R, bpow. simpl. ring. Qed.

Lemma of_nonneg_spec n :
  0 <= n < 2 ^ 53 ->
  Prim2SF (of_nonneg n) = binary_normalize prec emax n 0 false.
Proof.
  intros Hn. unfold of_nonneg. rewrite of_uint63_spec.
  rewrite Uint63.of_Z_spec, Z.mod_small; [reflexivity|].
  change wB with (2 ^ 63). lia.
Qed.

Lemma of_nonneg_bounds n :
  0 <= n < 2 ^ 53 -> lb (IZR n) (of_nonneg n) /\ ub (IZR n) (of_nonneg n).
Proof.
  intros Hn. unfold lb, ub. rewrite of_nonneg_spec by exact Hn.
  destruct (binary_normalize_bounds n 0) as (_ & L & U & Z0).
  rewrite F2R_0 in *.
  destruct (Z.eq_dec n 0) as [->|NZ].
  - simpl. lra.
  - assert (HR : repr n 0) by (unfold repr; lia).
    specialize (L n 0 HR). specialize (U n 0 HR). rewrite F2R_0 in L, U.
    split; [apply L|apply U]; try lra; lia.
Qed.

Lemma lb_weaken v v' x : lb v x -> (v' <= v)%R -> lb v' x.
Proof. apply SFlb_weaken. Qed.

Lemma ub_weaken v v' x : ub v x -> (v <= v')%R -> ub v' x.
Proof. apply SFub_weaken. Qed.

(* A positive finite number with a negative exponent, against the integers. *)

Lemma F2R_int_le n m k : 0 <= k -> (IZR n <= F2R m (- k))%R <-> n * 2 ^ k <= m.
Proof.
  intros Hk. rewrite <- (F2R_0 n). replace 0 with (- k + k) at 1 by lia.
  rewrite <- F2R_shift by lia. apply F2R_le.
Qed.

Lemma F2R_le_int n m k : 0 <= k -> (F2R m (- k) <= IZR n)%R <-> m <= n * 2 ^ k.
Proof.
  intros Hk. rewrite <- (F2R_0 n). replace 0 with (- k + k) at 1 by lia.
  rewrite <- F2R_shift by lia. apply F2R_le.
Qed.

Lemma shiftr_bounds m k :
  0 <= k -> 0 <= m ->
  Z.shiftr m k * 2 ^ k <= m < (Z.shiftr m k + 1) * 2 ^ k.
Proof.
  intros Hk Hm. rewrite Z.shiftr_div_pow2 by lia.
  assert (P : 0 < 2 ^ k) by (apply Z.pow_pos_nonneg; lia).
  pose proof (Z.mul_div_le m (2 ^ k) P).
  pose proof (Z.mul_succ_div_gt m (2 ^ k) P). lia.
Qed.

Lemma shiftr_small m k : 0 < k -> 0 <= m < 2 ^ 53 -> 0 <= Z.shiftr m k < 2 ^ 52.
Proof.
  intros Hk Hm. rewrite Z.shiftr_div_pow2 by lia.
  assert (P : 0 < 2 ^ k) by (apply Z.pow_pos_nonneg; lia).
  split; [apply Z.div_pos; lia|].
  apply Z.div_lt_upper_bound; [lia|].
  assert (2 ^ 1 <= 2 ^ k) by (apply Z.pow_le_mono_r; lia).
  change (2 ^ 1) with 2 in H. change (2 ^ 53) with (2 * 2 ^ 52) in Hm. nia.
Qed.

Lemma Prim2SF_finite_valid x s m e :
  Prim2SF x = S754_finite s m e -> SpecFloat.bounded prec emax m e = true.
Proof.
  intros E. pose proof (Prim2SF_valid x) as V. rewrite E in V. exact V.
Qed.

(* Math.ceil does not go below its argument. *)

Theorem Math_ceil_lb v x : (0 < v)%R -> lb v x -> lb v (Math_ceil x).
Proof.
  intros Hv L. unfold lb in L.
  destruct (SFlb_pos v _ Hv L) as [E|(m & e & E & B)].
  - unfold Math_ceil. rewrite E. unfold lb. rewrite E. reflexivity.
  - unfold Math_ceil. rewrite E.
    destruct (Z.leb_spec 0 e) as [He|He].
    + unfold lb. rewrite E. simpl. exact B.
    + pose proof (bounded_repr m e (Prim2SF_finite_valid x _ _ _ E)) as [Hm _].
      set (k := - e) in *. assert (Hk : 0 < k) by (unfold k; lia).
      pose proof (shiftr_bounds (Zpos m) k ltac:(lia) ltac:(lia)) as [Lo Hi].
      pose proof (shiftr_small (Zpos m) k Hk ltac:(lia)) as Hs.
      set (i := Z.shiftr (Zpos m) k) in *.
      rewrite Z.shiftl_mul_pow2 by lia.
      replace e with (- k) in B by (unfold k; lia).
      destruct (Z.eqb_spec (i * 2 ^ k) (Zpos m)) as [Ei|Ni].
      * destruct (of_nonneg_bounds i ltac:(lia)) as [Li _].
        apply (lb_weaken _ _ _ Li).
        apply Rle_trans with (1 := B). apply F2R_le_int; lia.
      * destruct (of_nonneg_bounds (i + 1) ltac:(lia)) as [Li _].
        apply (lb_weaken _ _ _ Li).
        apply Rle_trans with (1 := B). apply F2R_le_int; lia.
Qed.

Lemma normal_of_nonneg_exp m e :
  SpecFloat.bounded prec emax m e = true -> 0 <= e -> 2 ^ 52 <= Zpos m.
Proof.
  intros V He. destruct (bounded_canonical m e V) as [C _]. rewrite fexp64 in C.
  pose proof (digits2_bounds m) as [L _].
  replace (Zpos (digits2_pos m)) with 53 in L by lia. exact L.
Qed.

(* Math.round of a number that is at least the integer [n]. *)

Theorem Math_round_lb n x :
  0 < n < 2 ^ 52 -> lb (IZR n) x ->
  Math_round x = of_nonneg n \/ lb (IZR (n + 1)) (Math_round x).
Proof.
  intros Hn L. unfold lb in L.
  assert (Hv : (0 < IZR n)%R) by (apply IZR_lt; lia).
  destruct (SFlb_pos _ _ Hv L) as [E|(m & e & E & B)].
  - right. unfold Math_round. rewrite E. unfold lb. rewrite E. reflexivity.
  - unfold Math_round. rewrite E.
    pose proof (Prim2SF_finite_valid x _ _ _ E) as V.
    destruct (Z.leb_spec 0 e) as [He|He].
    + right. unfold lb. rewrite E. simpl.
      pose proof (normal_of_nonneg_exp m e V He) as N.
      apply Rle_trans with (F2R (2 ^ 52) 0).
      * rewrite F2R_0. apply IZR_le. lia.
      * replace e with (0 + e) by lia. rewrite <- F2R_shift by lia.
        apply F2R_le. assert (1 <= 2 ^ e) by (apply Z.lt_pred_le, Z.pow_pos_nonneg; lia).
        nia.
    + pose proof (bounded_repr m e V) as [Hm _].
      set (k := - e) in *. assert (Hk : 0 < k) by (unfold k; lia).
      pose proof (shiftr_bounds (Zpos m) k ltac:(lia) ltac:(lia)) as [Lo Hi].
      pose proof (shiftr_small (Zpos m) k Hk ltac:(lia)) as Hs.
      set (i := Z.shiftr (Zpos m) k) in *.
      replace e with (- k) in B by (unfold k; lia).
      apply F2R_int_le in B; [|lia].
      assert (P : 0 < 2 ^ k) by (apply Z.pow_pos_nonneg; lia).
      assert (Hi' : n <= i) by nia.
      set (j := if 2 ^ k <=? 2 * (Zpos m - Z.shiftl i k) then i + 1 else i).
      assert (Hj : i <= j <= i + 1) by (unfold j; destruct (_ <=? _); lia).
      destruct (Z.eq_dec j n) as [Ej|Nj].
      * left. rewrite Ej. reflexivity.
      * right. destruct (of_nonneg_bounds j ltac:(lia)) as [Lj _].
        apply (lb_weaken _ _ _ Lj). apply IZR_le. lia.
Qed.

Lemma bpow_1 : bpow 1 = 2%R.
Proof. unfold bpow. simpl. ring. Qed.

Lemma bpow_m1 : bpow (- 1) = (/ 2)%R.
Proof. unfold bpow. simpl. rewrite Rmult_1_r. reflexivity. Qed.

Lemma F2R_plus_half m k :
  0 <= k -> (F2R m (- k) + / 2)%R = F2R (2 * m + 2 ^ k) (- (k + 1)).
Proof.
  intros Hk. unfold F2R. rewrite plus_IZR, mult_IZR, bpow_Z by lia.
  assert (E1 : bpow (- k) = (2 * bpow (- (k + 1)))%R).
  { replace (- k) with (1 + - (k + 1)) by lia. rewrite bpow_add, bpow_1. ring. }
  assert (E2 : (bpow k * bpow (- (k + 1)) = / 2)%R).
  { rewrite <- bpow_add. replace (k + - (k + 1)) with (- 1) by lia. apply bpow_m1. }
  rewrite E1. rewrite Rmult_plus_distr_r, E2. ring.
Qed.

(* Math.round goes up by at most one half. *)

Theorem Math_round_ub x m e :
  Prim2SF x = S754_finite false m e ->
  ub (F2R (Zpos m) e + / 2) (Math_round x).
Proof.
  intros E. unfold Math_round. rewrite E.
  pose proof (Prim2SF_finite_valid x _ _ _ E) as V.
  destruct (Z.leb_spec 0 e) as [He|He].
  - unfold ub. rewrite E. simpl. lra.
  - pose proof (bounded_repr m e V) as [Hm _].
    set (k := - e) in *. assert (Hk : 0 < k) by (unfold k; lia).
    pose proof (shiftr_bounds (Zpos m) k ltac:(lia) ltac:(lia)) as [Lo Hi].
    pose proof (shiftr_small (Zpos m) k Hk ltac:(lia)) as Hs.
    set (i := Z.shiftr (Zpos m) k) in *.
    rewrite Z.shiftl_mul_pow2 by lia.
    assert (P : 0 < 2 ^ k) by (apply Z.pow_pos_nonneg; lia).
    replace e with (- k) by (unfold k; lia).
    rewrite F2R_plus_half by lia.
    assert (E2 : 2 ^ (k + 1) = 2 * 2 ^ k) by (rewrite Z.pow_add_r; lia).
    destruct (Z.leb_spec (2 ^ k) (2 * (Zpos m - i * 2 ^ k))) as [T|T].
    + destruct (of_nonneg_bounds (i + 1) ltac:(lia)) as [_ Uj].
      apply (ub_weaken _ _ _ Uj). apply F2R_int_le; [lia|]. nia.
    + destruct (of_nonneg_bounds i ltac:(lia)) as [_ Uj].
      apply (ub_weaken _ _ _ Uj). apply F2R_int_le; [lia|]. nia.
Qed.

(** *** the operations on primitive floats *)

Theorem mul_lb x y vx vy M E :
  (0 < vx)%R -> (0 < vy)%R -> lb vx x -> lb vy y ->
  repr M E -> (F2R M E <= vx * vy)%R -> lb (F2R M E) (x * y).
Proof.
  intros. unfold lb. rewrite FloatAxioms.mul_spec.
  apply SFmul_lb with vx vy; auto using Prim2SF_valid.
Qed.

Theorem mul_ub x y mx ex my ey M E :
  Prim2SF x = S754_finite false mx ex -> Prim2SF y = S754_finite false my ey ->
  repr M E -> E <= 971 ->
  (F2R (Zpos mx) ex * F2R (Zpos my) ey <= F2R M E)%R ->
  ub (F2R M E) (x * y).
Proof.
  intros Ex Ey HR HE Hv. unfold ub. rewrite FloatAxioms.mul_spec, Ex, Ey.
  apply SFmul_ub with (F2R (Zpos mx) ex) (F2R (Zpos my) ey); auto; try lra.
  - exact (Prim2SF_finite_valid x _ _ _ Ex).
  - exact (Prim2SF_finite_valid y _ _ _ Ey).
Qed.

Theorem add_lb x y vx M E :
  lb vx x -> finite_or_zero (Prim2SF y) -> repr M E ->
  (F2R M E <= vx + val y)%R -> lb (F2R M E) (x + y).
Proof. intros. unfold lb. rewrite FloatAxioms.add_spec. apply SFadd_lb with vx; auto. Qed.

Theorem add_ub x y M E :
  finite_or_zero (Prim2SF x) -> finite_or_zero (Prim2SF y) -> repr M E -> E <= 971 ->
  (val x + val y <= F2R M E)%R -> ub (F2R M E) (x + y).
Proof. intros. unfold ub. rewrite FloatAxioms.add_spec. apply SFadd_ub; auto. Qed.

Theorem add_nonpos x y :
  finite_or_zero (Prim2SF x) -> finite_or_zero (Prim2SF y) ->
  (val x + val y <= 0)%R -> ub 0 (x + y).
Proof. intros. unfold ub. rewrite FloatAxioms.add_spec. apply SFadd_nonpos; auto. Qed.

Theorem add_not_nan x y :
  Prim2SF x <> S754_nan -> finite_or_zero (Prim2SF y) ->
  Prim2SF (x + y) <> S754_nan.
Proof. intros. rewrite FloatAxioms.add_spec. apply SFadd_not_nan; auto. Qed.

Theorem div_lb x y my ey vx M E :
  Prim2SF y = S754_finite false my ey ->
  lb vx x -> (F2R (Zpos my) ey <= vx)%R ->
  repr M E -> (F2R M E * F2R (Zpos my) ey <= vx)%R ->
  lb (F2R M E) (x / y).
Proof. intros Ey **. unfold lb. rewrite FloatAxioms.div_spec, Ey. apply SFdiv_lb with vx; auto. Qed.

Theorem div_ub x y mx ex my ey M E :
  Prim2SF x = S754_finite false mx ex -> Prim2SF y = S754_finite false my ey ->
  (F2R (Zpos my) ey <= F2R (Zpos mx) ex)%R ->
  repr M E -> E <= 971 -> (F2R (Zpos mx) ex <= F2R M E * F2R (Zpos my) ey)%R ->
  ub (F2R M E) (x / y).
Proof. intros Ex Ey **. unfold ub. rewrite FloatAxioms.div_spec, Ex, Ey. apply SFdiv_ub; auto. Qed.

Theorem leb_lb c x :
  finite_or_zero (Prim2SF c) -> ((c <=? x)%float = true <-> lb (val c) x).
Proof.
  intros Fc. rewrite FloatAxioms.leb_spec. apply SFleb_lb; auto using Prim2SF_valid.
Qed.

Theorem ltb_ub x c v :
  finite_or_zero (Prim2SF c) -> ub v x -> (v < val c)%R -> (x <? c)%float = true.
Proof.
  intros Fc U Hv. rewrite FloatAxioms.ltb_spec. apply SFltb_ub with v; auto using Prim2SF_valid.
Qed.

Theorem leb_of_not_ltb x c :
  Prim2SF x <> S754_nan -> Prim2SF c <> S754_nan ->
  (x <? c)%float = false -> (c <=? x)%float = true.
Proof.
  intros Hx Hc. rewrite FloatAxioms.ltb_spec, FloatAxioms.leb_spec. apply SFleb_of_not_ltb; auto.
Qed.

End NumberFacts.

(** ** Order, equality and integers among the numbers *)

Module NumberOrder.
Import JS Binary64 Binary64Facts NumberFacts.
Local Open Scope float_scope.

Lemma F2R_leb_true m1 e1 m2 e2 :
  F2R_leb m1 e1 m2 e2 = true -> (F2R m1 e1 <= F2R m2 e2)%R.
Proof.
  unfold F2R_leb. intros H. apply Z.leb_le in H.
  set (c := Z.min e1 e2) in *.
  replace e1 with (c + (e1 - c))%Z at 1 by lia.
  replace e2 with (c + (e2 - c))%Z at 1 by lia.
  rewrite <- !F2R_shift by lia. apply F2R_le. exact H.
Qed.



Lemma lb_val x : finite_or_zero (Prim2SF x) -> lb (val x) x.
Proof.
  unfold lb, val. destruct (Prim2SF x); simpl; intros; try tauto; lra.
Qed.

Lemma ub_val x : finite_or_zero (Prim2SF x) -> ub (val x) x.
Proof.
  unfold ub, val. destruct (Prim2SF x); simpl; intros; try tauto; lra.
Qed.

Lemma lb_not_nan v x : lb v x -> Prim2SF x <> S754_nan.
Proof. unfold lb. destruct (Prim2SF x); simpl; congruence. Qed.

Lemma lb_ub_absurd x : lb 1 x -> ub 0 x -> False.
Proof.
  unfold lb, ub. destruct (Prim2SF x); simpl; intros; try congruence; try tauto; lra.
Qed.

Lemma lb_ub_positive v v' x :
  (0 < v)%R -> lb v x -> ub v' x ->
  exists m e, Prim2SF x = S754_finite false m e /\
              (v <= F2R (Zpos m) e <= v')%R.
Proof.
  intros Hv L U. unfold lb, ub in *.
  destruct (SFlb_pos v _ Hv L) as [E|(m & e & E & B)]; rewrite E in U; simpl in U.
  - discriminate.
  - exists m, e. split; [exact E|]. split; [exact B|exact U].
Qed.

Lemma lb_ub_unique v x y :
  (0 < v)%R -> lb v x -> ub v x -> lb v y -> ub v y -> x = y.
Proof.
  intros Hv Lx Ux Ly Uy. apply Prim2SF_inj.
  pose proof (Prim2SF_valid x) as Vx. pose proof (Prim2SF_valid y) as Vy.
  unfold lb, ub in *.
  destruct (SFlb_pos v _ Hv Lx) as [Ex|(mx & ex & Ex & Bx)];
    rewrite Ex in *; simpl in Ux; [discriminate|].
  destruct (SFlb_pos v _ Hv Ly) as [Ey|(my & ey & Ey & By)];
    rewrite Ey in *; simpl in Uy; [discriminate|].
  simpl in Vx, Vy.
  assert (E : F2R (Zpos mx) ex = F2R (Zpos my) ey) by lra.
  destruct (Z.lt_trichotomy ex ey) as [L|[L|L]].
  - pose proof (canonical_lt mx ex my ey Vx Vy L). lra.
  - subst ey. f_equal.
    assert (Zpos mx <= Zpos my)%Z by (apply (F2R_le _ _ ex); lra).
    assert (Zpos my <= Zpos mx)%Z by (apply (F2R_le _ _ ex); lra).
    lia.
  - pose proof (canonical_lt my ey mx ex Vy Vx L). lra.
Qed.

Lemma Prim2SF_zero : Prim2SF 0 = S754_zero false.
Proof. reflexivity. Qed.

Lemma Prim2SF_one : Prim2SF 1 = S754_finite false 4503599627370496 (-52).
Proof. reflexivity. Qed.

Lemma val_one : val 1 = 1%R.
Proof.
  unfold val. rewrite Prim2SF_one. simpl.
  change 4503599627370496%Z with (1 * 2 ^ 52)%Z.
  rewrite F2R_shift by lia. simpl. apply F2R_0.
Qed.

Lemma F2R_unit_fraction e j :
  (e <= j)%Z -> F2R (2 ^ (j - e)) e = F2R 1 j.
Proof.
  intros H. replace (2 ^ (j - e))%Z with (1 * 2 ^ (j - e))%Z by lia.
  rewrite F2R_shift by lia.
  f_equal. lia.
Qed.

Lemma F2R_half : F2R 1 (- 1) = (/ 2)%R.
Proof. unfold F2R. rewrite bpow_m1. ring. Qed.

Lemma F2R_lt_int n m k : (0 <= k)%Z -> (F2R m (- k) < IZR n)%R <-> (m < n * 2 ^ k)%Z.
Proof.
  intros Hk. pose proof (F2R_int_le n m k Hk) as H. split; intros L.
  - destruct (Z.lt_ge_cases m (n * 2 ^ k)) as [G|G]; auto.
    apply H in G. lra.
  - destruct (Rlt_le_dec (F2R m (- k)) (IZR n)) as [G|G]; auto.
    apply H in G. lia.
Qed.

Lemma eqb_zero x s : Prim2SF x = S754_zero s -> (x =? 0) = true.
Proof. intros E. rewrite FloatAxioms.eqb_spec, E, Prim2SF_zero. reflexivity. Qed.

Lemma eqb_zero_inv x : (x =? 0) = true -> exists s, Prim2SF x = S754_zero s.
Proof.
  rewrite FloatAxioms.eqb_spec, Prim2SF_zero. unfold SFeqb.
  destruct (Prim2SF x) as [s|s| |s m e]; simpl; try discriminate; eauto.
  - destruct s; discriminate.
  - destruct s; discriminate.
Qed.

Lemma eqb_bounds x c :
  finite_or_zero (Prim2SF c) -> (x =? c) = true ->
  lb (val c) x /\ ub (val c) x.
Proof.
  intros Fc. rewrite FloatAxioms.eqb_spec. unfold SFeqb, lb, ub, val.
  pose proof (Prim2SF_valid x) as Vx. pose proof (Prim2SF_valid c) as Vc.
  destruct (Prim2SF x) as [s|s| |s m e] eqn:E.
  - pose proof (SFcompare_spec _ _ Vx Vc I Fc) as H.
    destruct (SFcompare (S754_zero s) (Prim2SF c)) as [[| |]|]; try discriminate.
    simpl in H. intros _. simpl. lra.
  - destruct (Prim2SF c); simpl in Fc; try tauto; destruct s; discriminate.
  - discriminate.
  - pose proof (SFcompare_spec _ _ Vx Vc I Fc) as H.
    destruct (SFcompare (S754_finite s m e) (Prim2SF c)) as [[| |]|]; try discriminate.
    simpl in H. intros _. simpl. lra.
Qed.

Lemma ltb_bounds c x :
  finite_or_zero (Prim2SF c) -> (c <? x) = true ->
  Prim2SF x = S754_infinity false \/
  (finite_or_zero (Prim2SF x) /\ (val c < val x)%R).
Proof.
  intros Fc. rewrite FloatAxioms.ltb_spec. unfold SFltb, val.
  pose proof (Prim2SF_valid x) as Vx. pose proof (Prim2SF_valid c) as Vc.
  destruct (Prim2SF x) as [s|s| |s m e] eqn:E.
  - pose proof (SFcompare_spec _ _ Vc Vx Fc I) as H.
    destruct (SFcompare (Prim2SF c) (S754_zero s)) as [[| |]|]; try discriminate.
    intros _. right. split; [exact I|exact H].
  - destruct (Prim2SF c); simpl in Fc; try tauto; destruct s; simpl;
      try discriminate; auto.
  - destruct (Prim2SF c); discriminate.
  - pose proof (SFcompare_spec _ _ Vc Vx Fc I) as H.
    destruct (SFcompare (Prim2SF c) (S754_finite s m e)) as [[| |]|]; try discriminate.
    intros _. right. split; [exact I|exact H].
Qed.

Lemma ltb_finite x c :
  finite_or_zero (Prim2SF c) -> (x <? c) = true ->
  Prim2SF x = S754_infinity true \/
  (finite_or_zero (Prim2SF x) /\ (val x < val c)%R).
Proof.
  intros Fc. rewrite FloatAxioms.ltb_spec. unfold SFltb, val.
  pose proof (Prim2SF_valid x) as Vx. pose proof (Prim2SF_valid c) as Vc.
  destruct (Prim2SF x) as [s|s| |s m e] eqn:E.
  - pose proof (SFcompare_spec _ _ Vx Vc I Fc) as H.
    destruct (SFcompare (S754_zero s) (Prim2SF c)) as [[| |]|]; try discriminate.
    intros _. right. split; [exact I|exact H].
  - destruct (Prim2SF c); simpl in Fc; try tauto; destruct s; simpl;
      try discriminate; auto.
  - discriminate.
  - pose proof (SFcompare_spec _ _ Vx Vc I Fc) as H.
    destruct (SFcompare (S754_finite s m e) (Prim2SF c)) as [[| |]|]; try discriminate.
    intros _. right. split; [exact I|exact H].
Qed.


Lemma integer_not_nan x : Number_isInteger x = true -> Prim2SF x <> S754_nan.
Proof. unfold Number_isInteger. destruct (Prim2SF x); congruence. Qed.

Lemma integer_magnitude x s m e :
  Number_isInteger x = true -> Prim2SF x = S754_finite s m e ->
  (1 <= F2R (Zpos m) e)%R.
Proof.
  unfold Number_isInteger. intros H E. rewrite E in H.
  destruct (Z.leb_spec 0 e) as [He|He].
  - rewrite <- (F2R_0 1). replace e with (0 + e)%Z by lia.
    rewrite <- F2R_shift by lia. apply F2R_le.
    assert (0 < 2 ^ e)%Z by (apply Z.pow_pos_nonneg; lia). nia.
  - apply Z.eqb_eq in H. rewrite Z.shiftl_mul_pow2 in H by lia.
    set (i := Z.shiftr (Zpos m) (- e)) in *.
    assert (0 < 2 ^ (- e))%Z by (apply Z.pow_pos_nonneg; lia).
    replace e with (- (- e))%Z by lia. apply F2R_int_le; [lia|].
    set (P := (2 ^ (- e))%Z) in *.
    assert (1 <= i)%Z by (destruct (Z.le_gt_cases i 0); [nia|lia]). nia.
Qed.


Lemma zero_plus_one x : (x =? 0) = true -> x + 1 = 1.
Proof.
  intros H. destruct (eqb_zero_inv x H) as [s E].
  apply Prim2SF_inj. rewrite FloatAxioms.add_spec, E, Prim2SF_one. reflexivity.
Qed.

Lemma Math_round_nearest x m e :
  Prim2SF x = S754_finite false m e -> (e < 0)%Z ->
  exists j, (0 <= j < 2 ^ 53)%Z /\ Math_round x = of_nonneg j /\
            (IZR j - / 2 <= F2R (Zpos m) e < IZR j + / 2)%R.
Proof.
  intros E He. unfold Math_round. rewrite E.
  destruct (Z.leb_spec 0 e) as [H|_]; [lia|].
  pose proof (bounded_repr m e (Prim2SF_finite_valid x _ _ _ E)) as [Hm _].
  set (k := (- e)%Z) in *. assert (Hk : (0 < k)%Z) by (unfold k; lia).
  pose proof (shiftr_bounds (Zpos m) k ltac:(lia) ltac:(lia)) as [Lo Hi].
  pose proof (shiftr_small (Zpos m) k Hk ltac:(lia)) as Hs.
  set (i := Z.shiftr (Zpos m) k) in *.
  rewrite Z.shiftl_mul_pow2 by lia.
  assert (P : (0 < 2 ^ k)%Z) by (apply Z.pow_pos_nonneg; lia).
  assert (E2 : (2 ^ (k + 1) = 2 * 2 ^ k)%Z) by (rewrite Z.pow_add_r; lia).
  replace e with (- k)%Z by (unfold k; lia).
  assert (B : forall j, (j * 2 ^ (k + 1) <= 2 * Zpos m + 2 ^ k < (j + 1) * 2 ^ (k + 1))%Z ->
                        (IZR j - / 2 <= F2R (Zpos m) (- k) < IZR j + / 2)%R).
  { intros j [B1 B2].
    pose proof (F2R_plus_half (Zpos m) k ltac:(lia)) as Eh.
    apply (F2R_int_le j _ (k + 1) ltac:(lia)) in B1.
    apply (F2R_lt_int (j + 1) _ (k + 1) ltac:(lia)) in B2.
    rewrite plus_IZR in B2. lra. }
  destruct (Z.leb_spec (2 ^ k) (2 * (Zpos m - i * 2 ^ k))) as [T|T].
  - exists (i + 1)%Z. split; [lia|]. split; [reflexivity|]. apply B. nia.
  - exists i. split; [lia|]. split; [reflexivity|]. apply B. nia.
Qed.

End NumberOrder.

(** ** The scheduler *)

Module SM2Facts.
Import JS SM2 Binary64 Binary64Facts NumberFacts NumberOrder Schedule.
Local Open Scope float_scope.

(** *** The constants of the ease update *)

Lemma Prim2SF_floor : Prim2SF 1.3 = S754_finite false 5854679515581645 (-52).
Proof. reflexivity. Qed.

Lemma Prim2SF_hundred : Prim2SF 100 = S754_finite false 7036874417766400 (-46).
Proof. reflexivity. Qed.

Lemma val_floor : val 1.3 = F2R 5854679515581645 (-52).
Proof. unfold val. rewrite Prim2SF_floor. reflexivity. Qed.

Lemma val_hundred : val 100 = F2R 7036874417766400 (-46).
Proof. unfold val. rewrite Prim2SF_hundred. reflexivity. Qed.

Lemma F2R_hundred : F2R 7036874417766400 (-46) = F2R 100 0.
Proof.
  change 7036874417766400%Z with (100 * 2 ^ 46)%Z. rewrite F2R_shift by lia.
  reflexivity.
Qed.

Lemma Prim2SF_neutral_delta :
  Prim2SF (easeDelta 3) = S754_finite true 5044031582654955 (-55).
Proof. reflexivity. Qed.

Lemma round_floor : roundTwoPlaces 1.3 = 1.3.
Proof. reflexivity. Qed.

(** *** What [sm2] returns, and when *)

Lemma sm2_inv now quality state state' :
  sm2 now quality state = Ok state' ->
  repetitions state' = fst (schedule quality state) /\
  intervalDays state' = snd (schedule quality state) /\
  easeFactor state'
  = Math_round (updateEase quality (easeFactor state) * 100) / 100 /\
  Date_addDays now (snd (schedule quality state)) = Some (nextReviewAt state').
Proof.
  unfold sm2. destruct (schedule quality state) as [r i]. cbn [fst snd].
  destruct (Date_addDays now i) as [t|]; simpl; [|discriminate].
  intros H. injection H as <-. simpl. auto.
Qed.

Lemma sm2_returns now quality state t :
  Date_addDays now (snd (schedule quality state)) = Some t ->
  exists state', sm2 now quality state = Ok state'.
Proof.
  unfold sm2. destruct (schedule quality state) as [r i]. cbn [snd].
  intros ->. simpl. eauto.
Qed.


Lemma sm2_raises now quality state e :
  sm2 now quality state = Throw e ->
  e = RangeError /\ Date_addDays now (snd (schedule quality state)) = None.
Proof.
  unfold sm2. destruct (schedule quality state) as [r i]. cbn [snd].
  destruct (Date_addDays now i) as [t|]; simpl; [discriminate|].
  intros H. injection H as <-. auto.
Qed.

Lemma sm2_ease_eq now quality state state' :
  sm2 now quality state = Ok state' ->
  easeFactor state'
  = roundTwoPlaces (clampEase (easeFactor state + easeDelta quality)).
Proof. intros H. destruct (sm2_inv _ _ _ _ H) as (_ & _ & Ee & _). exact Ee. Qed.

(** *** The ease factor stays at or above 1.3 *)

Lemma clampEase_floor e :
  Prim2SF e <> S754_nan -> (1.3 <=? clampEase e) = true.
Proof.
  intros He. unfold clampEase. destruct (e <? 1.3) eqn:E.
  - reflexivity.
  - apply leb_of_not_ltb; auto. rewrite Prim2SF_floor. discriminate.
Qed.

Lemma roundTwoPlaces_floor e :
  (1.3 <=? e) = true -> (1.3 <=? roundTwoPlaces e) = true.
Proof.
  intros He. apply leb_lb in He; [|rewrite Prim2SF_floor; exact I].
  rewrite val_floor in He.
  assert (L100 : lb (F2R 7036874417766400 (-46)) 100)
    by (rewrite <- val_hundred; apply lb_val; rewrite Prim2SF_hundred; exact I).
  assert (P1 : (0 < F2R 5854679515581645 (-52))%R) by apply (F2R_pos 5854679515581645).
  assert (P2 : (0 < F2R 7036874417766400 (-46))%R) by apply (F2R_pos 7036874417766400).
  assert (Lm : lb (F2R 130 0) (e * 100)).
  { apply mul_lb with (F2R 5854679515581645 (-52)) (F2R 7036874417766400 (-46)); auto.
    - unfold repr. lia.
    - rewrite F2R_mul. apply F2R_leb_true. reflexivity. }
  rewrite F2R_0 in Lm. unfold roundTwoPlaces.
  destruct (Math_round_lb 130 (e * 100) ltac:(lia) Lm) as [E|L].
  - rewrite E. reflexivity.
  - apply leb_lb; [rewrite Prim2SF_floor; exact I|]. rewrite val_floor.
    change (130 + 1)%Z with 131%Z in L. rewrite <- F2R_0 in L.
    apply div_lb with (1 := Prim2SF_hundred) (vx := F2R 131 0); auto.
    + apply F2R_leb_true. reflexivity.
    + unfold repr. lia.
    + rewrite F2R_mul. apply F2R_leb_true. reflexivity.
Qed.

Lemma easeDelta_finite quality :
  quality = 1 \/ quality = 3 \/ quality = 5 ->
  finite_or_zero (Prim2SF (easeDelta quality)).
Proof. intros [ -> | [ -> | -> ] ]; exact I. Qed.

Lemma ease_floor_easy e :
  (1.3 <=? e) = true ->
  (1.3 <=? roundTwoPlaces (clampEase (e + easeDelta 5))) = true.
Proof.
  intros He. apply roundTwoPlaces_floor, clampEase_floor, add_not_nan.
  - apply leb_lb in He; [|rewrite Prim2SF_floor; exact I].
    exact (lb_not_nan _ _ He).
  - exact I.
Qed.

(** *** Rounding to two places *)

Lemma clampEase_lb c e :
  c = clampEase e -> (c <? 35184372088832) = true ->
  lb (F2R 5854679515581645 (-52)) c.
Proof.
  intros Ec Hc. rewrite <- val_floor.
  apply leb_lb; [rewrite Prim2SF_floor; exact I|]. subst c.
  apply clampEase_floor. unfold clampEase in Hc.
  destruct (e <? 1.3) eqn:E.
  - intros N. rewrite FloatAxioms.ltb_spec, N in E. discriminate.
  - intros N. rewrite FloatAxioms.ltb_spec, N in Hc. discriminate.
Qed.

Lemma roundTwoPlaces_nearest c :
  lb (F2R 5854679515581645 (-52)) c -> (c <? 35184372088832) = true ->
  exists j, (130 <= j < 2 ^ 53)%Z /\ roundTwoPlaces c = of_nonneg j / 100 /\
            (IZR j - / 2 <= val (c * 100) < IZR j + / 2)%R.
Proof.
  intros Lc Hc.
  assert (P13 : (0 < F2R 5854679515581645 (-52))%R) by apply (F2R_pos 5854679515581645).
  destruct (ltb_finite c 35184372088832 I Hc) as [Einf|[Fc Hv]].
  { unfold lb in Lc. rewrite Einf in Lc. discriminate. }
  assert (V45 : val 35184372088832 = F2R 1 45).
  { unfold val.
    replace (Prim2SF 35184372088832)
      with (S754_finite false 4503599627370496 (- 7)) by reflexivity.
    unfold SF2R, SpecFloat.cond_Zopp.
    change 4503599627370496%Z with (1 * 2 ^ 52)%Z.
    rewrite F2R_shift by lia. reflexivity. }
  rewrite V45 in Hv.
  destruct (lb_ub_positive _ _ c P13 Lc (ub_val c Fc)) as (mc & xc & Ec & Bl & _).
  assert (Evc : val c = F2R (Zpos mc) xc) by (unfold val; rewrite Ec; reflexivity).
  rewrite Evc in Hv.
  assert (Ly : lb (F2R 130 0) (c * 100)).
  { apply mul_lb with (F2R 5854679515581645 (-52)) (F2R 7036874417766400 (-46)).
    - exact P13.
    - apply (F2R_pos 7036874417766400).
    - exact Lc.
    - rewrite <- val_hundred. apply lb_val. rewrite Prim2SF_hundred. exact I.
    - unfold repr. lia.
    - rewrite F2R_mul. apply F2R_leb_true. reflexivity. }
  assert (Uy : ub (F2R 100 45) (c * 100)).
  { apply mul_ub with (1 := Ec) (2 := Prim2SF_hundred).
    - unfold repr. lia.
    - lia.
    - rewrite F2R_hundred.
      replace (F2R 100 45) with (F2R 1 45 * F2R 100 0)%R
        by (rewrite F2R_mul; reflexivity).
      rewrite F2R_0. assert (0 < IZR 100)%R by (apply IZR_lt; lia). nra. }
  assert (P130 : (0 < F2R 130 0)%R) by (rewrite F2R_0; apply IZR_lt; lia).
  destruct (lb_ub_positive _ _ _ P130 Ly Uy) as (my & xy & Ey & Byl & Byu).
  assert (Hxy : (xy < 0)%Z).
  { pose proof (Prim2SF_finite_valid _ _ _ _ Ey) as Vy.
    destruct (bounded_canonical my xy Vy) as [Cy _]. rewrite fexp64 in Cy.
    pose proof (F2R_digits my xy) as [Dl _].
    assert (F2R 100 45 < bpow 52)%R.
    { replace (bpow 52) with (F2R 1 52) by (unfold F2R; lra).
      replace 52%Z with (45 + 7)%Z by lia. rewrite <- F2R_shift by lia.
      apply F2R_lt. reflexivity. }
    assert (bpow (Zpos (digits2_pos my) - 1 + xy) < bpow 52)%R by lra.
    apply bpow_lt_inv in H0. lia. }
  destruct (Math_round_nearest _ _ _ Ey Hxy) as (j & Hj & Er & Bj).
  exists j. unfold roundTwoPlaces. rewrite Er.
  assert (Evy : val (c * 100) = F2R (Zpos my) xy) by (unfold val; rewrite Ey; reflexivity).
  rewrite Evy. split; [|split; [reflexivity|exact Bj]].
  split; [|lia].
  rewrite F2R_0 in Byl.
  assert (IZR 130 < IZR j + / 2)%R by lra.
  assert (IZR 130 < IZR (j + 1))%R by (rewrite plus_IZR; lra).
  apply lt_IZR in H0. lia.
Qed.

(** *** Intervals *)

Lemma count_at_least_one r :
  Number_isInteger r = true -> (r =? 0) = false ->
  (1 <=? r + 1) = true -> (1 <=? r) = true.
Proof.
  intros Hi H0 H1.
  assert (F1 : finite_or_zero (Prim2SF 1)) by (rewrite Prim2SF_one; exact I).
  apply leb_lb; auto. rewrite val_one.
  apply leb_lb in H1; auto. rewrite val_one in H1.
  destruct (Prim2SF r) as [s|s| |s m e] eqn:E.
  - rewrite (eqb_zero r s E) in H0. discriminate.
  - unfold Number_isInteger in Hi. rewrite E in Hi. discriminate.
  - unfold Number_isInteger in Hi. rewrite E in Hi. discriminate.
  - pose proof (integer_magnitude r s m e Hi E) as Hm.
    destruct s.
    + exfalso. apply (lb_ub_absurd (r + 1)); [exact H1|].
      apply add_nonpos; auto.
      * rewrite E. exact I.
      * rewrite val_one. unfold val. rewrite E. unfold SF2R.
        rewrite F2R_cond_Zopp. lra.
    + unfold lb. rewrite E. simpl. exact Hm.
Qed.

Lemma interval_grows i e :
  (1 <=? i) = true -> (1.3 <=? e) = true -> (1 <=? Math_ceil (i * e)) = true.
Proof.
  intros Hi He.
  assert (F1 : finite_or_zero (Prim2SF 1)) by (rewrite Prim2SF_one; exact I).
  apply leb_lb in Hi; auto. rewrite val_one in Hi.
  apply leb_lb in He; [|rewrite Prim2SF_floor; exact I]. rewrite val_floor in He.
  apply leb_lb; auto. rewrite val_one.
  apply Math_ceil_lb; [lra|]. rewrite <- (F2R_0 1).
  apply mul_lb with 1%R (F2R 5854679515581645 (-52)); auto; try lra.
  - apply (F2R_pos 5854679515581645).
  - unfold repr. lia.
  - rewrite Rmult_1_l. apply F2R_leb_true. reflexivity.
Qed.

Lemma lb_two_not_small r :
  lb 2 r -> (r =? 0) = false /\ (r =? 1) = false.
Proof.
  intros L. split.
  - destruct (r =? 0) eqn:E; [|reflexivity].
    destruct (eqb_zero_inv r E) as [s Es]. unfold lb in L. rewrite Es in L.
    simpl in L. lra.
  - destruct (r =? 1) eqn:E; [|reflexivity].
    destruct (eqb_bounds r 1 ltac:(rewrite Prim2SF_one; exact I) E) as [_ U].
    rewrite val_one in U. unfold lb, ub in *.
    destruct (Prim2SF r); simpl in *; try congruence; try tauto; lra.
Qed.

Lemma product_not_below i e :
  lb 1 i -> (1.3 <=? e) = true -> (i <=? Math_ceil (i * e)) = true.
Proof.
  intros Li He.
  apply leb_lb in He; [|rewrite Prim2SF_floor; exact I]. rewrite val_floor in He.
  assert (P13 : (1 <= F2R 5854679515581645 (-52))%R).
  { rewrite <- (F2R_0 1). apply F2R_leb_true. reflexivity. }
  pose proof Li as Li'. unfold lb in Li'.
  destruct (SFlb_pos 1 _ ltac:(lra) Li') as [Ei|(m & x & Ei & Bi)].
  - (* an infinite interval stays infinite *)
    assert (Em : Prim2SF (i * e) = S754_infinity false).
    { rewrite FloatAxioms.mul_spec, Ei. unfold lb in He.
      destruct (SFlb_pos (F2R 5854679515581645 (-52)) _ ltac:(lra) He)
        as [Ee|(me & xe & Ee & _)];
        rewrite Ee; reflexivity. }
    rewrite FloatAxioms.leb_spec. unfold Math_ceil. rewrite Em, Em, Ei. reflexivity.
  - pose proof (Prim2SF_finite_valid i _ _ _ Ei) as Vi.
    assert (Ev : val i = F2R (Zpos m) x) by (unfold val; rewrite Ei; reflexivity).
    apply leb_lb; [rewrite Ei; exact I|]. rewrite Ev.
    apply Math_ceil_lb; [apply F2R_pos|].
    apply mul_lb with (F2R (Zpos m) x) (F2R 5854679515581645 (-52)).
    + apply F2R_pos.
    + lra.
    + unfold lb. rewrite Ei. simpl. lra.
    + exact He.
    + apply bounded_repr. exact Vi.
    + pose proof (F2R_pos m x). nra.
Qed.

(** *** Successive Easy reviews *)

Lemma easy_first now state s :
  (repetitions state =? 0) = true -> (1.3 <=? easeFactor state) = true ->
  sm2 now 5 state = Ok s -> after_first s.
Proof.
  intros H0 He H. destruct (sm2_inv _ _ _ _ H) as (Er & Ei & Ee & _).
  unfold schedule in Er, Ei. change (3 <=? 5) with true in Er, Ei.
  cbn [fst snd] in Er, Ei. rewrite H0 in Ei.
  repeat split; auto.
  - rewrite Er. apply zero_plus_one, H0.
  - rewrite Ee. apply ease_floor_easy, He.
Qed.

Lemma easy_second now state s :
  after_first state -> sm2 now 5 state = Ok s ->
  after_more s /\ intervalDays s = 6.
Proof.
  intros (R1 & _ & He) H. destruct (sm2_inv _ _ _ _ H) as (Er & Ei & Ee & _).
  unfold schedule in Er, Ei. change (3 <=? 5) with true in Er, Ei.
  cbn [fst snd] in Er, Ei. rewrite R1 in Er, Ei.
  change (1 =? 0) with false in Ei. change (1 =? 1) with true in Ei.
  change (1 + 1) with 2 in Er.
  split; [|exact Ei]. repeat split.
  - rewrite Er. unfold lb. simpl. rewrite <- (F2R_0 2). apply F2R_leb_true. reflexivity.
  - rewrite Ei. unfold lb. simpl. rewrite <- (F2R_0 1). apply F2R_leb_true. reflexivity.
  - rewrite Ee. apply ease_floor_easy, He.
Qed.

Lemma easy_later now state s :
  after_more state -> sm2 now 5 state = Ok s ->
  after_more s /\
  intervalDays s = Math_ceil (intervalDays state * easeFactor state) /\
  (intervalDays state <=? intervalDays s) = true.
Proof.
  intros (Lr & Li & He) H. destruct (sm2_inv _ _ _ _ H) as (Er & Ei & Ee & _).
  unfold schedule in Er, Ei. change (3 <=? 5) with true in Er, Ei.
  cbn [fst snd] in Er, Ei.
  destruct (lb_two_not_small _ Lr) as [N0 N1]. rewrite N0, N1 in Ei.
  assert (F1 : finite_or_zero (Prim2SF 1)) by (rewrite Prim2SF_one; exact I).
  assert (G : (1 <=? Math_ceil (intervalDays state * easeFactor state)) = true).
  { apply interval_grows; auto. apply leb_lb; auto. rewrite val_one. exact Li. }
  split; [|split].
  - repeat split.
    + rewrite Er, <- (F2R_0 2). apply add_lb with 2%R; auto.
      * unfold repr. lia.
      * rewrite F2R_0, val_one. lra.
    + rewrite Ei. apply leb_lb in G; auto. rewrite val_one in G. exact G.
    + rewrite Ee. apply ease_floor_easy, He.
  - exact Ei.
  - rewrite Ei. apply product_not_below; auto.
Qed.

Lemma reviews_succ clock quality n state s' :
  reviews clock quality (S n) state = Ok s' ->
  exists s, reviews clock quality n state = Ok s /\ sm2 (clock n) quality s = Ok s'.
Proof.
  simpl. destruct (reviews clock quality n state) as [s|e]; [eauto|discriminate].
Qed.

Lemma easy_reviews_invariant clock state n s :
  (repetitions state =? 0) = true -> (1.3 <=? easeFactor state) = true ->
  reviews clock 5 (S n) state = Ok s ->
  match n with O => after_first s | S _ => after_more s end.
Proof.
  intros H0 He. revert s. induction n as [|n IH]; intros s H.
  - destruct (reviews_succ _ _ _ _ _ H) as (s0 & E0 & Es).
    simpl in E0. injection E0 as <-. eapply easy_first; eauto.
  - destruct (reviews_succ _ _ _ _ _ H) as (s0 & E0 & Es).
    specialize (IH s0 E0). destruct n.
    + eapply easy_second; eauto.
    + eapply easy_later; eauto.
Qed.

(** *** A Neutral review *)

Lemma ub_val_le v x : ub v x -> (0 <= v)%R -> (val x <= v)%R.
Proof.
  unfold ub, val. destruct (Prim2SF x); simpl; intros H Hv; lra.
Qed.

Lemma neutral_lowers e :
  (1.3 <? e) = true -> (e <? 281474976710656) = true ->
  (roundTwoPlaces (clampEase (e + easeDelta 3)) <? e) = true /\
  (roundTwoPlaces (clampEase (e + easeDelta 3)) = 1.3 \/
   (val (roundTwoPlaces (clampEase (e + easeDelta 3)%float))
    <= val e - / 16)%R).
Proof.
  intros Hlo Hhi.
  assert (F13 : finite_or_zero (Prim2SF 1.3)) by (rewrite Prim2SF_floor; exact I).
  destruct (ltb_finite e 281474976710656 I Hhi) as [Einf|[Fe Hv48]].
  { destruct (ltb_bounds 1.3 e F13 Hlo) as [E'|[_ H]].
    - congruence.
    - unfold val in H. rewrite Einf in H. rewrite Prim2SF_floor in H. simpl in H.
      pose proof (F2R_pos 5854679515581645 (-52)). lra. }
  destruct (ltb_bounds 1.3 e F13 Hlo) as [E'|[_ Hv13]].
  { rewrite E' in Fe. destruct Fe. }
  rewrite val_floor in Hv13.
  assert (P13 : (1 < F2R 5854679515581645 (-52))%R).
  { apply Rlt_le_trans with (F2R 5 (-2)).
    - rewrite <- (F2R_0 1). unfold F2R, bpow. simpl. lra.
    - apply F2R_leb_true. reflexivity. }
  (* the mantissa and exponent of [e] *)
  destruct (lb_ub_positive (val e) (val e) e ltac:(lra) (lb_val e Fe) (ub_val e Fe))
    as (m & x & Ee & _).
  assert (Ev : val e = F2R (Zpos m) x) by (unfold val; rewrite Ee; reflexivity).
  rewrite Ev in *.
  pose proof (Prim2SF_finite_valid e _ _ _ Ee) as Ve.
  destruct (bounded_canonical m x Ve) as [Cx _]. rewrite fexp64 in Cx.
  pose proof (bounded_repr m x Ve) as [Hm _].
  pose proof (F2R_digits m x) as [Dl Du].
  assert (V48 : val 281474976710656 = bpow 48).
  { unfold val.
    replace (Prim2SF 281474976710656)
      with (S754_finite false 4503599627370496 (- 4)) by reflexivity.
    unfold SF2R, SpecFloat.cond_Zopp.
    change 4503599627370496%Z with (1 * 2 ^ 52)%Z.
    rewrite F2R_shift by lia. unfold F2R. simpl (- 4 + 52)%Z. lra. }
  rewrite V48 in Hv48.
  assert (Hx : (- 52 <= x <= - 5)%Z).
  { assert (bpow 0 < bpow (Zpos (digits2_pos m) + x))%R
      by (change (bpow 0) with 1%R; lra).
    assert (bpow (Zpos (digits2_pos m) - 1 + x) < bpow 48)%R by lra.
    apply bpow_lt_inv in H, H0.
    pose proof (digits2_bounds m) as [_ U].
    assert (Zpos (digits2_pos m) <= 53)%Z.
    { destruct (Z.le_gt_cases (Zpos (digits2_pos m)) 53); auto.
      assert (2 ^ 53 <= 2 ^ (Zpos (digits2_pos m) - 1))%Z
        by (apply Z.pow_le_mono_r; lia).
      pose proof (digits2_bounds m). lia. }
    lia. }
  set (t := (2 ^ (- 4 - x))%Z).
  assert (Ht : (2 <= t)%Z).
  { unfold t. change 2%Z with (2 ^ 1)%Z at 1. apply Z.pow_le_mono_r; lia. }
  assert (T16 : F2R t x = F2R 1 (- 4)) by (apply F2R_unit_fraction; lia).
  assert (T8 : F2R (2 * t) x = F2R 1 (- 3)).
  { rewrite <- (F2R_unit_fraction x (- 3)) by lia. f_equal. unfold t.
    replace (- 3 - x)%Z with (1 + (- 4 - x))%Z by lia.
    rewrite Z.pow_add_r by lia. reflexivity. }
  assert (T2 : F2R (8 * t) x = (/ 2)%R).
  { rewrite <- F2R_half, <- (F2R_unit_fraction x (- 1)) by lia. f_equal. unfold t.
    replace (- 1 - x)%Z with (3 + (- 4 - x))%Z by lia.
    rewrite Z.pow_add_r by lia. reflexivity. }
  assert (Hm2t : (2 * t < Zpos m)%Z).
  { apply (F2R_lt _ _ x). rewrite T8.
    assert (F2R 1 (- 3) <= F2R 1 0)%R by (apply F2R_leb_true; reflexivity).
    rewrite F2R_0 in H. lra. }
  (* the sum *)
  assert (U0 : ub (F2R (Zpos m - 2 * t) x) (e + easeDelta 3)).
  { apply add_ub.
    - exact Fe.
    - rewrite Prim2SF_neutral_delta. exact I.
    - unfold repr. lia.
    - lia.
    - rewrite Ev. unfold val at 1. rewrite Prim2SF_neutral_delta. unfold SF2R.
      rewrite F2R_cond_Zopp.
      replace (Zpos m - 2 * t)%Z with (Zpos m + - (2 * t))%Z by lia.
      rewrite F2R_add, F2R_opp, T8.
      assert (F2R 1 (- 3) <= F2R 5044031582654955 (- 55))%R
        by (apply F2R_leb_true; reflexivity).
      lra. }
  unfold clampEase. destruct (e + easeDelta 3 <? 1.3) eqn:Ec.
  { rewrite round_floor. split; [exact Hlo | left; reflexivity]. }
  assert (N0 : Prim2SF (e + easeDelta 3) <> S754_nan).
  { apply add_not_nan.
    - rewrite Ee. discriminate.
    - rewrite Prim2SF_neutral_delta. exact I. }
  pose proof (leb_of_not_ltb _ _ N0 ltac:(rewrite Prim2SF_floor; discriminate) Ec) as L0.
  apply leb_lb in L0; auto. rewrite val_floor in L0.
  set (e0 := e + easeDelta 3) in *.
  assert (P13' : (0 < F2R 5854679515581645 (-52))%R) by lra.
  destruct (lb_ub_positive _ _ e0 P13' L0 U0) as (m0 & x0 & E0 & B0l & B0u).
  (* the product *)
  set (My := ((100 * (Zpos m - 2 * t) + 127) / 128)%Z).
  assert (HMy : (100 * (Zpos m - 2 * t) <= My * 128 <= 100 * (Zpos m - 2 * t) + 127)%Z).
  { unfold My. pose proof (Z.mul_div_le (100 * (Zpos m - 2 * t) + 127) 128 ltac:(lia)).
    pose proof (Z.mul_succ_div_gt (100 * (Zpos m - 2 * t) + 127) 128 ltac:(lia)).
    lia. }
  assert (Uy : ub (F2R My (x + 7)) (e0 * 100)).
  { apply mul_ub with (1 := E0) (2 := Prim2SF_hundred).
    - unfold repr. lia.
    - lia.
    - rewrite F2R_hundred.
      apply Rle_trans with (F2R (Zpos m - 2 * t) x * F2R 100 0)%R.
      + rewrite F2R_0. assert (0 < IZR 100)%R by (apply IZR_lt; lia). nra.
      + rewrite F2R_mul, Z.add_0_r, <- F2R_shift by lia. apply F2R_le.
        change (2 ^ 7)%Z with 128%Z. lia. }
  assert (Ly : lb (F2R 130 0) (e0 * 100)).
  { apply mul_lb with (F2R 5854679515581645 (-52)) (F2R 7036874417766400 (-46)).
    - lra.
    - apply (F2R_pos 7036874417766400).
    - exact L0.
    - rewrite <- val_hundred. apply lb_val. rewrite Prim2SF_hundred. exact I.
    - unfold repr. lia.
    - rewrite F2R_mul. apply F2R_leb_true. reflexivity. }
  assert (P130 : (0 < F2R 130 0)%R) by (rewrite F2R_0; apply IZR_lt; lia).
  destruct (lb_ub_positive _ _ _ P130 Ly Uy) as (my & xy & Ey & Byl & Byu).
  (* the rounding to an integer *)
  pose proof (Math_round_ub _ _ _ Ey) as Un.
  assert (Ln : lb (F2R 130 0) (Math_round (e0 * 100))).
  { rewrite F2R_0 in Ly.
    destruct (Math_round_lb 130 _ ltac:(lia) Ly) as [En|Ln].
    - rewrite En, F2R_0. apply of_nonneg_bounds. lia.
    - rewrite F2R_0. apply (lb_weaken _ _ _ Ln). apply IZR_le. lia. }
  destruct (lb_ub_positive _ _ _ P130 Ln Un) as (mn & xn & En & Bnl & Bnu).
  (* the division *)
  assert (Ur : ub (F2R (Zpos m - t) x) (Math_round (e0 * 100) / 100)).
  { apply div_ub with (1 := En) (2 := Prim2SF_hundred).
    - rewrite F2R_hundred.
      assert (F2R 100 0 <= F2R 130 0)%R by (apply F2R_le; lia). lra.
    - unfold repr. lia.
    - lia.
    - rewrite F2R_hundred, F2R_mul, Z.add_0_r.
      apply Rle_trans with (F2R (My * 128 + 8 * t) x).
      + rewrite F2R_add, T2.
        replace (F2R (My * 128) x) with (F2R My (x + 7))
          by (rewrite <- F2R_shift by lia; reflexivity).
        lra.
      + apply F2R_le. lia. }
  unfold roundTwoPlaces. split.
  - apply ltb_ub with (F2R (Zpos m - t) x); auto.
    rewrite Ev. apply F2R_lt. lia.
  - right. apply Rle_trans with (F2R (Zpos m - t) x).
    + apply ub_val_le; [exact Ur|].
      apply Rlt_le. replace 0%R with (F2R 0 x) by (unfold F2R; simpl; ring).
      apply F2R_lt. lia.
    + replace (Zpos m - t)%Z with (Zpos m + - t)%Z by lia.
      rewrite F2R_add, F2R_opp, T16. unfold F2R, bpow. simpl. lra.
Qed.

(** *** The claims about [sm2] *)



(** C2.  Whatever the quality, and so on the success branch and on the
    failure branch alike, the ease factor of the returned state is the old
    one plus [0.1 - (5 - quality) * (0.08 + (5 - quality) * 0.02)], raised
    to 1.3 if below, then rounded to two decimal places.  The rounding
    yields [j / 100] for the integer [j] nearest to a hundred times the
    clamped value (a tie going up), for every clamped value below 2^45. *)
Theorem sm2_ease now quality state state' :
  sm2 now quality state = Ok state' ->
  let c := clampEase (easeFactor state + easeDelta quality) in
  easeFactor state' = roundTwoPlaces c /\
  ((c <? 35184372088832) = true ->
   exists j, (130 <= j < 2 ^ 53)%Z /\
             easeFactor state' = of_nonneg j / 100 /\
             (IZR j - / 2 <= val (c * 100) < IZR j + / 2)%R).
Proof.
  intros H c. pose proof (sm2_ease_eq _ _ _ _ H) as E. fold c in E.
  split; [exact E|]. intros Hc. rewrite E.
  apply roundTwoPlaces_nearest; [|exact Hc].
  exact (clampEase_lb c _ eq_refl Hc).
Qed.

Lemma sm2_ease_witness :
  exists s, sm2 0%Z 1 {| repetitions := 5; easeFactor := 2; intervalDays := 30;
                          nextReviewAt := 0%Z |} = Ok s /\
            easeFactor s = 1.46.
Proof.
  eexists. split; [reflexivity|].
  destruct (sm2_ease 0%Z 1
    {| repetitions := 5; easeFactor := 2; intervalDays := 30; nextReviewAt := 0%Z |}
    _ eq_refl) as [H _].
  rewrite H. reflexivity.
Defined.

(** C3.  For every state whose ease factor is at least 1.3 and every
    quality among 1, 3 and 5, the state [sm2] returns has an ease factor of
    at least 1.3: the clamp survives the rounding to two decimal places. *)
Theorem sm2_ease_floor now quality state state' :
  (1.3 <=? easeFactor state) = true ->
  quality = 1 \/ quality = 3 \/ quality = 5 ->
  sm2 now quality state = Ok state' ->
  (1.3 <=? easeFactor state') = true.
Proof.
  intros He Hq H. rewrite (sm2_ease_eq _ _ _ _ H).
  apply roundTwoPlaces_floor, clampEase_floor, add_not_nan.
  - apply leb_lb in He; [|rewrite Prim2SF_floor; exact I].
    exact (lb_not_nan _ _ He).
  - apply easeDelta_finite, Hq.
Qed.

Lemma sm2_ease_floor_witness :
  exists s, sm2 0%Z 1 {| repetitions := 4; easeFactor := 1.5; intervalDays := 10;
                          nextReviewAt := 0%Z |} = Ok s /\
            (1.3 <=? easeFactor s) = true.
Proof.
  eexists. split; [reflexivity|].
  apply (sm2_ease_floor 0%Z 1
    {| repetitions := 4; easeFactor := 1.5; intervalDays := 10; nextReviewAt := 0%Z |}).
  - reflexivity.
  - left. reflexivity.
  - reflexivity.
Defined.




(** C9.  [sm2] preserves "the interval is at least 1 whenever the
    repetitions are at least 1": for every quality and every state with an
    integral count of repetitions, an ease factor of at least 1.3 and that
    invariant, the returned state has the invariant again. *)
Theorem sm2_interval_invariant now quality state state' :
  Number_isInteger (repetitions state) = true ->
  (1.3 <=? easeFactor state) = true ->
  ((1 <=? repetitions state) = true -> (1 <=? intervalDays state) = true) ->
  sm2 now quality state = Ok state' ->
  (1 <=? repetitions state') = true -> (1 <=? intervalDays state') = true.
Proof.
  intros Hint He Hinv H Hr'.
  destruct (sm2_inv _ _ _ _ H) as (Er & Ei & _ & _).
  rewrite Er in Hr'. rewrite Ei. clear Er Ei. unfold schedule in *.
  destruct (3 <=? quality); cbn [fst snd] in *; [|reflexivity].
  destruct (repetitions state =? 0) eqn:E0; [reflexivity|].
  destruct (repetitions state =? 1) eqn:E1; [reflexivity|].
  apply interval_grows; [|exact He].
  apply Hinv, count_at_least_one; assumption.
Qed.

Lemma sm2_interval_invariant_witness :
  exists s, sm2 0%Z 3 {| repetitions := 2; easeFactor := 1.3; intervalDays := 1;
                          nextReviewAt := 0%Z |} = Ok s /\
            (1 <=? intervalDays s) = true.
Proof.
  eexists. split; [reflexivity|].
  apply (sm2_interval_invariant 0%Z 3
    {| repetitions := 2; easeFactor := 1.3; intervalDays := 1; nextReviewAt := 0%Z |});
    reflexivity.
Defined.

(** C8, as amended.  Starting from a state with no repetitions and an ease
    factor of at least 1.3, the intervals produced by successive Easy
    reviews never decrease: the first is 1, the second 6, and every later
    one is [ceil] of the previous interval times the ease factor the word
    has at that review, which every Easy review raises by 0.1. *)
Theorem easy_reviews_intervals clock state n s s' :
  (repetitions state =? 0) = true -> (1.3 <=? easeFactor state) = true ->
  reviews clock 5 (S n) state = Ok s ->
  reviews clock 5 (S (S n)) state = Ok s' ->
  (intervalDays s <=? intervalDays s') = true /\
  match n with
  | O => intervalDays s = 1 /\ intervalDays s' = 6
  | S _ => intervalDays s' = Math_ceil (intervalDays s * easeFactor s)
  end /\
  easeFactor s' = roundTwoPlaces (clampEase (easeFactor s + 0.1)).
Proof.
  intros H0 He Hs Hs'.
  pose proof (easy_reviews_invariant clock state n s H0 He Hs) as Inv.
  destruct (reviews_succ _ _ _ _ _ Hs') as (s0 & E0 & Es).
  rewrite Hs in E0. injection E0 as <-.
  pose proof (sm2_ease_eq _ _ _ _ Es) as Ee.
  destruct n.
  - destruct (easy_second _ _ _ Inv Es) as [_ E6].
    destruct Inv as (_ & E1 & _). rewrite E1, E6.
    split; [reflexivity|]. split; [auto|exact Ee].
  - destruct (easy_later _ _ _ Inv Es) as (_ & Ei & Hle).
    split; [exact Hle|]. split; [exact Ei|exact Ee].
Qed.

Lemma easy_reviews_intervals_witness :
  exists s s',
    reviews (fun _ => 0%Z) 5 2 freshState = Ok s /\
    reviews (fun _ => 0%Z) 5 3 freshState = Ok s' /\
    (intervalDays s <=? intervalDays s') = true /\
    intervalDays s' = Math_ceil (intervalDays s * easeFactor s).
Proof.
  eexists. eexists. split; [reflexivity|]. split; [reflexivity|].
  destruct (easy_reviews_intervals (fun _ => 0%Z) freshState 1 _ _
              eq_refl eq_refl eq_refl eq_refl) as (H1 & H2 & _).
  split; [exact H1|exact H2].
Defined.

(** C8 as stated fails: the ease factor does not stay fixed.  From the ease
    factor 2.5 the third interval is 17, not [ceil (6 * 2.5)] = 15. *)
Lemma easy_reviews_ease_not_fixed :
  exists s, reviews (fun _ => 0%Z) 5 3 freshState = Ok s /\
            intervalDays s = 17 /\
            Math_ceil (6 * easeFactor freshState) = 15 /\
            (intervalDays s =? Math_ceil (6 * easeFactor freshState)) = false.
Proof. eexists. repeat split. Qed.

(** The intervals outgrow the range of [Date]: from the fresh state the
    fifteenth successive Easy review still returns, with an interval of
    32304906 days, and the sixteenth raises [RangeError]. *)
Example easy_reviews_out_of_range :
  (exists s, reviews (fun _ => 1790000000000%Z) 5 15 freshState = Ok s /\
             intervalDays s = 32304906) /\
  reviews (fun _ => 1790000000000%Z) 5 16 freshState = Throw RangeError.
Proof. split; [eexists; split|]; vm_compute; reflexivity. Qed.

(** The update that a Neutral review adds before the clamp is the binary64
    number next to -0.14, and at the floor the ease factor stays put. *)
Lemma easeDelta_neutral : easeDelta 3 = (-0.13999999999999999)%float.
Proof. reflexivity. Qed.

Lemma neutral_review_at_floor now state state' :
  easeFactor state = 1.3 -> sm2 now 3 state = Ok state' ->
  easeFactor state' = 1.3.
Proof.
  intros E H. rewrite (sm2_ease_eq _ _ _ _ H), E. reflexivity.
Qed.

Lemma floor_cases e :
  finite_or_zero (Prim2SF e) -> (1.3 <=? e) = true ->
  e = 1.3 \/ (1.3 <? e) = true.
Proof.
  intros Fe He.
  assert (F13 : finite_or_zero (Prim2SF 1.3)) by (rewrite Prim2SF_floor; exact I).
  apply leb_lb in He; [|exact F13].
  assert (Hv : (val 1.3 <= val e)%R).
  { unfold lb, val in *. destruct (Prim2SF e); simpl in *; try tauto; lra. }
  destruct Hv as [Hlt|Heq].
  - right. apply ltb_ub with (val 1.3); auto. apply ub_val. exact F13.
  - left. symmetry.
    apply (lb_ub_unique (val 1.3)).
    + rewrite val_floor. apply (F2R_pos 5854679515581645).
    + apply lb_val. exact F13.
    + apply ub_val. exact F13.
    + exact He.
    + rewrite Heq. apply ub_val. exact Fe.
Qed.

(** Successive Neutral reviews: every one of them takes the ease factor to
    1.3 or at least 1/16 further down, so that after enough of them it is
    1.3. *)
Lemma neutral_reviews_descend clock state n s :
  (1.3 <=? easeFactor state) = true ->
  (easeFactor state <? 281474976710656) = true ->
  reviews clock 3 n state = Ok s ->
  finite_or_zero (Prim2SF (easeFactor s)) /\
  (1.3 <=? easeFactor s) = true /\
  (easeFactor s = 1.3 \/
   (val (easeFactor s) <= val (easeFactor state) - INR n / 16)%R).
Proof.
  intros Hlo Hhi.
  assert (F13 : finite_or_zero (Prim2SF 1.3)) by (rewrite Prim2SF_floor; exact I).
  assert (L0 : lb (val 1.3) (easeFactor state)) by (apply leb_lb; auto).
  destruct (ltb_finite _ 281474976710656 I Hhi) as [Einf|[F0 V0]].
  { unfold lb in L0. rewrite Einf in L0. discriminate. }
  revert s. induction n as [|n IH]; intros s H.
  - simpl in H. injection H as <-. split; [exact F0|]. split; [exact Hlo|].
    right. simpl. lra.
  - destruct (reviews_succ _ _ _ _ _ H) as (s0 & E0 & Es).
    destruct (IH s0 E0) as (Fs0 & Ls0 & Ds0).
    pose proof (sm2_ease_eq _ _ _ _ Es) as Ee.
    assert (At : easeFactor s0 = 1.3 ->
                 finite_or_zero (Prim2SF (easeFactor s)) /\
                 (1.3 <=? easeFactor s) = true /\
                 (easeFactor s = 1.3 \/
                  (val (easeFactor s)
                   <= val (easeFactor state) - INR (S n) / 16)%R)).
    { intros E. rewrite E in Ee. change (easeFactor s = 1.3) in Ee.
      rewrite Ee. split; [exact F13|]. split; [reflexivity|]. left. reflexivity. }
    destruct (floor_cases _ Fs0 Ls0) as [E13|Hgt]; [exact (At E13)|].
    destruct Ds0 as [E13|Dv]; [exact (At E13)|].
    assert (Hn : (0 <= INR n)%R) by apply pos_INR.
    assert (Hlt : (easeFactor s0 <? 281474976710656) = true).
    { apply ltb_ub with (val (easeFactor s0)); [exact I|apply ub_val; exact Fs0|lra]. }
    destruct (neutral_lowers _ Hgt Hlt) as [Hdec Hstep].
    rewrite <- Ee in Hdec, Hstep.
    assert (Ls : (1.3 <=? easeFactor s) = true).
    { rewrite Ee. apply roundTwoPlaces_floor, clampEase_floor, add_not_nan.
      - destruct (Prim2SF (easeFactor s0)); simpl in Fs0; try tauto; discriminate.
      - exact I. }
    split; [|split; [exact Ls|]].
    + destruct (ltb_finite _ _ Fs0 Hdec) as [Einf|[F _]]; [|exact F].
      apply leb_lb in Ls; [|exact F13]. unfold lb in Ls. rewrite Einf in Ls.
      discriminate.
    + destruct Hstep as [E|Hv]; [left; exact E|right].
      rewrite S_INR. lra.
Qed.

Lemma neutral_reviews_reach_floor clock state n s :
  (1.3 <=? easeFactor state) = true ->
  (easeFactor state <? 281474976710656) = true ->
  (val (easeFactor state) - INR n / 16 < val 1.3)%R ->
  reviews clock 3 n state = Ok s ->
  easeFactor s = 1.3.
Proof.
  intros Hlo Hhi Hn H.
  destruct (neutral_reviews_descend _ _ _ _ Hlo Hhi H) as (Fs & Ls & [E|Hv]);
    [exact E|].
  apply leb_lb in Ls; [|rewrite Prim2SF_floor; exact I].
  unfold lb, val in *.
  destruct (Prim2SF (easeFactor s)); simpl in *; try tauto; lra.
Qed.

(** From the defaults of a new word, nine Neutral reviews reach the floor. *)
Example neutral_reviews_from_default :
  exists s, reviews (fun _ => 0%Z) 3 9 freshState = Ok s /\
            easeFactor s = 1.3 /\ repetitions s = 9.
Proof. eexists. split; [|split]; vm_compute; reflexivity. Qed.




End SM2Facts.

(** ** The word store *)

Module WordsFacts.
Import JS Words Scenario.
Local Open Scope Z_scope.

Lemma insert_by_perm key w l : Permutation (w :: l) (insert_by key w l).
Proof.
  induction l as [|v l IH]; simpl.
  - apply Permutation_refl.
  - destruct (key w <=? key v).
    + apply Permutation_refl.
    + eapply Permutation_trans; [apply perm_swap|]. apply perm_skip, IH.
Qed.

Lemma order_perm key l : Permutation l (order key l).
Proof.
  induction l as [|w l IH]; simpl.
  - apply perm_nil.
  - eapply Permutation_trans; [apply perm_skip, IH|]. apply insert_by_perm.
Qed.

Lemma insert_by_sorted key w l :
  StronglySorted (fun a b => key a <= key b) l ->
  StronglySorted (fun a b => key a <= key b) (insert_by key w l).
Proof.
  induction 1 as [|v l Hs IH Hv]; simpl.
  - constructor; constructor.
  - destruct (Z.leb_spec (key w) (key v)) as [L|G].
    + constructor; [constructor; assumption|].
      constructor; [exact L|].
      rewrite Forall_forall in *. intros u Hu. specialize (Hv u Hu). lia.
    + constructor; [exact IH|].
      rewrite Forall_forall in *. intros u Hu.
      apply (Permutation_in _ (Permutation_sym (insert_by_perm key w l))) in Hu.
      destruct Hu as [<-|Hu]; [lia|auto].
Qed.

Lemma order_sorted key l : StronglySorted (fun a b => key a <= key b) (order key l).
Proof.
  induction l as [|w l IH]; simpl; [constructor|]. apply insert_by_sorted, IH.
Qed.

(** C7.  The query of [getDueWords] returns exactly the words whose
    [next_review_at] is at most [now] (each as often as it is stored),
    in ascending order of [next_review_at], the most overdue first. *)
Theorem getDueWords_due_ascending db now :
  fault db = None ->
  exists due,
    getDueWords db now = Ok due /\
    (forall w, In w due <-> In w (rows db) /\ next_review_at w <= now) /\
    Permutation due (filter (fun w => next_review_at w <=? now) (rows db)) /\
    StronglySorted byReviewTime due.
Proof.
  intros Hf. unfold getDueWords. rewrite Hf. eexists. split; [reflexivity|].
  unfold lte.
  set (due := filter (fun w => next_review_at w <=? now) (rows db)).
  pose proof (order_perm next_review_at due) as P.
  split; [|split].
  - intros w. split.
    + intros H. apply (Permutation_in _ (Permutation_sym P)) in H.
      unfold due in H. apply filter_In in H. destruct H as [H1 H2].
      apply Z.leb_le in H2. auto.
    + intros [H1 H2]. apply (Permutation_in _ P). unfold due.
      apply filter_In. split; [exact H1|]. apply Z.leb_le. exact H2.
  - apply Permutation_sym, P.
  - apply order_sorted.
Qed.

Lemma getDueWords_due_ascending_witness :
  exists due,
    getDueWords scenarioD today = Ok due /\
    (forall w, In w due <-> In w (rows scenarioD) /\ next_review_at w <= today) /\
    Permutation due
      (filter (fun w => next_review_at w <=? today) (rows scenarioD)) /\
    StronglySorted byReviewTime due.
Proof. apply (getDueWords_due_ascending scenarioD today). reflexivity. Defined.

End WordsFacts.

(** ** The review session *)

Module ReviewFacts.
Import JS Words Review Scenario.


Lemma updateWord_failure db i u e :
  fst (updateWord db i u) = Throw e -> updateWord db i u = (Throw e, db).
Proof.
  unfold updateWord. destruct (fault db) as [e'|].
  - simpl. congruence.
  - destruct (updateRow i u (rows db)) as [[r l]|]; simpl; congruence.
Qed.

(** Scenario D: words due 3, 1 and 5 days ago come back, and are presented,
    in the order 5, 3, 1 days ago. *)
Example scenarioD_order :
  getDueWords scenarioD today = Ok [wordC; wordA; wordB] /\
  let p0 := loadDueWords scenarioD today initialPage in
  currentWord p0 = Some wordC /\
  exists p1 db1 r1 l1 p2 db2 r2 l2,
    run (handleReview today p0 5%float) scenarioD = (Returned p1, db1, r1, l1) /\
    currentWord p1 = Some wordA /\
    run (handleReview today p1 5%float) db1 = (Returned p2, db2, r2, l2) /\
    currentWord p2 = Some wordB.
Proof.
  split; [reflexivity|]. split; [reflexivity|].
  do 8 eexists. split; [reflexivity|]. split; [reflexivity|].
  split; reflexivity.
Qed.



(** C6, as amended.  If the store refuses the update of a reviewed word,
    the session does not advance: [handleReview] leaves the component state
    as it was (cursor, reviewed count, revealed flag and session-complete
    flag, so the same word stays presented with its rating controls), leaves
    the store as it was, writes the error to the console, and returns
    normally. *)
Theorem handleReview_failure now p quality w newState db e :
  currentWord p = Some w ->
  SM2.sm2 now quality (stateOf w) = Ok newState ->
  fst (updateWord db (id w) (reviewUpdate newState (categoryOf quality))) = Throw e ->
  run (handleReview now p quality) db
  = (Returned p, db,
     [(id w, reviewUpdate newState (categoryOf quality))],
     [("Failed to update word:"%string, e)]).
Proof.
  intros Hw Hs Hu. apply updateWord_failure in Hu.
  unfold handleReview. rewrite Hw. fold (stateOf w). rewrite Hs. simpl.
  rewrite Hu. reflexivity.
Qed.

Lemma handleReview_failure_witness :
  exists reqs,
    run (handleReview today sessionD 1%float) unreachable
    = (Returned sessionD, unreachable, reqs,
       [("Failed to update word:"%string, PostgrestError "503")]).
Proof.
  eexists.
  exact (handleReview_failure today sessionD 1%float wordC _ unreachable
           (PostgrestError "503") eq_refl eq_refl eq_refl).
Defined.

(** C6 as stated fails: the store refuses the update, and the handler
    returns normally; no error reaches its caller. *)
Lemma handleReview_swallows_error :
  exists newState,
    SM2.sm2 today 1%float (stateOf wordC) = Ok newState /\
    fst (updateWord unreachable (id wordC)
           (reviewUpdate newState (categoryOf 1%float)))
    = Throw (PostgrestError "503") /\
    fst (fst (fst (run (handleReview today sessionD 1%float) unreachable)))
    = Returned sessionD /\
    forall e,
      fst (fst (fst (run (handleReview today sessionD 1%float) unreachable)))
      <> Raised e.
Proof.
  eexists. split; [reflexivity|]. split; [reflexivity|]. split; [reflexivity|].
  intros e. simpl. discriminate.
Qed.

End ReviewFacts.

(** ** Saved words: listing, creating, deleting, updating *)

Module WordsCrudFacts.
Import JS Words WordsCrud WordsFacts Scenario Lookup.
Local Open Scope Z_scope.

Lemma StronglySorted_weaken {A} (R R' : A -> A -> Prop) l :
  (forall a b, R a b -> R' a b) -> StronglySorted R l -> StronglySorted R' l.
Proof.
  intros H. induction 1 as [|a l Hs IH Ha]; constructor; auto.
  rewrite Forall_forall in *. auto.
Qed.

Lemma filter_all {A} (f : A -> bool) l :
  (forall a, In a l -> f a = true) -> filter f l = l.
Proof.
  induction l as [|a l IH]; simpl; intros H; [reflexivity|].
  rewrite (H a) by auto. f_equal. apply IH. auto.
Qed.




Lemma updateRow_none i u l :
  updateRow i u l = None <-> (forall w, In w l -> id w <> i).
Proof.
  induction l as [|w l IH]; simpl.
  - split; [intros _ w []|reflexivity].
  - destruct (String.eqb_spec (id w) i) as [E|N].
    + split; [discriminate|]. intros H. exfalso. apply (H w); auto.
    + destruct (updateRow i u l) as [[r l']|].
      * split; [discriminate|]. intros H.
        assert (H' : forall w0, In w0 l -> id w0 <> i) by auto.
        apply IH in H'. discriminate.
      * split; [|reflexivity]. intros _ w0 [<-|H0]; [exact N|].
        apply (proj1 IH eq_refl w0 H0).
Qed.


(** X1.  [getAllWords] answers with every row the user has, the newest first;
    it fails exactly when the store does. *)
Theorem getAllWords_newest_first db :
  match getAllWords db with
  | Ok l =>
      fault db = None /\ Permutation l (rows db) /\
      StronglySorted (fun a b => created_at b <= created_at a) l
  | Throw e => fault db = Some e
  end.
Proof.
  unfold getAllWords. destruct (fault db) as [e|]; [reflexivity|].
  split; [reflexivity|]. split.
  - apply Permutation_sym, order_perm.
  - eapply StronglySorted_weaken; [|apply order_sorted].
    simpl. intros a b H. lia.
Qed.

Lemma insertWord_fresh db newId createdAt w :
  fault db = None ->
  (forall r, In r (rows db) -> id r <> newId /\ word r <> new_word w) ->
  insertWord db newId createdAt w
  = (Ok (newRow newId createdAt w),
     {| rows := rows db ++ [newRow newId createdAt w]; fault := None |}).
Proof.
  intros Hf Hnew. unfold insertWord. rewrite Hf.
  destruct (existsb _ (rows db)) eqn:E; [|reflexivity].
  apply existsb_exists in E. destruct E as (r & Hr & Hb).
  destruct (Hnew r Hr) as [N1 N2]. apply orb_true_iff in Hb.
  destruct Hb as [Hb|Hb]; apply String.eqb_eq in Hb; contradiction.
Qed.

Lemma insertWord_known db newId createdAt w r :
  fault db = None -> In r (rows db) -> word r = new_word w ->
  insertWord db newId createdAt w = (Throw (PostgrestError "23505"), db).
Proof.
  intros Hf Hr Hw. unfold insertWord. rewrite Hf.
  destruct (existsb _ (rows db)) eqn:E; [reflexivity|].
  assert (existsb (fun r => String.eqb (id r) newId
                            || String.eqb (word r) (new_word w))%bool (rows db)
          = true); [|congruence].
  apply existsb_exists. exists r. split; [exact Hr|].
  rewrite Hw, String.eqb_refl. apply orb_true_r.
Qed.

(** X2.  A call of [createWord] that is rejected leaves the store as it was.
    It is rejected with "Not authenticated" when nobody is signed in,
    without a request to the table; with "Word already exists in your
    vocabulary" when a key is taken (the user has the word already, or a
    row has the id drawn); and when the store itself fails, with the error
    of the store, a 23505 among them being reported as an existing word
    too. *)
Theorem createWord_rejected user db newId createdAt w x db' :
  createWord user db newId createdAt w = (Rejected x, db') ->
  db' = db /\
  (user = None -> x = NewError "Not authenticated") /\
  (user <> None -> fault db = None ->
   x = NewError "Word already exists in your vocabulary" /\
   exists r, In r (rows db) /\ (id r = newId \/ word r = new_word w)) /\
  (user <> None -> forall e, fault db = Some e ->
   x = if hasCode e "23505"
       then NewError "Word already exists in your vocabulary"
       else Response e).
Proof.
  unfold createWord, insertWord. intros H.
  destruct user as [u|].
  - destruct (fault db) as [e|] eqn:Ef.
    + destruct (hasCode e "23505") eqn:Ec; injection H as <- <-;
        (split; [reflexivity|]); (split; [discriminate|]);
        (split; [discriminate|]); intros _ e' He';
        injection He' as <-; rewrite Ec; reflexivity.
    + destruct (existsb _ (rows db)) eqn:Ex.
      * simpl in H. injection H as <- <-. split; [reflexivity|].
        split; [discriminate|]. split; [|discriminate].
        intros _ _. split; [reflexivity|].
        apply existsb_exists in Ex. destruct Ex as (r & Hr & Hb).
        exists r. split; [exact Hr|]. apply orb_true_iff in Hb.
        destruct Hb as [Hb|Hb]; apply String.eqb_eq in Hb; auto.
      * discriminate.
  - injection H as <- <-. split; [reflexivity|]. split; [reflexivity|].
    split; intros N; exfalso; apply N; reflexivity.
Qed.

Lemma createWord_rejected_witness :
  exists x,
    createWord signedIn scenarioD "e" 0
      (Popup.wordToSave (entry "a") 0)
    = (Rejected x, scenarioD) /\
    x = NewError "Word already exists in your vocabulary".
Proof.
  eexists. split; [reflexivity|].
  destruct (createWord_rejected signedIn scenarioD "e" 0
              (Popup.wordToSave (entry "a") 0)
              (NewError "Word already exists in your vocabulary") scenarioD eq_refl)
    as (_ & _ & H & _).
  destruct (H ltac:(discriminate) eq_refl) as [E _]. exact E.
Defined.

(** X3.  A call of [createWord] by a signed-in user, for a word the user does
    not have yet, stores one more row and returns it: the row has the
    fields given, the other rows are as they were, and [getAllWords] lists
    it from then on. *)
Theorem createWord_stores user db newId createdAt w :
  user <> None -> fault db = None ->
  (forall r, In r (rows db) -> id r <> newId /\ word r <> new_word w) ->
  exists db',
    createWord user db newId createdAt w
    = (Fulfilled (newRow newId createdAt w), db') /\
    rows db' = rows db ++ [newRow newId createdAt w] /\
    fault db' = None /\
    exists l, getAllWords db' = Ok l /\ In (newRow newId createdAt w) l.
Proof.
  intros Hu Hf Hnew. unfold createWord.
  destruct user as [u|]; [|congruence].
  rewrite (insertWord_fresh _ _ _ _ Hf Hnew).
  eexists. split; [reflexivity|]. simpl.
  split; [reflexivity|]. split; [reflexivity|].
  unfold getAllWords. simpl. eexists. split; [reflexivity|].
  apply (Permutation_in _ (order_perm _ _)). apply in_or_app. right. left.
  reflexivity.
Qed.

Lemma createWord_stores_witness :
  exists db' l,
    createWord signedIn scenarioD "e" 0
      (Popup.wordToSave (entry "e") 0)
    = (Fulfilled (savedWord "e" 0), db') /\
    getAllWords db' = Ok l /\ In (savedWord "e" 0) l.
Proof.
  destruct (createWord_stores signedIn scenarioD "e" 0
    (Popup.wordToSave (entry "e") 0))
    as (db' & H1 & _ & _ & l & H2 & H3).
  - discriminate.
  - reflexivity.
  - intros r H. simpl in H.
    destruct H as [<-|[<-|[<-|[<-|[]]]]]; split; discriminate.
  - exists db', l. auto.
Defined.

(** X4.  [createWord] keeps the ids and the words of the user's rows free of
    duplicates, whatever its outcome. *)
Theorem createWord_keeps_unique user db newId createdAt w :
  NoDup (map id (rows db)) -> NoDup (map word (rows db)) ->
  NoDup (map id (rows (snd (createWord user db newId createdAt w)))) /\
  NoDup (map word (rows (snd (createWord user db newId createdAt w)))).
Proof.
  intros Hi Hw. unfold createWord, insertWord.
  destruct user as [u|]; [|auto].
  destruct (fault db) as [e|]; [destruct (hasCode e "23505"); auto|].
  destruct (existsb _ (rows db)) eqn:Ex; [simpl; auto|].
  simpl. rewrite !map_app. simpl.
  assert (Hnew : forall r, In r (rows db) -> id r <> newId /\ word r <> new_word w).
  { intros r Hr. split; intros E.
    - assert (existsb (fun r => String.eqb (id r) newId
                                || String.eqb (word r) (new_word w))%bool (rows db)
              = true); [|congruence].
      apply existsb_exists. exists r. split; [exact Hr|].
      rewrite E, String.eqb_refl. reflexivity.
    - assert (existsb (fun r => String.eqb (id r) newId
                                || String.eqb (word r) (new_word w))%bool (rows db)
              = true); [|congruence].
      apply existsb_exists. exists r. split; [exact Hr|].
      rewrite E, String.eqb_refl. apply orb_true_r. }
  split.
  - apply NoDup_app; [exact Hi|repeat constructor; intros []|].
    intros a Ha [<-|[]]. apply in_map_iff in Ha. destruct Ha as (r & Er & Hr).
    destruct (Hnew r Hr). congruence.
  - apply NoDup_app; [exact Hw|repeat constructor; intros []|].
    intros a Ha [<-|[]]. apply in_map_iff in Ha. destruct Ha as (r & Er & Hr).
    destruct (Hnew r Hr). congruence.
Qed.

Lemma createWord_keeps_unique_witness :
  NoDup (map word (rows (snd (createWord signedIn scenarioD "e" 0
    (Popup.wordToSave (entry "a") 0))))).
Proof.
  apply (createWord_keeps_unique signedIn scenarioD "e" 0).
  - simpl. repeat constructor; simpl; intuition discriminate.
  - simpl. repeat constructor; simpl; intuition discriminate.
Defined.

(** X5.  [deleteWord] removes the rows with the id and no other, and keeps the
    order of the rest.  An id no row has is no error: the call returns and
    the rows are as they were.  After the call, [updateWord] on the id
    fails with PGRST116 and changes nothing, and [getAllWords] and
    [getDueWords] list no row with the id. *)
Theorem deleteWord_removes db i :
  fault db = None ->
  exists db',
    deleteWord db i = (Ok tt, db') /\
    (forall w, In w (rows db') <-> In w (rows db) /\ id w <> i) /\
    ((forall w, In w (rows db) -> id w <> i) -> rows db' = rows db) /\
    (forall u, updateWord db' i u = (Throw (PostgrestError "PGRST116"), db')) /\
    (forall l w, getAllWords db' = Ok l -> In w l -> id w <> i) /\
    (forall now l w, getDueWords db' now = Ok l -> In w l -> id w <> i) /\
    deleteWord db' i = (Ok tt, db').
Proof.
  intros Hf. unfold deleteWord. rewrite Hf. eexists. split; [reflexivity|].
  simpl.
  assert (Hin : forall w,
    In w (filter (fun w => negb (String.eqb (id w) i)) (rows db))
    <-> In w (rows db) /\ id w <> i).
  { intros w. rewrite filter_In. split; intros [H1 H2]; split; auto.
    - intros E. rewrite E, String.eqb_refl in H2. discriminate.
    - destruct (String.eqb_spec (id w) i); [contradiction|reflexivity]. }
  split; [exact Hin|]. split; [|split; [|split; [|split]]].
  - intros H. apply filter_all. intros w Hw. specialize (H w Hw).
    destruct (String.eqb_spec (id w) i); [contradiction|reflexivity].
  - intros u. unfold updateWord. simpl.
    replace (updateRow i u (filter _ (rows db))) with (@None (VocabWord * list VocabWord));
      [reflexivity|].
    symmetry. apply updateRow_none. intros w Hw. apply Hin in Hw. tauto.
  - unfold getAllWords. simpl. intros l w H Hw. injection H as <-.
    apply (Permutation_in _ (Permutation_sym (order_perm _ _))) in Hw.
    apply Hin in Hw. tauto.
  - unfold getDueWords, lte. simpl. intros now l w H Hw. injection H as <-.
    apply (Permutation_in _ (Permutation_sym (order_perm _ _))) in Hw.
    apply filter_In in Hw. destruct Hw as [Hw _]. apply Hin in Hw. tauto.
  - f_equal. f_equal. apply filter_all. intros w Hw.
    apply Hin in Hw. destruct Hw as [_ N].
    destruct (String.eqb_spec (id w) i); [contradiction|reflexivity].
Qed.

Lemma deleteWord_removes_witness :
  exists db',
    deleteWord scenarioD "a" = (Ok tt, db') /\
    rows db' = [wordB; wordC; wordD] /\
    forall u, updateWord db' "a" u = (Throw (PostgrestError "PGRST116"), db').
Proof.
  destruct (deleteWord_removes scenarioD "a" eq_refl) as (db' & H & _ & _ & Hu & _).
  exists db'. split; [exact H|]. split; [|exact Hu].
  injection H as <-. reflexivity.
Defined.



End WordsCrudFacts.

(** ** Saving a word from the popup *)

Module PopupFacts.
Import JS WordsCrud Popup WordsFacts WordsCrudFacts Scenario Lookup.
Local Open Scope Z_scope.

Lemma getDueWords_lists db now w :
  Words.fault db = None -> In w (Words.rows db) ->
  (Words.next_review_at w <= now) ->
  exists due, Words.getDueWords db now = Ok due /\ In w due.
Proof.
  intros Hf Hw Hn. unfold Words.getDueWords. rewrite Hf.
  eexists. split; [reflexivity|].
  apply (Permutation_in _ (order_perm _ _)). unfold Words.lte.
  apply filter_In. split; [exact Hw|]. apply Z.leb_le. exact Hn.
Qed.

(** X7.  Saving a word the user does not have yet stores it with the state of a
    new word (no repetitions, ease factor 2.5, interval 0, category
    "learning") and a review date equal to the browser's clock reading: the
    word is due at once, [getDueWords] lists it at that instant and at every
    later one.  The popup shows the word as saved. *)
Theorem saveWord_makes_due describe user db newId createdAt now p d :
  data p = Some d -> saving p = false ->
  user <> None -> Words.fault db = None ->
  (forall r, In r (Words.rows db) ->
             Words.id r <> newId /\ Words.word r <> word d) ->
  exists db',
    saveWord describe user db newId createdAt now p
    = ({| data := data p; loading := loading p; saved := true; saving := false |},
       db', []) /\
    Words.rows db' = Words.rows db ++ [newRow newId createdAt (wordToSave d now)] /\
    Words.repetitions (newRow newId createdAt (wordToSave d now)) = 0%float /\
    Words.ease_factor (newRow newId createdAt (wordToSave d now)) = 2.5%float /\
    Words.interval_days (newRow newId createdAt (wordToSave d now)) = 0%float /\
    Words.category (newRow newId createdAt (wordToSave d now)) = "learning"%string /\
    forall now', now <= now' ->
      exists due, Words.getDueWords db' now' = Ok due /\
                  In (newRow newId createdAt (wordToSave d now)) due.
Proof.
  intros Hd Hs Hu Hf Hnew. unfold saveWord. rewrite Hd, Hs. unfold createWord.
  destruct user as [u|]; [|congruence].
  rewrite (insertWord_fresh db newId createdAt (wordToSave d now) Hf Hnew).
  eexists. split; [reflexivity|]. simpl.
  repeat (split; [reflexivity|]).
  intros now' Hn. apply getDueWords_lists; simpl; auto.
  apply in_or_app. right. left. reflexivity.
Qed.

Lemma saveWord_makes_due_witness :
  exists db' due,
    saveWord (fun _ => EmptyString) signedIn scenarioD "e" 0 today (popup "e")
    = ({| data := Some (entry "e"); loading := false; saved := true;
          saving := false |}, db', []) /\
    Words.getDueWords db' today = Ok due /\ In (savedWord "e" today) due.
Proof.
  destruct (saveWord_makes_due (fun _ => EmptyString) signedIn scenarioD "e" 0
              today (popup "e") (entry "e")) as (db' & H1 & _ & _ & _ & _ & _ & H2).
  - reflexivity.
  - reflexivity.
  - discriminate.
  - reflexivity.
  - intros r H. simpl in H.
    destruct H as [<-|[<-|[<-|[<-|[]]]]]; split; discriminate.
  - destruct (H2 today (Z.le_refl _)) as (due & Hd & Hin).
    exists db', due. split; [exact H1|]. split; [exact Hd|]. exact Hin.
Defined.

(** X8.  Saving a word the user has already is no failure for the user: the
    store refuses the second row, [createWord] reports that the word
    exists, and the popup shows the word as saved; the store is as it was
    and nothing is written to the console. *)
Theorem saveWord_known_word describe user db newId createdAt now p d r :
  data p = Some d -> saving p = false ->
  user <> None -> Words.fault db = None ->
  In r (Words.rows db) -> Words.word r = word d ->
  saveWord describe user db newId createdAt now p
  = ({| data := data p; loading := loading p; saved := true; saving := false |},
     db, []).
Proof.
  intros Hd Hs Hu Hf Hr Hw. unfold saveWord. rewrite Hd, Hs. unfold createWord.
  destruct user as [u|]; [|congruence].
  rewrite (insertWord_known db newId createdAt (wordToSave d now) r Hf Hr Hw).
  reflexivity.
Qed.

Lemma saveWord_known_word_witness :
  saveWord (fun _ => EmptyString) signedIn scenarioD "e" today today (popup "a")
  = ({| data := Some (entry "a"); loading := false; saved := true;
        saving := false |}, scenarioD, []).
Proof.
  apply (saveWord_known_word (fun _ => EmptyString) signedIn scenarioD "e" today
           today (popup "a") (entry "a") wordA).
  - reflexivity.
  - reflexivity.
  - discriminate.
  - reflexivity.
  - left. reflexivity.
  - reflexivity.
Defined.

(** X9.  Whatever happens, [saveWord] keeps what the store has and what the
    popup shows: the rows the store had are still there, unchanged and in
    place, with at most one row added behind them; a word shown as saved
    stays so; the saving flag is off when the function is done; and a
    call made while another one is saving, or before the look-up has
    answered, does nothing at all.  When nobody is signed in, nothing is
    stored, the word is not shown as saved, and the failure is written to
    the console. *)
Theorem saveWord_safe describe user db newId createdAt now p :
  let '(p', db', logs) := saveWord describe user db newId createdAt now p in
  data p' = data p /\ loading p' = loading p /\
  (saved p = true -> saved p' = true) /\
  (saving p = false -> saving p' = false) /\
  (data p = None \/ saving p = true -> p' = p /\ db' = db /\ logs = []) /\
  (db' = db \/
   exists r, Words.rows db' = Words.rows db ++ [r] /\ saved p' = true /\
             logs = []) /\
  (user = None -> saving p = false -> forall d, data p = Some d ->
   db' = db /\ saved p' = saved p /\
   logs = [("Failed to save word:"%string, NewError "Not authenticated")]).
Proof.
  unfold saveWord. destruct (data p) as [d|] eqn:Hd.
  2:{ split; [auto|]. split; [auto|]. split; [auto|].
      split; [auto|]. split; [auto|]. split; [left; reflexivity|].
      intros _ _ d0 H0. discriminate. }
  destruct (saving p) eqn:Hs.
  { split; [auto|]. split; [auto|]. split; [auto|].
    split; [discriminate|]. split; [auto|]. split; [left; reflexivity|].
    intros _ H0. discriminate. }
  assert (Hc : forall a db',
            createWord user db newId createdAt (wordToSave d now) = (a, db') ->
            match a with
            | Fulfilled _ =>
                user <> None /\ exists r, Words.rows db' = Words.rows db ++ [r]
            | Rejected x =>
                db' = db /\ (user = None -> x = NewError "Not authenticated")
            end).
  { intros a db' Ec. unfold createWord in Ec. destruct user as [u|].
    - unfold insertWord in Ec. destruct (Words.fault db) as [e|].
      + destruct (hasCode e "23505"); injection Ec as <- <-;
          (split; [reflexivity|discriminate]).
      + destruct (existsb _ (Words.rows db)).
        * simpl in Ec. injection Ec as <- <-. split; [reflexivity|discriminate].
        * injection Ec as <- <-. split; [discriminate|]. simpl. eauto.
    - injection Ec as <- <-. split; [reflexivity|reflexivity]. }
  destruct (createWord user db newId createdAt (wordToSave d now))
    as [[r|x] db'] eqn:Ec; specialize (Hc _ _ eq_refl); simpl in Hc.
  - destruct Hc as [Hu (r0 & Hr0)].
    split; [auto|]. split; [auto|]. split; [auto|].
    split; [auto|]. split; [intros [H0|H0]; discriminate|].
    split; [right; exists r0; auto|]. intros H0. contradiction.
  - destruct Hc as [-> Hx].
    destruct (includes (messageOf describe x) "already exists") eqn:Ei.
    + split; [auto|]. split; [auto|]. split; [auto|].
      split; [auto|]. split; [intros [H0|H0]; discriminate|].
      split; [left; reflexivity|]. intros H0. rewrite (Hx H0) in Ei.
      discriminate.
    + split; [auto|]. split; [auto|]. split; [auto|].
      split; [auto|]. split; [intros [H0|H0]; discriminate|].
      split; [left; reflexivity|]. intros H0 _ d0 _. rewrite (Hx H0).
      auto.
Qed.

End PopupFacts.

(** ** The review page: what it shows, and whole sessions *)

Module ReviewViewFacts.
Import JS Words Review ReviewView WordsFacts WordsCrudFacts Scenario.
Import Binary64 Binary64Facts NumberFacts NumberOrder SM2Facts.
Local Open Scope Z_scope.




(** How a run of [handleReview] can end. *)
Lemma handleReview_run now p quality db :
  match currentWord p with
  | None => run (handleReview now p quality) db = (Returned p, db, [], [])
  | Some w =>
      match SM2.sm2 now quality (stateOf w) with
      | Throw e => run (handleReview now p quality) db = (Raised e, db, [], [])
      | Ok s =>
          match updateWord db (id w) (reviewUpdate s (categoryOf quality)) with
          | (Ok r, db') =>
              run (handleReview now p quality) db
              = (Returned (advance p), db',
                 [(id w, reviewUpdate s (categoryOf quality))], [])
          | (Throw e, db') =>
              db' = db /\
              run (handleReview now p quality) db
              = (Returned p, db,
                 [(id w, reviewUpdate s (categoryOf quality))],
                 [("Failed to update word:"%string, e)])
          end
      end
  end.
Proof.
  unfold handleReview. destruct (currentWord p) as [w|]; [|reflexivity].
  fold (stateOf w). destruct (SM2.sm2 now quality (stateOf w)) as [s|e];
    [|reflexivity].
  simpl.
  destruct (updateWord db (id w) (reviewUpdate s (categoryOf quality)))
    as [[r|e] db'] eqn:Eu; [reflexivity|].
  assert (E : db' = db).
  { pose proof (ReviewFacts.updateWord_failure db (id w) (reviewUpdate s (categoryOf quality)) e)
      as H.
    rewrite Eu in H. specialize (H eq_refl). congruence. }
  subst db'. split; reflexivity.
Qed.

(** X10.  What the page shows once [loadDueWords] is done.  If the query failed,
    nothing at all: the page is blank.  If no word is due, the message that
    there is nothing to review.  Otherwise the card of a word that is due
    and is the most overdue of the user's words, as number 1 of the due
    words, with the answer hidden. *)
Theorem loadDueWords_shows db now :
  match getDueWords db now with
  | Throw _ => render (loadDueWords db now initialPage) = Nothing
  | Ok [] =>
      render (loadDueWords db now initialPage)
      = Complete "No words to review"
          "Save some words while reading to start reviewing"
  | Ok (w :: l) =>
      render (loadDueWords db now initialPage)
      = Card w 1 (S (List.length l)) false /\
      In w (rows db) /\ next_review_at w <= now /\
      forall v, In v (rows db) -> next_review_at v <= now ->
                next_review_at w <= next_review_at v
  end.
Proof.
  unfold loadDueWords.
  destruct (getDueWords db now) as [[|w l]|e] eqn:E; try reflexivity.
  split; [reflexivity|].
  unfold getDueWords in E. destruct (fault db); [discriminate|].
  injection E as E. unfold lte in E.
  pose proof (order_perm next_review_at
                (filter (fun w => next_review_at w <=? now) (rows db))) as P.
  pose proof (order_sorted next_review_at
                (filter (fun w => next_review_at w <=? now) (rows db))) as S.
  rewrite E in P, S.
  assert (Hw : In w (filter (fun w => next_review_at w <=? now) (rows db))).
  { apply (Permutation_in _ (Permutation_sym P)). left. reflexivity. }
  apply filter_In in Hw. destruct Hw as [Hw1 Hw2]. apply Z.leb_le in Hw2.
  split; [exact Hw1|]. split; [exact Hw2|].
  intros v Hv Hn.
  assert (Hv' : In v (w :: l)).
  { apply (Permutation_in _ P). apply filter_In. split; [exact Hv|].
    apply Z.leb_le. exact Hn. }
  destruct Hv' as [<-|Hv']; [lia|].
  apply StronglySorted_inv in S. destruct S as [_ S].
  rewrite Forall_forall in S. apply S. exact Hv'.
Qed.



(** X12.  [handleReview] lets an exception escape in one case only: the next
    review date of the current word is not a valid date, and [toISOString]
    raises inside [sm2], outside the [try].  Then nothing is sent to the
    store, nothing is written to the console and the store is as it was.
    In every other case the handler returns, after exactly one request if
    there is a current word and none if there is not. *)
Theorem handleReview_escapes now p quality db :
  match currentWord p with
  | None => run (handleReview now p quality) db = (Returned p, db, [], [])
  | Some w =>
      match Date_addDays now (snd (SM2.schedule quality (stateOf w))) with
      | None =>
          run (handleReview now p quality) db = (Raised RangeError, db, [], [])
      | Some _ =>
          exists p' db' req logs,
            run (handleReview now p quality) db
            = (Returned p', db', [req], logs) /\ fst req = id w
      end
  end.
Proof.
  pose proof (handleReview_run now p quality db) as H.
  destruct (currentWord p) as [w|]; [|exact H].
  destruct (Date_addDays now (snd (SM2.schedule quality (stateOf w)))) as [t|] eqn:Ed.
  - destruct (sm2_returns _ _ _ _ Ed) as [s Es]. rewrite Es in H.
    destruct (updateWord db (id w) (reviewUpdate s (categoryOf quality)))
      as [[r|e] db1].
    + do 4 eexists. split; [exact H|reflexivity].
    + destruct H as [_ H]. do 4 eexists. split; [exact H|reflexivity].
  - destruct (SM2.sm2 now quality (stateOf w)) as [s|e] eqn:Es.
    + destruct (sm2_inv _ _ _ _ Es) as (_ & _ & _ & Ed'). congruence.
    + destruct (sm2_raises _ _ _ _ Es) as [-> _]. exact H.
Qed.





(** X14.  A due word that has been deleted in the meantime blocks the session.
    When the store has no row for the current word, every rating of it
    fails (PGRST116), and whatever the user taps and presses, the cursor,
    the number of words reviewed and the store stay as they are: the
    session never gets past this word and never completes. *)
Theorem session_stuck_on_deleted_word p db w evs :
  currentWord p = Some w ->
  loading p = false -> sessionComplete p = false ->
  fault db = None ->
  (forall r, In r (rows db) -> id r <> id w) ->
  snd (session p db evs) = db /\
  dueWords (fst (session p db evs)) = dueWords p /\
  currentIndex (fst (session p db evs)) = currentIndex p /\
  reviewed (fst (session p db evs)) = reviewed p /\
  sessionComplete (fst (session p db evs)) = false /\
  (forall now r,
     run (handleReview now p (qualityOf r)) db
     = (Raised RangeError, db, [], [])
     \/ exists req,
          run (handleReview now p (qualityOf r)) db
          = (Returned p, db, [req],
             [("Failed to update word:"%string, PostgrestError "PGRST116")])).
Proof.
  intros Hw Hl Hc Hf Hrows.
  assert (Hrun : forall q now r,
    currentWord q = Some w ->
    run (handleReview now q (qualityOf r)) db = (Raised RangeError, db, [], [])
    \/ exists req,
         run (handleReview now q (qualityOf r)) db
         = (Returned q, db, [req],
            [("Failed to update word:"%string, PostgrestError "PGRST116")])).
  { intros q now r Hq.
    pose proof (handleReview_run now q (qualityOf r) db) as H. rewrite Hq in H.
    destruct (SM2.sm2 now (qualityOf r) (stateOf w)) as [s|e] eqn:Es.
    - right. unfold updateWord in H. rewrite Hf in H.
      replace (updateRow (id w) (reviewUpdate s (categoryOf (qualityOf r))) (rows db))
        with (@None (VocabWord * list VocabWord)) in H
        by (symmetry; apply updateRow_none; exact Hrows).
      destruct H as [_ H]. eauto.
    - left. destruct (sm2_raises _ _ _ _ Es) as [-> _]. exact H. }
  assert (Hstep : forall q ev,
    currentWord q = Some w -> loading q = false -> sessionComplete q = false ->
    snd (dispatch q db ev) = db /\
    dueWords (fst (dispatch q db ev)) = dueWords q /\
    currentIndex (fst (dispatch q db ev)) = currentIndex q /\
    reviewed (fst (dispatch q db ev)) = reviewed q /\
    sessionComplete (fst (dispatch q db ev)) = false /\
    loading (fst (dispatch q db ev)) = false).
  { intros q ev Hq Hlq Hcq. unfold dispatch, render. rewrite Hlq, Hcq, Hq.
    destruct ev as [|r now].
    - destruct (revealed q); simpl; auto 10.
    - destruct (revealed q); [|simpl; auto 10].
      destruct (Hrun q now r Hq) as [E|[req E]]; rewrite E; simpl; auto 10. }
  assert (Hall : forall evs q,
    currentWord q = Some w -> loading q = false -> sessionComplete q = false ->
    snd (session q db evs) = db /\
    dueWords (fst (session q db evs)) = dueWords q /\
    currentIndex (fst (session q db evs)) = currentIndex q /\
    reviewed (fst (session q db evs)) = reviewed q /\
    sessionComplete (fst (session q db evs)) = false).
  { intros evs0. induction evs0 as [|ev evs0 IH]; intros q Hq Hlq Hcq; simpl; [auto|].
    destruct (Hstep q ev Hq Hlq Hcq) as (S0 & S1 & S2 & S3 & S4 & S5).
    destruct (dispatch q db ev) as [p1 db1]. simpl in *. subst db1.
    assert (Hq1 : currentWord p1 = Some w)
      by (unfold currentWord in *; rewrite S1, S2; exact Hq).
    destruct (IH p1 Hq1 S5 S4) as (T0 & T1 & T2 & T3 & T4).
    repeat split; congruence. }
  destruct (Hall evs p Hw Hl Hc) as (T0 & T1 & T2 & T3 & T4).
  repeat (split; [assumption|]). intros now r. apply Hrun, Hw.
Qed.

Lemma session_stuck_on_deleted_word_witness :
  reviewed (fst (session sessionD
                   {| rows := [wordA; wordB; wordD]; fault := None |}
                   [Press Easy today; Press Hard today; Press Neutral today]))
  = 0%nat.
Proof.
  refine (proj1 (proj2 (proj2 (proj2
    (session_stuck_on_deleted_word sessionD
       {| rows := [wordA; wordB; wordD]; fault := None |} wordC
       [Press Easy today; Press Hard today; Press Neutral today]
       eq_refl eq_refl eq_refl eq_refl _))))).
  intros r H. simpl in H. destruct H as [<-|[<-|[<-|[]]]]; discriminate.
Defined.

End ReviewViewFacts.

(** ** The vocabulary page *)

Module VocabFacts.
Import JS Words WordsCrud Vocab WordsFacts WordsCrudFacts Scenario.





End VocabFacts.

(** ** Books: listing, finding, creating *)

Module BooksFacts.
Import JS WordsCrud Books.
Local Open Scope Z_scope.

Lemma readBefore_notAfter a b : readBefore a b = true <-> notAfter a b.
Proof.
  unfold readBefore, notAfter.
  destruct (last_read_at a), (last_read_at b); try tauto.
  - apply Z.leb_le.
  - split; [discriminate|tauto].
Qed.

Lemma notAfter_total a b : readBefore a b = false -> notAfter b a.
Proof.
  unfold readBefore, notAfter.
  destruct (last_read_at a), (last_read_at b); try discriminate; auto.
  intros H. apply Z.leb_gt in H. lia.
Qed.

Lemma notAfter_trans a b c : notAfter a b -> notAfter b c -> notAfter a c.
Proof.
  unfold notAfter.
  destruct (last_read_at a), (last_read_at b), (last_read_at c); try tauto; lia.
Qed.

Lemma insertBook_perm b l : Permutation (b :: l) (insertBook b l).
Proof.
  induction l as [|v l IH]; simpl.
  - apply Permutation_refl.
  - destruct (readBefore b v).
    + apply Permutation_refl.
    + eapply Permutation_trans; [apply perm_swap|]. apply perm_skip, IH.
Qed.

Lemma orderBooks_perm l : Permutation l (orderBooks l).
Proof.
  induction l as [|b l IH]; simpl.
  - apply perm_nil.
  - eapply Permutation_trans; [apply perm_skip, IH|]. apply insertBook_perm.
Qed.

Lemma insertBook_sorted b l :
  StronglySorted notAfter l -> StronglySorted notAfter (insertBook b l).
Proof.
  induction 1 as [|v l Hs IH Hv]; simpl.
  - constructor; constructor.
  - destruct (readBefore b v) eqn:E.
    + apply readBefore_notAfter in E.
      constructor; [constructor; assumption|].
      constructor; [exact E|].
      rewrite Forall_forall in *. intros u Hu.
      apply notAfter_trans with v; auto.
    + apply notAfter_total in E.
      constructor; [exact IH|].
      rewrite Forall_forall in *. intros u Hu.
      apply (Permutation_in _ (Permutation_sym (insertBook_perm b l))) in Hu.
      destruct Hu as [<-|Hu]; auto.
Qed.

Lemma orderBooks_sorted l : StronglySorted notAfter (orderBooks l).
Proof.
  induction l as [|b l IH]; simpl; [constructor|]. apply insertBook_sorted, IH.
Qed.

Lemma filter_id_none (l : list Book) i :
  (forall b, In b l -> id b <> i) ->
  filter (fun v => String.eqb (id v) i) l = [].
Proof.
  induction l as [|v l IH]; simpl; intros H; [reflexivity|].
  destruct (String.eqb_spec (id v) i) as [E|N].
  - exfalso. apply (H v); auto.
  - apply IH. auto.
Qed.

Lemma filter_id_unique (l : list Book) b :
  NoDup (map id l) -> In b l ->
  filter (fun v => String.eqb (id v) (id b)) l = [b].
Proof.
  induction l as [|v l IH]; simpl; intros Hn Hb; [contradiction|].
  inversion Hn as [|x xs Hx Hn']; subst.
  destruct Hb as [->|Hb].
  - rewrite String.eqb_refl. f_equal. apply filter_id_none.
    intros a Ha E. apply Hx. rewrite <- E. apply in_map. exact Ha.
  - destruct (String.eqb_spec (id v) (id b)) as [E|N].
    + exfalso. apply Hx. rewrite E. apply in_map. exact Hb.
    + apply IH; assumption.
Qed.

(** X17.  [getAllBooks] answers with every book the user has, the one read last
    first and the books never read behind all that have been read; it
    fails exactly when the table does. *)
Theorem getAllBooks_recent_first db :
  match getAllBooks db with
  | Ok l =>
      fault db = None /\ Permutation l (books db) /\
      StronglySorted notAfter l /\
      (forall l1 a l2 b, l = l1 ++ a :: l2 -> In b l2 ->
         last_read_at a = None -> last_read_at b = None)
  | Throw e => fault db = Some e
  end.
Proof.
  unfold getAllBooks. destruct (fault db) as [e|]; [reflexivity|].
  split; [reflexivity|]. split; [apply Permutation_sym, orderBooks_perm|].
  split; [apply orderBooks_sorted|].
  intros l1 a l2 b E Hb Ha.
  pose proof (orderBooks_sorted (books db)) as S. rewrite E in S.
  clear E. induction l1 as [|c l1 IH]; simpl in S.
  - apply StronglySorted_inv in S. destruct S as [_ S].
    rewrite Forall_forall in S. specialize (S b Hb).
    unfold notAfter in S. rewrite Ha in S.
    destruct (last_read_at b); [contradiction|reflexivity].
  - apply StronglySorted_inv in S. destruct S as [S _]. exact (IH S).
Qed.

(** X18.  [getBook] finds the book with the id, and answers an id no book has
    with [null], not with an error.  With ids that are unique: the answer
    is a book exactly when the user has a book with that id, and it is that
    book. *)
Theorem getBook_finds db i :
  fault db = None -> NoDup (map id (books db)) ->
  (forall b, In b (books db) -> id b = i -> getBook db i = Ok (Some b)) /\
  ((forall b, In b (books db) -> id b <> i) -> getBook db i = Ok None) /\
  (forall b, getBook db i = Ok (Some b) -> In b (books db) /\ id b = i) /\
  (forall e, getBook db i <> Throw e).
Proof.
  intros Hf Hn. unfold getBook. rewrite Hf. split; [|split; [|split]].
  - intros b Hb <-. rewrite (filter_id_unique _ b Hn Hb). reflexivity.
  - intros H. rewrite (filter_id_none _ i H). reflexivity.
  - intros b H.
    destruct (filter (fun b => String.eqb (id b) i) (books db)) as [|b0 [|b1 l]] eqn:E;
      try discriminate.
    injection H as <-.
    assert (Hin : In b0 (filter (fun b => String.eqb (id b) i) (books db)))
      by (rewrite E; left; reflexivity).
    apply filter_In in Hin. destruct Hin as [H1 H2].
    apply String.eqb_eq in H2. auto.
  - intros e.
    destruct (filter (fun b => String.eqb (id b) i) (books db)) as [|b0 [|b1 l]];
      discriminate.
Qed.

Lemma getBook_finds_witness :
  getBook Library.shelved "essay" = Ok (Some Library.essay) /\
  getBook Library.shelved "diary" = Ok None.
Proof.
  destruct (getBook_finds Library.shelved "essay" eq_refl) as (H1 & _).
  { simpl. repeat constructor; simpl; intuition discriminate. }
  destruct (getBook_finds Library.shelved "diary" eq_refl) as (_ & H2 & _).
  { simpl. repeat constructor; simpl; intuition discriminate. }
  split.
  - apply H1; [right; right; left; reflexivity|reflexivity].
  - apply H2. intros b H. simpl in H.
    destruct H as [<-|[<-|[<-|[]]]]; discriminate.
Defined.

(** The row [updateReadingProgress] writes for a book. *)
Lemma updateReadingProgress_rows db i page now :
  fault db = None -> integerColumn page = None ->
  updateReadingProgress db i page now
  = (Ok tt,
     {| books :=
          map (fun b =>
                 if String.eqb (id b) i
                 then {| id := id b; title := title b; current_page := page;
                         total_pages := total_pages b; last_read_at := Some now;
                         pdf_storage_path := pdf_storage_path b;
                         created_at := created_at b |}
                 else b) (books db);
        fault := None |}).
Proof.
  intros Hf Hc. unfold updateReadingProgress. rewrite Hf, Hc. reflexivity.
Qed.

(** X19.  The book read last moves to the front of the shelf.  When
    [updateReadingProgress] has stored a page for a book at a clock reading
    later than every date in the table, [getAllBooks] lists that book
    first, with the new page and date; the books keep their ids, and every
    other book is as it was.  For an id no book has, the call returns and
    nothing changes. *)
Theorem updateReadingProgress_moves_first db b page now :
  fault db = None -> NoDup (map id (books db)) -> In b (books db) ->
  integerColumn page = None ->
  (forall v t, In v (books db) -> last_read_at v = Some t -> t < now) ->
  exists db' l,
    updateReadingProgress db (id b) page now = (Ok tt, db') /\
    getAllBooks db'
    = Ok ({| id := id b; title := title b; current_page := page;
             total_pages := total_pages b; last_read_at := Some now;
             pdf_storage_path := pdf_storage_path b;
             created_at := created_at b |} :: l) /\
    map id (books db') = map id (books db) /\
    (forall v, In v (books db) -> id v <> id b -> In v l) /\
    (forall i, (forall v, In v (books db) -> id v <> i) ->
       updateReadingProgress db i page now = (Ok tt, db)).
Proof.
  intros Hf Hn Hb Hc Hlate.
  set (f := fun v =>
              if String.eqb (id v) (id b)
              then {| id := id v; title := title v; current_page := page;
                      total_pages := total_pages v; last_read_at := Some now;
                      pdf_storage_path := pdf_storage_path v;
                      created_at := created_at v |}
              else v).
  set (b' := {| id := id b; title := title b; current_page := page;
                total_pages := total_pages b; last_read_at := Some now;
                pdf_storage_path := pdf_storage_path b;
                created_at := created_at b |}).
  assert (Hfb : f b = b') by (unfold f; rewrite String.eqb_refl; reflexivity).
  assert (Hfo : forall v, In v (books db) -> id v <> id b -> f v = v).
  { intros v _ N. unfold f.
    destruct (String.eqb_spec (id v) (id b)); [contradiction|reflexivity]. }
  assert (Hfi : forall v, In v (books db) -> id v = id b -> v = b).
  { intros v Hv E. pose proof (filter_id_unique _ b Hn Hb) as U.
    assert (In v (filter (fun u => String.eqb (id u) (id b)) (books db))).
    { apply filter_In. split; [exact Hv|]. apply String.eqb_eq. exact E. }
    rewrite U in H. destruct H as [<-|[]]. reflexivity. }
  pose proof (orderBooks_perm (map f (books db))) as P.
  pose proof (orderBooks_sorted (map f (books db))) as S.
  destruct (orderBooks (map f (books db))) as [|h l] eqn:El.
  { exfalso. apply Permutation_sym, Permutation_nil in P.
    destruct (books db); [destruct Hb|discriminate]. }
  assert (Hb' : In b' (h :: l)).
  { apply (Permutation_in _ P). rewrite <- Hfb. apply in_map. exact Hb. }
  assert (Hh : h = b').
  { destruct Hb' as [E|Hb']; [exact E|].
    apply StronglySorted_inv in S. destruct S as [_ S].
    rewrite Forall_forall in S. specialize (S b' Hb').
    assert (Hhin : In h (map f (books db))).
    { apply (Permutation_in _ (Permutation_sym P)). left. reflexivity. }
    apply in_map_iff in Hhin. destruct Hhin as (v & Ev & Hv).
    destruct (String.eqb_spec (id v) (id b)) as [E|N].
    - rewrite (Hfi v Hv E), Hfb in Ev. auto.
    - rewrite (Hfo v Hv N) in Ev. subst h. unfold notAfter in S. simpl in S.
      destruct (last_read_at v) as [t|] eqn:Et; [|contradiction].
      specialize (Hlate v t Hv Et). lia. }
  subst h. exists {| books := map f (books db); fault := None |}, l.
  split; [exact (updateReadingProgress_rows db (id b) page now Hf Hc)|].
  split; [unfold getAllBooks; simpl; rewrite El; reflexivity|].
  split; [|split].
  - simpl. rewrite map_map. apply map_ext. intros v. unfold f.
    destruct (String.eqb (id v) (id b)); reflexivity.
  - intros v Hv N.
    assert (Hin : In v (b' :: l)).
    { apply (Permutation_in _ P). rewrite <- (Hfo v Hv N). apply in_map. exact Hv. }
    destruct Hin as [E|Hin]; [|exact Hin].
    exfalso. apply N. rewrite <- E. reflexivity.
  - intros i Hi. rewrite (updateReadingProgress_rows db i page now Hf Hc).
    f_equal. destruct db as [bs ft]. simpl in *. subst ft. f_equal.
    rewrite <- (map_id bs) at 2. apply map_ext_in. intros v Hv.
    destruct (String.eqb_spec (id v) i) as [E|N]; [|reflexivity].
    destruct (Hi v Hv E).
Qed.

Lemma updateReadingProgress_moves_first_witness :
  exists db' l,
    updateReadingProgress Library.shelved "novel" 13%float 1000 = (Ok tt, db') /\
    getAllBooks db' = Ok (Library.book "novel" 13%float (Some 1000) :: l).
Proof.
  destruct (updateReadingProgress_moves_first Library.shelved Library.novel
              13%float 1000 eq_refl) as (db' & l & H1 & H2 & _).
  - simpl. repeat constructor; simpl; intuition discriminate.
  - left. reflexivity.
  - reflexivity.
  - intros v t H E. simpl in H.
    destruct H as [<-|[<-|[<-|[]]]]; simpl in E; try discriminate;
      injection E as <-; lia.
  - exists db', l. split; [exact H1|exact H2].
Defined.

End BooksFacts.

(** ** Turning pages, and opening the book again *)

Module ViewerFacts.
Import JS Books Storage Viewer Library BooksFacts.
Import Binary64 Binary64Facts NumberFacts NumberOrder.
Local Open Scope float_scope.

Lemma isNaN_false x : isNaN x = false <-> Prim2SF x <> S754_nan.
Proof.
  unfold isNaN. destruct (Prim2SF x); split; intros H; try discriminate;
    try reflexivity; congruence.
Qed.

Lemma ltb_leb a b : (a <? b) = true -> (a <=? b) = true.
Proof.
  rewrite FloatAxioms.ltb_spec, FloatAxioms.leb_spec. unfold SFltb, SFleb.
  destruct (SFcompare (Prim2SF a) (Prim2SF b)) as [[| |]|]; auto.
Qed.

Lemma ltb_irrefl a : (a <? a) = false.
Proof.
  rewrite FloatAxioms.ltb_spec. unfold SFltb.
  pose proof (SFcompare_swap (Prim2SF a) (Prim2SF a)) as H.
  destruct (SFcompare (Prim2SF a) (Prim2SF a)) as [[| |]|]; try reflexivity.
  simpl in H. discriminate.
Qed.

Lemma leb_refl a : Prim2SF a <> S754_nan -> (a <=? a) = true.
Proof. intros H. apply leb_of_not_ltb; auto. apply ltb_irrefl. Qed.

Lemma integer_finite x :
  Number_isInteger x = true -> finite_or_zero (Prim2SF x).
Proof.
  unfold Number_isInteger. destruct (Prim2SF x); simpl; try discriminate; auto.
Qed.

(** An integral number is an integer, and [truncate] gives it. *)
Lemma integer_truncate x :
  Number_isInteger x = true ->
  exists k, truncate x = Some k /\ val x = IZR k.
Proof.
  unfold Number_isInteger, truncate, val.
  destruct (Prim2SF x) as [s|s| |s m e]; try discriminate.
  - intros _. exists 0%Z. auto.
  - intros H. eexists. split; [reflexivity|]. unfold SF2R.
    destruct (Z.leb_spec 0 e) as [He|He].
    + assert (E : F2R (Zpos m) e = IZR (Zpos m * 2 ^ e)).
      { rewrite <- F2R_0, F2R_shift by lia. reflexivity. }
      rewrite F2R_cond_Zopp. destruct s; rewrite E; [rewrite opp_IZR|]; reflexivity.
    + apply Z.eqb_eq in H. rewrite Z.shiftl_mul_pow2 in H by lia.
      assert (E : F2R (Zpos m) e = IZR (Z.shiftr (Zpos m) (- e))).
      { rewrite <- H at 1. rewrite F2R_shift by lia.
        replace (e + - e)%Z with 0%Z by lia. apply F2R_0. }
      rewrite F2R_cond_Zopp. destruct s; rewrite E; [rewrite opp_IZR|]; reflexivity.
Qed.

(** Two numbers that are at least 1 and neither below the other are the
    same number. *)
Lemma leb_antisym a b :
  lb 1 a -> (a <=? b) = true -> (a <? b) = false -> a = b.
Proof.
  intros La Hle Hlt.
  assert (Na : Prim2SF a <> S754_nan) by exact (lb_not_nan _ _ La).
  assert (Nb : Prim2SF b <> S754_nan).
  { intros E. rewrite FloatAxioms.leb_spec, E in Hle. unfold SFleb in Hle.
    destruct (Prim2SF a); discriminate. }
  pose proof (leb_of_not_ltb _ _ Na Nb Hlt) as Hge.
  destruct (Prim2SF a) as [s|s| |s m e] eqn:Ea; try congruence.
  - unfold lb in La. rewrite Ea in La. simpl in La. lra.
  - (* an infinite [a] *)
    unfold lb in La. rewrite Ea in La. simpl in La. subst s.
    apply Prim2SF_inj. rewrite Ea.
    rewrite FloatAxioms.leb_spec, Ea in Hle. unfold SFleb in Hle. simpl in Hle.
    destruct (Prim2SF b) as [sb|sb| |sb mb eb]; try discriminate.
    destruct sb; [discriminate|reflexivity].
  - assert (Fa : finite_or_zero (Prim2SF a)) by (rewrite Ea; exact I).
    apply leb_lb in Hle; [|exact Fa].
    destruct (Prim2SF b) as [sb|sb| |sb mb eb] eqn:Eb; try congruence.
    + assert (Fb : finite_or_zero (Prim2SF b)) by (rewrite Eb; exact I).
      apply leb_lb in Hge; [|exact Fb].
      unfold lb, val in *. rewrite Ea, Eb in *. simpl in *. lra.
    + rewrite FloatAxioms.leb_spec, Ea, Eb in Hge. unfold SFleb in Hge.
      simpl in Hge. unfold lb in Hle. rewrite Eb in Hle. simpl in Hle. subst sb.
      discriminate.
    + assert (Fb : finite_or_zero (Prim2SF b)) by (rewrite Eb; exact I).
      apply leb_lb in Hge; [|exact Fb].
      assert (P : (0 < val a)%R).
      { unfold lb, val in *. rewrite Ea in *. simpl in *. lra. }
      apply (lb_ub_unique (val a)); auto.
      * apply lb_val, Fa.
      * apply ub_val, Fa.
      * unfold ub, lb, val in *. rewrite Ea, Eb in *. simpl in *. lra.
Qed.

Lemma Math_min_cases a b :
  Prim2SF a <> S754_nan -> Prim2SF b <> S754_nan ->
  (Math_min a b = b /\ ((b <? a) = true \/ isZero false a = true)) \/
  (Math_min a b = a /\ (b <? a) = false).
Proof.
  intros Na Nb. unfold Math_min.
  rewrite (proj2 (isNaN_false a) Na), (proj2 (isNaN_false b) Nb). simpl.
  destruct (b <? a) eqn:E; simpl; [auto|].
  destruct (isZero false a) eqn:Z; simpl; [|auto].
  destruct (isZero true b); auto.
Qed.

Lemma Math_max_one b :
  Prim2SF b <> S754_nan ->
  (Math_max 1 b = b /\ (1 <? b) = true) \/
  (Math_max 1 b = 1 /\ (1 <? b) = false).
Proof.
  intros Nb. unfold Math_max.
  rewrite (proj2 (isNaN_false b) Nb). simpl.
  destruct (1 <? b) eqn:E; simpl; auto.
Qed.

Lemma lb_one_leb x : (1 <=? x) = true <-> lb 1 x.
Proof.
  rewrite <- val_one. apply leb_lb. rewrite Prim2SF_one. exact I.
Qed.

Lemma ltb_asym a b : (a <? b) = true -> (b <? a) = false.
Proof.
  rewrite !FloatAxioms.ltb_spec. unfold SFltb.
  rewrite (SFcompare_swap (Prim2SF a) (Prim2SF b)).
  destruct (SFcompare (Prim2SF a) (Prim2SF b)) as [[| |]|]; simpl;
    try discriminate; reflexivity.
Qed.

Lemma ltb_not_leb a b : (a <? b) = true -> (b <=? a) = false.
Proof.
  rewrite FloatAxioms.ltb_spec, FloatAxioms.leb_spec. unfold SFltb, SFleb.
  rewrite (SFcompare_swap (Prim2SF a) (Prim2SF b)).
  destruct (SFcompare (Prim2SF a) (Prim2SF b)) as [[| |]|]; simpl;
    try discriminate; reflexivity.
Qed.

(** The page [changePage] shows. *)
Lemma clamped_page n p :
  Number_isInteger n = true -> (1 <=? n) = true -> Number_isInteger p = true ->
  let c := Math_max 1 (Math_min n p) in
  (1 <=? c) = true /\ (c <=? n) = true /\ Number_isInteger c = true /\
  ((1 <=? p) = true -> (p <=? n) = true -> c = p) /\
  ((p <? 1) = true -> c = 1) /\
  ((n <? p) = true -> c = n).
Proof.
  intros In Hn Ip c.
  pose proof (integer_not_nan n In) as Nn.
  pose proof (integer_not_nan p Ip) as Np.
  assert (N1 : Prim2SF 1 <> S754_nan) by (rewrite Prim2SF_one; discriminate).
  assert (L1 : lb 1 1) by (apply lb_one_leb, leb_refl, N1).
  assert (Ln : lb 1 n) by (apply lb_one_leb; exact Hn).
  assert (Z0 : isZero false n = false).
  { unfold isZero. unfold lb in Ln. destruct (Prim2SF n); auto.
    simpl in Ln. lra. }
  destruct (Math_min_cases n p Nn Np) as [[Em Hm]|[Em Hm]].
  - destruct Hm as [Hm|Hm]; [|congruence].
    destruct (Math_max_one _ Np) as [[Ec Hc]|[Ec Hc]];
      unfold c; rewrite Em, Ec.
    + split; [apply ltb_leb, Hc|]. split; [apply ltb_leb, Hm|].
      split; [exact Ip|]. split; [reflexivity|]. split; intros H.
      * rewrite (ltb_asym _ _ Hc) in H. discriminate.
      * rewrite (ltb_asym _ _ Hm) in H. discriminate.
    + split; [apply leb_refl, N1|]. split; [exact Hn|].
      split; [reflexivity|]. split; [|split].
      * intros H1 _. apply leb_antisym; assumption.
      * reflexivity.
      * intros H. rewrite (ltb_asym _ _ Hm) in H. discriminate.
  - destruct (Math_max_one _ Nn) as [[Ec Hc]|[Ec Hc]];
      unfold c; rewrite Em, Ec.
    + split; [exact Hn|]. split; [apply leb_refl, Nn|].
      split; [exact In|]. split; [|split].
      * intros H1 H2. symmetry. apply leb_antisym; auto.
        apply lb_one_leb, H1.
      * intros H. exfalso.
        assert (F1 : finite_or_zero (Prim2SF 1)) by (rewrite Prim2SF_one; exact I).
        destruct (ltb_finite p 1 F1 H) as [E|[Fp Hv]].
        { unfold Number_isInteger in Ip. rewrite E in Ip. discriminate. }
        rewrite val_one in Hv.
        assert (Hlt : (p <? n) = true).
        { apply ltb_ub with (val p).
          - apply integer_finite, In.
          - apply ub_val, Fp.
          - pose proof (integer_finite n In) as Fn. clear - Ln Fn Hv.
            unfold lb in Ln. unfold val at 2.
            destruct (Prim2SF n); simpl in Ln, Fn |- *; try tauto; lra. }
        congruence.
      * reflexivity.
    + assert (E : 1 = n) by (apply leb_antisym; assumption).
      split; [apply leb_refl, N1|]. split; [exact Hn|].
      split; [reflexivity|]. split; [|split].
      * intros H1 H2. apply leb_antisym; auto.
        destruct (1 <? p) eqn:K; [|reflexivity].
        apply ltb_not_leb in K. rewrite <- E in H2. congruence.
      * reflexivity.
      * intros _. exact E.
Qed.

Lemma val_int32 : val 2147483648 = IZR (2 ^ 31).
Proof.
  unfold val.
  replace (Prim2SF 2147483648) with (S754_finite false 4503599627370496 (- 21))
    by reflexivity.
  unfold SF2R, SpecFloat.cond_Zopp.
  change 4503599627370496%Z with (2 ^ 31 * 2 ^ 21)%Z.
  rewrite F2R_shift by lia. apply F2R_0.
Qed.

(** A whole number of pages from 1 to below 2^31 fits the column. *)
Lemma integerColumn_accepts c n :
  Number_isInteger c = true -> (1 <=? c) = true -> (c <=? n) = true ->
  Number_isInteger n = true -> (n <? 2147483648) = true ->
  integerColumn c = None.
Proof.
  intros Ic H1 Hn In H31.
  destruct (integer_truncate c Ic) as (k & Ek & Vk).
  assert (F1 : finite_or_zero (Prim2SF 1)) by (rewrite Prim2SF_one; exact I).
  pose proof (integer_finite c Ic) as Fc.
  pose proof (integer_finite n In) as Fn.
  apply leb_lb in H1; [|exact F1]. rewrite val_one in H1.
  apply leb_lb in Hn; [|exact Fc].
  destruct (ltb_finite n 2147483648 I H31) as [E|[_ Hv]].
  { rewrite E in Fn. destruct Fn. }
  rewrite val_int32 in Hv.
  assert (B : (1 <= IZR k < IZR (2 ^ 31))%R).
  { rewrite <- Vk. clear - H1 Hn Hv Fc Fn. unfold lb, val in *.
    destruct (Prim2SF c), (Prim2SF n); simpl in *; try tauto; lra. }
  destruct B as [B1 B2]. apply le_IZR in B1. apply lt_IZR in B2.
  assert (R : ((- 2 ^ 31 <=? k) && (k <? 2 ^ 31))%Z = true).
  { apply andb_true_iff. split; [apply Z.leb_le|apply Z.ltb_lt]; lia. }
  assert (R' : (10 ^ 21 <=? Z.abs k)%Z = false) by (apply Z.leb_gt; lia).
  unfold integerColumn. rewrite Ek, Ic, R, R'. reflexivity.
Qed.

Lemma orOne_page c : (1 <=? c) = true -> Reading.orOne c = c.
Proof.
  intros H. unfold Reading.orOne. apply lb_one_leb in H.
  pose proof (lb_not_nan _ _ H) as N.
  rewrite (proj2 (isNaN_false c) N).
  destruct (c =? 0) eqn:E; [|reflexivity].
  destruct (eqb_zero_inv c E) as [s Es]. unfold lb in H. rewrite Es in H.
  simpl in H. lra.
Qed.

Lemma filter_map_id (f : Book -> Book) i l :
  (forall b, id (f b) = id b) ->
  filter (fun b => String.eqb (id b) i) (map f l)
  = map f (filter (fun b => String.eqb (id b) i) l).
Proof.
  intros Hf. induction l as [|b l IH]; simpl; [reflexivity|].
  rewrite Hf. destruct (String.eqb (id b) i); simpl; rewrite IH; reflexivity.
Qed.

(** X20.  Turning the page keeps the reader inside the book, and the place is
    kept.  In a book of [numPages] pages (a whole number from 1 to below
    2^31), [changePage] shows a page from 1 to [numPages] whatever whole
    number it is asked for: the page asked for if it is in that range,
    page 1 if it is below, the last page if it is above.  The store takes
    the page, and when the book is opened again, [loadBook] starts at that
    page. *)
Theorem changePage_keeps_place v db bookId now newPage b s u p :
  fault db = None -> NoDup (map id (books db)) ->
  In b (books db) -> id b = bookId ->
  Number_isInteger (numPages v) = true ->
  (1 <=? numPages v) = true -> (numPages v <? 2147483648) = true ->
  Number_isInteger newPage = true ->
  getPDFSignedUrl s (pdf_storage_path b) = inr u ->
  exists c db',
    changePage v db bookId now newPage
    = ({| numPages := numPages v; pageNumber := c |}, db', []) /\
    (1 <=? c) = true /\ (c <=? numPages v) = true /\
    ((1 <=? newPage) = true -> (newPage <=? numPages v) = true -> c = newPage) /\
    ((newPage <? 1) = true -> c = 1) /\
    ((numPages v <? newPage) = true -> c = numPages v) /\
    Reading.loadBook db' s bookId p
    = ({| Reading.fileUrl := Some u; Reading.initialPage := c;
          Reading.title := title b |}, None, []).
Proof.
  intros Hf Hnd Hb Hid In H1 H31 Ip Hu.
  destruct (clamped_page (numPages v) newPage In H1 Ip)
    as (C1 & C2 & C3 & C4 & C5 & C6).
  set (c := Math_max 1 (Math_min (numPages v) newPage)) in *.
  pose proof (integerColumn_accepts c (numPages v) C3 C1 C2 In H31) as Hcol.
  exists c. eexists. unfold changePage, updateReadingProgress. fold c.
  rewrite Hf, Hcol. split; [reflexivity|].
  repeat (split; [assumption|]).
  unfold Reading.loadBook, getBook. simpl.
  rewrite filter_map_id
    by (intros b0; destruct (String.eqb (id b0) bookId); reflexivity).
  rewrite <- Hid, (filter_id_unique _ b Hnd Hb). simpl.
  rewrite String.eqb_refl. simpl. rewrite Hu, (orOne_page c C1). reflexivity.
Qed.

Lemma changePage_keeps_place_witness :
  exists db',
    changePage reader shelved "novel" 1000%Z 13
    = ({| numPages := 20; pageNumber := 13 |}, db', []) /\
    Reading.loadBook db' bucket "novel" Reading.emptyPage
    = ({| Reading.fileUrl := Some "https://storage/user/novel.pdf"%string;
          Reading.initialPage := 13; Reading.title := "novel" |}, None, []).
Proof.
  destruct (changePage_keeps_place reader shelved "novel" 1000%Z 13 novel bucket
              "https://storage/user/novel.pdf"%string Reading.emptyPage)
    as (c & db' & H1 & _ & _ & H4 & _ & _ & H7); try reflexivity.
  - simpl. repeat constructor; simpl; intuition discriminate.
  - left. reflexivity.
  - rewrite (H4 eq_refl eq_refl) in *. exists db'. split; [exact H1|exact H7].
Defined.

End ViewerFacts.

(** ** The bookshelf: adding and removing books *)

Module BookshelfFacts.
Import JS WordsCrud Books Storage Bookshelf Library BooksFacts.

Lemma stored_app s path o :
  stored {| objects := objects s ++ [o]; url := url s; down := false |} path
  = (stored s path || String.eqb (fst o) path)%bool.
Proof.
  unfold stored. simpl. rewrite existsb_app. simpl. rewrite orb_false_r.
  reflexivity.
Qed.

Lemma stored_remove s path path' :
  stored {| objects := filter (fun o => negb (String.eqb (fst o) path)) (objects s);
            url := url s; down := false |} path'
  = (stored s path' && negb (String.eqb path' path))%bool.
Proof.
  unfold stored. simpl. induction (objects s) as [|o l IH]; simpl; [reflexivity|].
  destruct (String.eqb_spec (fst o) path) as [E|N]; simpl.
  - rewrite IH. destruct (String.eqb_spec (fst o) path') as [E'|N']; simpl.
    + rewrite <- E', E, String.eqb_refl. simpl. rewrite andb_false_r. reflexivity.
    + reflexivity.
  - rewrite IH. destruct (String.eqb_spec (fst o) path') as [E'|N']; simpl.
    + rewrite <- E'. destruct (String.eqb_spec (fst o) path); [contradiction|].
      reflexivity.
    + reflexivity.
Qed.

(** X21.  A PDF that is added becomes a book that can be opened.  For a
    signed-in user, a table and a bucket that answer, and ids that are
    new: [handleFileUpload] stores the file under the user's folder, at
    [user/bookId.pdf], inserts a book whose title is the file name without
    its first ".pdf", and puts it first on the page; and [loadBook] then
    opens that book at page 1, with a signed URL for the path. *)
Theorem handleFileUpload_opens uid db s bookId newId createdAt f p q :
  type f = "application/pdf"%string ->
  fault db = None -> down s = false ->
  stored s (uid ++ "/" ++ bookId ++ ".pdf") = false ->
  (forall b, In b (books db) -> id b <> newId) ->
  let path := (uid ++ "/" ++ bookId ++ ".pdf")%string in
  let b := newBook newId createdAt (removeFirst ".pdf" (name f)) path in
  exists db' s',
    handleFileUpload (Some uid) db s bookId newId createdAt (Some f) p
    = ({| shelf := b :: shelf p; loading := loading p; uploading := false |},
       db', s', []) /\
    books db' = books db ++ [b] /\
    objects s' = objects s ++ [(path, content f)] /\
    Reading.loadBook db' s' newId q
    = ({| Reading.fileUrl := Some (url s path); Reading.initialPage := 1%float;
          Reading.title := removeFirst ".pdf" (name f) |}, None, []).
Proof.
  intros Ht Hf Hd Hs Hnew path b.
  unfold handleFileUpload, uploadPDF, createBook. fold path. fold path in Hs.
  rewrite Ht, Hd, Hs, Hf. simpl.
  assert (Ex : existsb (fun b0 => String.eqb (id b0) newId) (books db) = false).
  { destruct (existsb _ (books db)) eqn:E; [|reflexivity].
    apply existsb_exists in E. destruct E as (b0 & H0 & H1).
    apply String.eqb_eq in H1. destruct (Hnew b0 H0 H1). }
  rewrite Ex. fold b. do 2 eexists. split; [reflexivity|]. simpl.
  split; [reflexivity|]. split; [reflexivity|].
  unfold Reading.loadBook, getBook. simpl.
  rewrite filter_app, (filter_id_none _ newId Hnew). simpl.
  rewrite String.eqb_refl. simpl.
  unfold getPDFSignedUrl. simpl.
  rewrite (stored_app s path (path, content f)). simpl.
  rewrite String.eqb_refl, orb_true_r. reflexivity.
Qed.

Lemma handleFileUpload_opens_witness :
  exists db' s',
    handleFileUpload (Some "user"%string) shelved bucket "poems" "id-4" 0%Z
      (Some {| name := "poems.pdf"; type := "application/pdf"; content := "poems" |})
      {| shelf := [essay; novel; atlas]; loading := false; uploading := false |}
    = ({| shelf := [newBook "id-4" 0%Z "poems" "user/poems.pdf"; essay; novel; atlas];
          loading := false; uploading := false |}, db', s', []) /\
    Reading.loadBook db' s' "id-4" Reading.emptyPage
    = ({| Reading.fileUrl := Some "https://storage/user/poems.pdf"%string;
          Reading.initialPage := 1%float; Reading.title := "poems" |}, None, []).
Proof.
  destruct (handleFileUpload_opens "user" shelved bucket "poems" "id-4" 0%Z
    {| name := "poems.pdf"; type := "application/pdf"; content := "poems" |}
    {| shelf := [essay; novel; atlas]; loading := false; uploading := false |}
    Reading.emptyPage) as (db' & s' & H1 & _ & _ & H4); try reflexivity.
  - intros b H. simpl in H. destruct H as [<-|[<-|[<-|[]]]]; discriminate.
  - exists db', s'. split; [exact H1|exact H4].
Defined.

(** X22.  [handleFileUpload] never leaves a book without its file, but it can
    leave a file without a book.  If every book of the table has its file
    in the bucket before the call, so it is afterwards, whatever the
    outcome; a file that is no PDF, or no file, changes nothing; and when
    the upload succeeds but the table refuses the book, the file stays in
    the bucket with no book that points to it. *)
Theorem handleFileUpload_keeps_files user db s bookId newId createdAt file p :
  (forall b, In b (books db) -> stored s (pdf_storage_path b) = true) ->
  let '(p', db', s', logs) :=
    handleFileUpload user db s bookId newId createdAt file p in
  (forall b, In b (books db') -> stored s' (pdf_storage_path b) = true) /\
  (forall path, stored s path = true -> stored s' path = true) /\
  ((forall f, file = Some f -> type f <> "application/pdf"%string) ->
   p' = p /\ db' = db /\ s' = s /\ logs = []) /\
  (forall uid f e,
     user = Some uid -> file = Some f -> type f = "application/pdf"%string ->
     down s = false -> stored s (uid ++ "/" ++ bookId ++ ".pdf") = false ->
     fault db = Some e ->
     db' = db /\ shelf p' = shelf p /\ logs <> [] /\
     stored s' (uid ++ "/" ++ bookId ++ ".pdf") = true /\
     forall b, In b (books db') ->
               pdf_storage_path b <> (uid ++ "/" ++ bookId ++ ".pdf")%string).
Proof.
  intros Inv. unfold handleFileUpload.
  destruct file as [f|].
  2:{ split; [exact Inv|]. split; [auto|]. split; [auto|].
      intros uid f e _ H. discriminate. }
  destruct (String.eqb_spec (type f) "application/pdf") as [Et|Nt]; simpl.
  2:{ split; [exact Inv|]. split; [auto|]. split; [auto|].
      intros uid f0 e _ H Ht. injection H as <-. contradiction. }
  destruct user as [uid|].
  2:{ split; [exact Inv|]. split; [auto|].
      split; [intros H; destruct (H f eq_refl Et)|].
      intros uid f0 e H. discriminate. }
  unfold uploadPDF. set (path := (uid ++ "/" ++ bookId ++ ".pdf")%string).
  destruct (down s) eqn:Ed.
  { split; [exact Inv|]. split; [auto|].
    split; [intros H; destruct (H f eq_refl Et)|].
    intros uid0 f0 e _ _ _ H. discriminate. }
  destruct (stored s path) eqn:Es.
  { split; [exact Inv|]. split; [auto|].
    split; [intros H; destruct (H f eq_refl Et)|].
    intros uid0 f0 e H _ _ _ H'. injection H as <-.
    change (stored s path = false) in H'. congruence. }
  assert (Hmono : forall path',
            stored s path' = true ->
            stored {| objects := objects s ++ [(path, content f)]; url := url s;
                      down := false |} path' = true).
  { intros path' H. rewrite stored_app, H. reflexivity. }
  assert (Hpath : stored {| objects := objects s ++ [(path, content f)];
                            url := url s; down := false |} path = true).
  { rewrite stored_app. simpl. rewrite String.eqb_refl. apply orb_true_r. }
  unfold createBook. destruct (fault db) as [e|] eqn:Ef.
  - split; [intros b Hb; apply Hmono, Inv, Hb|]. split; [exact Hmono|].
    split; [intros H; destruct (H f eq_refl Et)|].
    intros uid0 f0 e0 H _ _ _ _ _. injection H as <-.
    change (uid ++ "/" ++ bookId ++ ".pdf")%string with path.
    split; [reflexivity|]. split; [reflexivity|]. split; [discriminate|].
    split; [exact Hpath|].
    intros b Hb E. change (pdf_storage_path b = path) in E.
    rewrite <- E, (Inv b Hb) in Es. discriminate.
  - destruct (existsb _ (books db)).
    + split; [intros b Hb; apply Hmono, Inv, Hb|]. split; [exact Hmono|].
      split; [intros H; destruct (H f eq_refl Et)|].
      intros uid0 f0 e0 _ _ _ _ _ H. discriminate.
    + split.
      * simpl. intros b Hb. apply in_app_or in Hb. destruct Hb as [Hb|[<-|[]]].
        -- apply Hmono, Inv, Hb.
        -- exact Hpath.
      * split; [exact Hmono|]. split; [intros H; destruct (H f eq_refl Et)|].
        intros uid0 f0 e0 _ _ _ _ _ H. discriminate.
Qed.

Lemma handleFileUpload_keeps_files_witness :
  let '(p', db', s', logs) :=
    handleFileUpload (Some "user"%string)
      {| books := books shelved; fault := Some (PostgrestError "503") |}
      bucket "poems" "id-4" 0%Z
      (Some {| name := "poems.pdf"; type := "application/pdf"; content := "poems" |})
      {| shelf := [essay; novel; atlas]; loading := false; uploading := false |} in
  stored s' "user/poems.pdf" = true /\
  forall b, In b (books db') -> pdf_storage_path b <> "user/poems.pdf"%string.
Proof.
  pose proof (handleFileUpload_keeps_files (Some "user"%string)
    {| books := books shelved; fault := Some (PostgrestError "503") |}
    bucket "poems" "id-4" 0%Z
    (Some {| name := "poems.pdf"; type := "application/pdf"; content := "poems" |})
    {| shelf := [essay; novel; atlas]; loading := false; uploading := false |}) as H.
  simpl in H. simpl.
  assert (I0 : forall b, novel = b \/ atlas = b \/ essay = b \/ False ->
                 stored bucket (pdf_storage_path b) = true).
  { intros b [<-|[<-|[<-|[]]]]; reflexivity. }
  destruct (H I0) as (_ & _ & _ & K).
  destruct (K "user"%string _ _ eq_refl eq_refl eq_refl eq_refl eq_refl eq_refl)
    as (_ & _ & _ & K1 & K2).
  split; [exact K1|exact K2].
Defined.

(** X23.  [handleDelete] removes the file first and the row second.  When the
    bucket refuses, nothing changes.  When the bucket has removed the file
    and the table then refuses, the book stays in the table and on the
    page, but its file is gone.  When both answer, the file, the row and
    the entry on the page are gone, and the other books and files are as
    they were. *)
Theorem handleDelete_file_first db s book p :
  let '(p', db', s', logs) := handleDelete db s book p in
  (down s = true -> p' = p /\ db' = db /\ s' = s /\ logs <> []) /\
  (down s = false ->
   stored s' (pdf_storage_path book) = false /\
   (forall path, path <> pdf_storage_path book -> stored s' path = stored s path)) /\
  (down s = false -> forall e, fault db = Some e ->
   p' = p /\ db' = db /\ logs <> []) /\
  (down s = false -> fault db = None ->
   logs = [] /\
   (forall b, In b (books db') <-> In b (books db) /\ id b <> id book) /\
   (forall b, In b (shelf p') <-> In b (shelf p) /\ id b <> id book)).
Proof.
  unfold handleDelete, deletePDF, deleteBook.
  destruct (down s) eqn:Ed.
  { split; [intros _; repeat split; discriminate|].
    split; [discriminate|]. split; discriminate. }
  assert (Hfile :
    stored {| objects := filter (fun o => negb (String.eqb (fst o) (pdf_storage_path book)))
                           (objects s);
              url := url s; down := false |} (pdf_storage_path book) = false /\
    forall path, path <> pdf_storage_path book ->
      stored {| objects := filter (fun o => negb (String.eqb (fst o) (pdf_storage_path book)))
                             (objects s);
                url := url s; down := false |} path = stored s path).
  { split.
    - rewrite stored_remove, String.eqb_refl. apply andb_false_r.
    - intros path N. rewrite stored_remove.
      destruct (String.eqb_spec path (pdf_storage_path book)); [contradiction|].
      apply andb_true_r. }
  assert (Hin : forall l b,
    In b (filter (fun b => negb (String.eqb (id b) (id book))) l)
    <-> In b l /\ id b <> id book).
  { intros l b. rewrite filter_In. split; intros [H1 H2]; split; auto.
    - intros E. rewrite E, String.eqb_refl in H2. discriminate.
    - destruct (String.eqb_spec (id b) (id book)); [contradiction|reflexivity]. }
  destruct (fault db) as [e|] eqn:Ef.
  - split; [discriminate|]. split; [intros _; exact Hfile|].
    split; [|discriminate]. intros _ e0 _. repeat split. discriminate.
  - split; [discriminate|]. split; [intros _; exact Hfile|].
    split; [intros _ e0 H; discriminate|].
    intros _ _. split; [reflexivity|]. simpl. split; intros b; apply Hin.
Qed.

End BookshelfFacts.

(** ** More about one review *)

Module SM2Steps.
Import JS SM2 Binary64 Binary64Facts NumberFacts NumberOrder Schedule SM2Facts.
Import ViewerFacts.
Local Open Scope float_scope.










Lemma ltb_lb c x v :
  finite_or_zero (Prim2SF c) -> lb v x -> (val c < v)%R -> (c <? x) = true.
Proof.
  intros Fc L Hv. rewrite FloatAxioms.ltb_spec. unfold SFltb, lb, val in *.
  pose proof (Prim2SF_valid c) as Vc. pose proof (Prim2SF_valid x) as Vx.
  destruct (Prim2SF x) as [sx|sx| |sx mx ex]; simpl in L; try tauto.
  - pose proof (SFcompare_spec (Prim2SF c) (S754_zero sx) Vc Vx Fc I) as H.
    destruct (SFcompare (Prim2SF c) (S754_zero sx)) as [[| |]|]; simpl in H;
      try reflexivity; try lra; tauto.
  - subst sx. destruct (Prim2SF c); simpl in Fc; try tauto; reflexivity.
  - pose proof (SFcompare_spec (Prim2SF c) (S754_finite sx mx ex) Vc Vx Fc I) as H.
    destruct (SFcompare (Prim2SF c) (S754_finite sx mx ex)) as [[| |]|];
      simpl in H; try reflexivity; try lra; try tauto.
Qed.

(** A finite number that is at least 1 has a full mantissa. *)
Lemma normal_mantissa x m e :
  Prim2SF x = S754_finite false m e -> (1 <= F2R (Zpos m) e)%R ->
  (2 ^ 52 <= Zpos m < 2 ^ 53)%Z /\ (- 52 <= e)%Z.
Proof.
  intros E B. pose proof (Prim2SF_finite_valid x _ _ _ E) as V.
  destruct (bounded_canonical m e V) as [C _]. rewrite fexp64 in C.
  pose proof (F2R_digits m e) as [_ Du].
  assert (H : (bpow 0 < bpow (Zpos (digits2_pos m) + e))%R)
    by (change (bpow 0) with 1%R; lra).
  apply bpow_lt_inv in H.
  pose proof (digits2_bounds m) as [L U].
  assert (D : Zpos (digits2_pos m) = 53%Z) by lia.
  rewrite D in L, U. simpl in L. split; [lia|lia].
Qed.

(** X26.  From the third passed review on, the interval gets strictly longer
    each time.  For a word with repetitions other than 0 and 1, an
    interval of at least a day and an ease factor of at least 1.3, a review
    rated 3 or more that [sm2] returns from gives an interval that is
    strictly greater than the one before. *)
Theorem sm2_interval_lengthens now quality state s :
  (3 <=? quality) = true ->
  (repetitions state =? 0) = false -> (repetitions state =? 1) = false ->
  (1 <=? intervalDays state) = true -> (1.3 <=? easeFactor state) = true ->
  sm2 now quality state = Ok s ->
  (intervalDays state <? intervalDays s) = true.
Proof.
  intros Hq H0 H1 Hi He H.
  destruct (sm2_inv _ _ _ _ H) as (_ & Ei & _ & Ed).
  unfold schedule in Ei, Ed. rewrite Hq in Ei, Ed. cbn [snd] in Ei, Ed.
  rewrite H0, H1 in Ei, Ed. rewrite Ei.
  set (i := intervalDays state) in *. set (e := easeFactor state) in *.
  apply lb_one_leb in Hi.
  apply leb_lb in He; [|rewrite Prim2SF_floor; exact I]. rewrite val_floor in He.
  assert (P13 : (0 < F2R 5854679515581645 (-52))%R)
    by apply (F2R_pos 5854679515581645).
  pose proof Hi as Hi'. unfold lb in Hi'.
  destruct (SFlb_pos 1 _ ltac:(lra) Hi') as [Einf|(m & x & Ex & B)].
  { (* an infinite interval has no next review date *)
    exfalso.
    assert (Em : Prim2SF (i * e) = S754_infinity false).
    { rewrite FloatAxioms.mul_spec, Einf. unfold lb in He.
      destruct (SFlb_pos (F2R 5854679515581645 (-52)) _ P13 He)
        as [Ee|(me & xe & Ee & _)]; rewrite Ee; reflexivity. }
    unfold Date_addDays, truncate, Math_ceil in Ed. rewrite Em, Em in Ed.
    discriminate. }
  destruct (normal_mantissa i m x Ex B) as [Hm Hx].
  assert (Fi : finite_or_zero (Prim2SF i)) by (rewrite Ex; exact I).
  assert (Vi : val i = F2R (Zpos m) x) by (unfold val; rewrite Ex; reflexivity).
  assert (R : exists M E, repr M E /\ F2R M E = F2R (Zpos m + 1) x).
  { destruct (Z.eq_dec (Zpos m + 1) (2 ^ 53)) as [E53|N53].
    - exists (2 ^ 52)%Z, (x + 1)%Z. split; [unfold repr; lia|].
      rewrite E53. change (2 ^ 53)%Z with (2 ^ 52 * 2 ^ 1)%Z.
      rewrite F2R_shift by lia. reflexivity.
    - exists (Zpos m + 1)%Z, x. split; [unfold repr; lia|reflexivity]. }
  destruct R as (M & E & HR & EM).
  assert (L : lb (F2R M E) (i * e)).
  { apply mul_lb with (F2R (Zpos m) x) (F2R 5854679515581645 (-52)); auto.
    - apply F2R_pos.
    - rewrite <- Vi. apply lb_val, Fi.
    - rewrite EM, F2R_mul.
      replace x with (x + -52 + 52)%Z at 1 by lia.
      rewrite <- F2R_shift by lia. apply F2R_le. lia. }
  apply ltb_lb with (F2R M E); [exact Fi| |].
  - apply Math_ceil_lb; [|exact L]. rewrite EM.
    apply Rlt_trans with (F2R (Zpos m) x); [apply F2R_pos|].
    apply F2R_lt. lia.
  - rewrite Vi, EM. apply F2R_lt. lia.
Qed.

Lemma sm2_interval_lengthens_witness :
  exists s,
    sm2 0%Z 3 {| repetitions := 2; easeFactor := 1.3; intervalDays := 6;
                 nextReviewAt := 0%Z |} = Ok s /\
    (6 <? intervalDays s) = true.
Proof.
  eexists. split; [reflexivity|].
  apply (sm2_interval_lengthens 0%Z 3
    {| repetitions := 2; easeFactor := 1.3; intervalDays := 6; nextReviewAt := 0%Z |});
    reflexivity.
Defined.

(** Adding a negative [d] of magnitude at least [2^(k+1)] to an ease
    factor above the floor, clamping and rounding gives the floor or a
    number at least [2^k] below the old one. *)
Lemma ease_lowers d md ed k e :
  Prim2SF d = S754_finite true md ed ->
  (- 4 <= k <= - 2)%Z -> (F2R 1 (k + 1) <= F2R (Zpos md) ed)%R ->
  (1.3 <? e) = true -> (e <? 281474976710656) = true ->
  (roundTwoPlaces (clampEase (e + d)) <? e) = true /\
  (roundTwoPlaces (clampEase (e + d)) = 1.3 \/
   (val (roundTwoPlaces (clampEase (e + d)%float)) <= val e - bpow k)%R).
Proof.
  intros Hd Hk Hbig Hlo Hhi.
  assert (F13 : finite_or_zero (Prim2SF 1.3)) by (rewrite Prim2SF_floor; exact I).
  destruct (ltb_finite e 281474976710656 I Hhi) as [Einf|[Fe Hv48]].
  { destruct (ltb_bounds 1.3 e F13 Hlo) as [E'|[_ H]].
    - congruence.
    - unfold val in H. rewrite Einf in H. rewrite Prim2SF_floor in H. simpl in H.
      pose proof (F2R_pos 5854679515581645 (-52)). lra. }
  destruct (ltb_bounds 1.3 e F13 Hlo) as [E'|[_ Hv13]].
  { rewrite E' in Fe. destruct Fe. }
  rewrite val_floor in Hv13.
  assert (P13 : (1 < F2R 5854679515581645 (-52))%R).
  { apply Rlt_le_trans with (F2R 5 (-2)).
    - rewrite <- (F2R_0 1). unfold F2R, bpow. simpl. lra.
    - apply F2R_leb_true. reflexivity. }
  (* the mantissa and exponent of [e] *)
  destruct (lb_ub_positive (val e) (val e) e ltac:(lra) (lb_val e Fe) (ub_val e Fe))
    as (m & x & Ee & _).
  assert (Ev : val e = F2R (Zpos m) x) by (unfold val; rewrite Ee; reflexivity).
  rewrite Ev in *.
  pose proof (Prim2SF_finite_valid e _ _ _ Ee) as Ve.
  destruct (bounded_canonical m x Ve) as [Cx _]. rewrite fexp64 in Cx.
  pose proof (bounded_repr m x Ve) as [Hm _].
  pose proof (F2R_digits m x) as [Dl Du].
  assert (V48 : val 281474976710656 = bpow 48).
  { unfold val.
    replace (Prim2SF 281474976710656)
      with (S754_finite false 4503599627370496 (- 4)) by reflexivity.
    unfold SF2R, SpecFloat.cond_Zopp.
    change 4503599627370496%Z with (1 * 2 ^ 52)%Z.
    rewrite F2R_shift by lia. unfold F2R. simpl (- 4 + 52)%Z. lra. }
  rewrite V48 in Hv48.
  assert (Hx : (- 52 <= x <= - 5)%Z).
  { assert (bpow 0 < bpow (Zpos (digits2_pos m) + x))%R
      by (change (bpow 0) with 1%R; lra).
    assert (bpow (Zpos (digits2_pos m) - 1 + x) < bpow 48)%R by lra.
    apply bpow_lt_inv in H, H0.
    pose proof (digits2_bounds m) as [_ U].
    assert (Zpos (digits2_pos m) <= 53)%Z.
    { destruct (Z.le_gt_cases (Zpos (digits2_pos m)) 53); auto.
      assert (2 ^ 53 <= 2 ^ (Zpos (digits2_pos m) - 1))%Z
        by (apply Z.pow_le_mono_r; lia).
      pose proof (digits2_bounds m). lia. }
    lia. }
  set (t := (2 ^ (k - x))%Z).
  assert (Ht : (2 <= t)%Z).
  { unfold t. change 2%Z with (2 ^ 1)%Z at 1. apply Z.pow_le_mono_r; lia. }
  assert (T16 : F2R t x = F2R 1 k) by (apply F2R_unit_fraction; lia).
  assert (T8 : F2R (2 * t) x = F2R 1 (k + 1)).
  { rewrite <- (F2R_unit_fraction x (k + 1)) by lia. f_equal. unfold t.
    replace (k + 1 - x)%Z with (1 + (k - x))%Z by lia.
    rewrite Z.pow_add_r by lia. reflexivity. }
  set (h := (2 ^ (- 1 - x))%Z).
  assert (T2 : F2R h x = (/ 2)%R).
  { rewrite <- F2R_half. apply F2R_unit_fraction. lia. }
  assert (Hh : (h <= 8 * t)%Z).
  { unfold h, t. replace (- 1 - x)%Z with ((- 1 - k) + (k - x))%Z by lia.
    rewrite Z.pow_add_r by lia.
    assert (2 ^ (- 1 - k) <= 2 ^ 3)%Z by (apply Z.pow_le_mono_r; lia).
    assert (0 < 2 ^ (k - x))%Z by (apply Z.pow_pos_nonneg; lia).
    change (2 ^ 3)%Z with 8%Z in *. nia. }
  assert (Hm2t : (2 * t < Zpos m)%Z).
  { apply (F2R_lt _ _ x). rewrite T8.
    assert (F2R 1 (k + 1) <= F2R 1 0)%R.
    { unfold F2R. pose proof (bpow_le (k + 1) 0 ltac:(lia)). lra. }
    rewrite F2R_0 in H. lra. }
  (* the sum *)
  assert (U0 : ub (F2R (Zpos m - 2 * t) x) (e + d)).
  { apply add_ub.
    - exact Fe.
    - rewrite Hd. exact I.
    - unfold repr. lia.
    - lia.
    - rewrite Ev. unfold val at 1. rewrite Hd. unfold SF2R.
      rewrite F2R_cond_Zopp.
      replace (Zpos m - 2 * t)%Z with (Zpos m + - (2 * t))%Z by lia.
      rewrite F2R_add, F2R_opp, T8.
      lra. }
  unfold clampEase. destruct (e + d <? 1.3) eqn:Ec.
  { rewrite round_floor. split; [exact Hlo | left; reflexivity]. }
  assert (N0 : Prim2SF (e + d) <> S754_nan).
  { apply add_not_nan.
    - rewrite Ee. discriminate.
    - rewrite Hd. exact I. }
  pose proof (leb_of_not_ltb _ _ N0 ltac:(rewrite Prim2SF_floor; discriminate) Ec) as L0.
  apply leb_lb in L0; auto. rewrite val_floor in L0.
  set (e0 := e + d) in *.
  assert (P13' : (0 < F2R 5854679515581645 (-52))%R) by lra.
  destruct (lb_ub_positive _ _ e0 P13' L0 U0) as (m0 & x0 & E0 & B0l & B0u).
  (* the product *)
  set (My := ((100 * (Zpos m - 2 * t) + 127) / 128)%Z).
  assert (HMy : (100 * (Zpos m - 2 * t) <= My * 128 <= 100 * (Zpos m - 2 * t) + 127)%Z).
  { unfold My. pose proof (Z.mul_div_le (100 * (Zpos m - 2 * t) + 127) 128 ltac:(lia)).
    pose proof (Z.mul_succ_div_gt (100 * (Zpos m - 2 * t) + 127) 128 ltac:(lia)).
    lia. }
  assert (Uy : ub (F2R My (x + 7)) (e0 * 100)).
  { apply mul_ub with (1 := E0) (2 := Prim2SF_hundred).
    - unfold repr. lia.
    - lia.
    - rewrite F2R_hundred.
      apply Rle_trans with (F2R (Zpos m - 2 * t) x * F2R 100 0)%R.
      + rewrite F2R_0. assert (0 < IZR 100)%R by (apply IZR_lt; lia). nra.
      + rewrite F2R_mul, Z.add_0_r, <- F2R_shift by lia. apply F2R_le.
        change (2 ^ 7)%Z with 128%Z. lia. }
  assert (Ly : lb (F2R 130 0) (e0 * 100)).
  { apply mul_lb with (F2R 5854679515581645 (-52)) (F2R 7036874417766400 (-46)).
    - lra.
    - apply (F2R_pos 7036874417766400).
    - exact L0.
    - rewrite <- val_hundred. apply lb_val. rewrite Prim2SF_hundred. exact I.
    - unfold repr. lia.
    - rewrite F2R_mul. apply F2R_leb_true. reflexivity. }
  assert (P130 : (0 < F2R 130 0)%R) by (rewrite F2R_0; apply IZR_lt; lia).
  destruct (lb_ub_positive _ _ _ P130 Ly Uy) as (my & xy & Ey & Byl & Byu).
  (* the rounding to an integer *)
  pose proof (Math_round_ub _ _ _ Ey) as Un.
  assert (Ln : lb (F2R 130 0) (Math_round (e0 * 100))).
  { rewrite F2R_0 in Ly.
    destruct (Math_round_lb 130 _ ltac:(lia) Ly) as [En|Ln].
    - rewrite En, F2R_0. apply of_nonneg_bounds. lia.
    - rewrite F2R_0. apply (lb_weaken _ _ _ Ln). apply IZR_le. lia. }
  destruct (lb_ub_positive _ _ _ P130 Ln Un) as (mn & xn & En & Bnl & Bnu).
  (* the division *)
  assert (Ur : ub (F2R (Zpos m - t) x) (Math_round (e0 * 100) / 100)).
  { apply div_ub with (1 := En) (2 := Prim2SF_hundred).
    - rewrite F2R_hundred.
      assert (F2R 100 0 <= F2R 130 0)%R by (apply F2R_le; lia). lra.
    - unfold repr. lia.
    - lia.
    - rewrite F2R_hundred, F2R_mul, Z.add_0_r.
      apply Rle_trans with (F2R (My * 128 + h) x).
      + rewrite F2R_add, T2.
        replace (F2R (My * 128) x) with (F2R My (x + 7))
          by (rewrite <- F2R_shift by lia; reflexivity).
        lra.
      + apply F2R_le. lia. }
  unfold roundTwoPlaces. split.
  - apply ltb_ub with (F2R (Zpos m - t) x); auto.
    rewrite Ev. apply F2R_lt. lia.
  - right. apply Rle_trans with (F2R (Zpos m - t) x).
    + apply ub_val_le; [exact Ur|].
      apply Rlt_le. replace 0%R with (F2R 0 x) by (unfold F2R; simpl; ring).
      apply F2R_lt. lia.
    + replace (Zpos m - t)%Z with (Zpos m + - t)%Z by lia.
      rewrite F2R_add, F2R_opp, T16. unfold F2R at 2. lra.
Qed.

Lemma Prim2SF_hard_delta :
  Prim2SF (easeDelta 1) = S754_finite true 4863887597560136 (-53).
Proof. reflexivity. Qed.

(** X27.  A Hard review takes at least a quarter off the ease factor.  For a
    state whose ease factor is above 1.3 and below 2^48, the review rated 1
    returns an ease factor that is strictly smaller, still at least 1.3,
    and either 1.3 itself or at least 0.25 below the old one; the
    repetitions are back at 0 and the interval at 1. *)
Theorem hard_review_lowers_ease now state s :
  (1.3 <? easeFactor state) = true ->
  (easeFactor state <? 281474976710656) = true ->
  sm2 now 1 state = Ok s ->
  (easeFactor s <? easeFactor state) = true /\
  (1.3 <=? easeFactor s) = true /\
  (easeFactor s = 1.3 \/
   (val (easeFactor s) <= val (easeFactor state) - / 4)%R) /\
  repetitions s = 0 /\ intervalDays s = 1.
Proof.
  intros Hlo Hhi H.
  pose proof (sm2_ease_eq _ _ _ _ H) as Ee.
  destruct (sm2_inv _ _ _ _ H) as (Er & Ei & _).
  destruct (ease_lowers (easeDelta 1) _ _ (- 2) (easeFactor state)
              Prim2SF_hard_delta ltac:(lia)
              ltac:(apply F2R_leb_true; reflexivity) Hlo Hhi) as [Hlt Hstep].
  rewrite <- Ee in Hlt, Hstep.
  split; [exact Hlt|]. split; [|split; [|split; [exact Er|exact Ei]]].
  - rewrite Ee. apply roundTwoPlaces_floor, clampEase_floor, add_not_nan.
    + destruct (ltb_bounds 1.3 _ ltac:(rewrite Prim2SF_floor; exact I) Hlo)
        as [E|[F _]]; [rewrite E; discriminate|].
      destruct (Prim2SF (easeFactor state)); simpl in F; try tauto; discriminate.
    + exact I.
  - destruct Hstep as [E|Hv]; [left; exact E|right].
    replace (/ 4)%R with (bpow (- 2)) by (unfold bpow; simpl; lra). exact Hv.
Qed.

Lemma hard_review_lowers_ease_witness :
  exists s, sm2 0%Z 1 freshState = Ok s /\
            (easeFactor s <? easeFactor freshState) = true.
Proof.
  eexists. split; [reflexivity|].
  apply (hard_review_lowers_ease 0%Z freshState); reflexivity.
Defined.

Lemma Prim2SF_easy_delta :
  Prim2SF (easeDelta 5) = S754_finite false 7205759403792794 (-56).
Proof. reflexivity. Qed.

(** Adding the update of an Easy review to an ease factor from 1.3 to
    below 2^45, and rounding, gives a number at least 1/32 above it. *)
Lemma easy_raises e :
  (1.3 <=? e) = true -> (e <? 35184372088832) = true ->
  lb (val e + / 32) (roundTwoPlaces (clampEase (e + easeDelta 5))) /\
  (e <? roundTwoPlaces (clampEase (e + easeDelta 5))) = true.
Proof.
  intros Hlo Hhi.
  assert (F13 : finite_or_zero (Prim2SF 1.3)) by (rewrite Prim2SF_floor; exact I).
  apply leb_lb in Hlo; [|exact F13]. rewrite val_floor in Hlo.
  destruct (ltb_finite e 35184372088832 I Hhi) as [Einf|[Fe Hv45]].
  { unfold lb in Hlo. rewrite Einf in Hlo. discriminate. }
  assert (P13 : (1 <= F2R 5854679515581645 (-52))%R).
  { rewrite <- (F2R_0 1). apply F2R_leb_true. reflexivity. }
  pose proof Hlo as Hlo'. unfold lb in Hlo'.
  destruct (SFlb_pos (F2R 5854679515581645 (-52)) _ ltac:(lra) Hlo')
    as [Einf|(m & x & Ee & B13)].
  { rewrite Einf in Fe. destruct Fe. }
  assert (Ev : val e = F2R (Zpos m) x) by (unfold val; rewrite Ee; reflexivity).
  destruct (normal_mantissa e m x Ee ltac:(lra)) as [Hm Hx].
  assert (V45 : val 35184372088832 = F2R 1 45).
  { unfold val.
    replace (Prim2SF 35184372088832)
      with (S754_finite false 4503599627370496 (- 7)) by reflexivity.
    unfold SF2R, SpecFloat.cond_Zopp.
    change 4503599627370496%Z with (1 * 2 ^ 52)%Z.
    rewrite F2R_shift by lia. reflexivity. }
  rewrite V45, Ev in Hv45.
  assert (Hx8 : (x <= - 8)%Z).
  { destruct (Z.le_gt_cases x (- 8)) as [L|G]; [exact L|exfalso].
    assert (F2R 1 45 <= F2R (Zpos m) x)%R; [|lra].
    apply Rle_trans with (F2R (1 * 2 ^ 52) x); [|apply F2R_le; lia].
    rewrite F2R_shift by lia. unfold F2R.
    pose proof (bpow_le 45 (x + 52) ltac:(lia)). lra. }
  (* everything in units of the last place of [e] *)
  set (k := (- x - 8)%Z). assert (Hk : (0 <= k)%Z) by (unfold k; lia).
  set (K := (2 ^ k)%Z). assert (HK : (0 < K)%Z) by (apply Z.pow_pos_nonneg; lia).
  assert (E8 : (2 ^ (- 5 - x) = 8 * K)%Z).
  { unfold K, k. replace (- 5 - x)%Z with (3 + (- x - 8))%Z by lia.
    rewrite Z.pow_add_r by lia. reflexivity. }
  assert (E128 : (2 ^ (k + 7) = K * 128)%Z).
  { unfold K. rewrite Z.pow_add_r by lia. reflexivity. }
  assert (E256 : (2 ^ (- x) = 256 * K)%Z).
  { replace (- x)%Z with (8 + k)%Z by (unfold k; lia).
    rewrite Z.pow_add_r by lia. reflexivity. }
  assert (Hm1 : (256 * K <= Zpos m)%Z).
  { rewrite <- E256. replace (2 ^ (- x))%Z with (1 * 2 ^ (- x))%Z by lia.
    apply F2R_int_le; [lia|]. replace (- - x)%Z with x by lia. lra. }
  assert (Hm2 : (Zpos m < 2 ^ 53 * K)%Z).
  { apply (F2R_lt _ _ x).
    replace (2 ^ 53 * K)%Z with (2 ^ 45 * 2 ^ (- x))%Z by (rewrite E256; lia).
    rewrite F2R_shift by lia. replace (x + - x)%Z with 0%Z by lia.
    replace (F2R (2 ^ 45) 0) with (F2R 1 45); [exact Hv45|].
    replace 45%Z with (0 + 45)%Z at 1 by lia. rewrite <- F2R_shift by lia.
    f_equal. }
  assert (T32 : F2R (8 * K) x = F2R 1 (- 5)).
  { rewrite <- E8. apply F2R_unit_fraction. lia. }
  (* the sum *)
  set (M1 := ((Zpos m + 24 * K) / 2)%Z).
  assert (HM1 : (Zpos m + 24 * K - 1 <= 2 * M1 <= Zpos m + 24 * K)%Z).
  { unfold M1. pose proof (Z.mul_div_le (Zpos m + 24 * K) 2 ltac:(lia)).
    pose proof (Z.mul_succ_div_gt (Zpos m + 24 * K) 2 ltac:(lia)). lia. }
  assert (S1 : forall M, F2R M (x + 1) = F2R (2 * M) x).
  { intros M. rewrite <- F2R_shift by lia. f_equal. lia. }
  assert (L0 : lb (F2R M1 (x + 1)) (e + easeDelta 5)).
  { apply add_lb with (val e).
    - apply lb_val, Fe.
    - rewrite Prim2SF_easy_delta. exact I.
    - unfold repr. lia.
    - rewrite S1, Ev. unfold val. rewrite Prim2SF_easy_delta. unfold SF2R.
      simpl SpecFloat.cond_Zopp.
      apply Rle_trans with (F2R (Zpos m + 24 * K) x); [apply F2R_le; lia|].
      rewrite F2R_add. replace (24 * K)%Z with (3 * 2 ^ (- 5 - x))%Z by lia.
      rewrite F2R_shift by lia. replace (x + (- 5 - x))%Z with (- 5)%Z by lia.
      assert (F2R 3 (- 5) <= F2R 7205759403792794 (- 56))%R
        by (apply F2R_leb_true; reflexivity).
      lra. }
  set (e0 := e + easeDelta 5) in *.
  assert (G1 : (F2R (Zpos m) x <= F2R M1 (x + 1))%R).
  { rewrite S1. apply F2R_le. lia. }
  assert (Ec : clampEase e0 = e0).
  { unfold clampEase. destruct (e0 <? 1.3) eqn:E; [|reflexivity]. exfalso.
    destruct (ltb_finite e0 1.3 F13 E) as [Ei|[F0 Hv]].
    - unfold lb in L0. rewrite Ei in L0. discriminate.
    - rewrite val_floor in Hv. clear - L0 F0 Hv G1 B13. unfold lb, val in *.
      destruct (Prim2SF e0); simpl in *; try tauto; lra. }
  rewrite Ec. unfold roundTwoPlaces.
  (* the product *)
  set (M2 := ((100 * M1) / 128)%Z).
  assert (HM2 : (100 * M1 - 127 <= 128 * M2 <= 100 * M1)%Z).
  { unfold M2. pose proof (Z.mul_div_le (100 * M1) 128 ltac:(lia)).
    pose proof (Z.mul_succ_div_gt (100 * M1) 128 ltac:(lia)). lia. }
  assert (P1 : (0 < F2R M1 (x + 1))%R).
  { apply Rlt_le_trans with (F2R (Zpos m) x); [apply F2R_pos|exact G1]. }
  assert (Ly : lb (F2R M2 (x + 8)) (e0 * 100)).
  { apply mul_lb with (F2R M1 (x + 1)) (F2R 7036874417766400 (-46)).
    - exact P1.
    - apply (F2R_pos 7036874417766400).
    - exact L0.
    - rewrite <- val_hundred. apply lb_val. rewrite Prim2SF_hundred. exact I.
    - unfold repr. lia.
    - rewrite F2R_hundred, F2R_mul, Z.add_0_r.
      replace (x + 8)%Z with (x + 1 + 7)%Z by lia.
      rewrite <- F2R_shift by lia. apply F2R_le.
      change (2 ^ 7)%Z with 128%Z. lia. }
  (* the rounding to an integer *)
  set (n := (M2 / K)%Z).
  assert (Hn : (n * K <= M2 < n * K + K)%Z).
  { unfold n. pose proof (Z.mul_div_le M2 K HK).
    pose proof (Z.mul_succ_div_gt M2 K HK). lia. }
  assert (Hn100 : (100 <= n)%Z).
  { apply (Z.mul_le_mono_pos_r _ _ K HK). lia. }
  assert (Hn52 : (n < 2 ^ 52)%Z).
  { apply (Z.mul_lt_mono_pos_r K _ _ HK). lia. }
  assert (Lyn : lb (IZR n) (e0 * 100)).
  { apply (lb_weaken _ _ _ Ly). replace (x + 8)%Z with (- k)%Z by (unfold k; lia).
    apply F2R_int_le; [exact Hk|]. fold K. lia. }
  assert (Ln : lb (IZR n) (Math_round (e0 * 100))).
  { destruct (Math_round_lb n _ ltac:(lia) Lyn) as [En|Ln].
    - rewrite En. apply of_nonneg_bounds. lia.
    - apply (lb_weaken _ _ _ Ln). apply IZR_le. lia. }
  (* the division *)
  set (M4 := ((Zpos m + 16 * K) / 2)%Z).
  assert (HM4 : (Zpos m + 16 * K - 1 <= 2 * M4 <= Zpos m + 16 * K)%Z).
  { unfold M4. pose proof (Z.mul_div_le (Zpos m + 16 * K) 2 ltac:(lia)).
    pose proof (Z.mul_succ_div_gt (Zpos m + 16 * K) 2 ltac:(lia)). lia. }
  assert (Lr : lb (F2R M4 (x + 1)) (Math_round (e0 * 100) / 100)).
  { apply div_lb with (1 := Prim2SF_hundred) (vx := IZR n).
    - exact Ln.
    - rewrite F2R_hundred, F2R_0. apply IZR_le. lia.
    - unfold repr. lia.
    - rewrite F2R_hundred, F2R_mul, Z.add_0_r.
      replace (IZR n) with (F2R (n * 2 ^ (k + 7)) (x + 1)).
      + apply F2R_le. rewrite E128. lia.
      + rewrite F2R_shift by lia.
        replace (x + 1 + (k + 7))%Z with 0%Z by (unfold k; lia). apply F2R_0. }
  split.
  - apply (lb_weaken _ _ _ Lr). rewrite S1, Ev.
    apply Rle_trans with (F2R (Zpos m + 8 * K) x); [|apply F2R_le; lia].
    rewrite F2R_add, T32.
    assert (F2R 1 (- 5) = / 32)%R by (unfold F2R, bpow; simpl; lra). lra.
  - apply ltb_lb with (F2R M4 (x + 1)); [exact Fe|exact Lr|].
    rewrite S1, Ev. apply F2R_lt. lia.
Qed.

(** X28.  An Easy review raises the ease factor.  For a state whose ease factor
    is at least 1.3 and below 2^45, the review rated 5 returns an ease
    factor that is strictly greater, by at least 1/32 (the update is 0.1,
    less the rounding to two decimal places); the repetitions go up by
    one. *)
Theorem easy_review_raises_ease now state s :
  (1.3 <=? easeFactor state) = true ->
  (easeFactor state <? 35184372088832) = true ->
  sm2 now 5 state = Ok s ->
  (easeFactor state <? easeFactor s) = true /\
  lb (val (easeFactor state) + / 32) (easeFactor s) /\
  repetitions s = repetitions state + 1.
Proof.
  intros Hlo Hhi H.
  pose proof (sm2_ease_eq _ _ _ _ H) as Ee.
  destruct (sm2_inv _ _ _ _ H) as (Er & _).
  destruct (easy_raises _ Hlo Hhi) as [Hlb Hlt].
  rewrite <- Ee in Hlb, Hlt. auto.
Qed.

Lemma easy_review_raises_ease_witness :
  exists s, sm2 0%Z 5 freshState = Ok s /\
            (easeFactor freshState <? easeFactor s) = true.
Proof.
  eexists. split; [reflexivity|].
  apply (easy_review_raises_ease 0%Z freshState); reflexivity.
Defined.

End SM2Steps.
